(** * Cadwyn route generation: a shallow embedding of [cadwyn/routing.py]

    The development follows the source file: the object model (annotations,
    functions, routes), the route locator [_get_routes], the endpoint
    instruction applier, the annotation rewriter with its [functools.cache],
    and the orchestrator [transform].

    Conventions of the embedding.
    - Objects are values.  An object whose Python equality is identity (a
      function, a [Depends], a [NewType], an opaque object) carries an object
      id; creating one draws a fresh id from the state of the rewriter.
    - A reference to a route of a router is its position in [routes]; an
      in-place update through the reference is an update at that position.
    - [deepcopy] is the identity on values: the copy is equal to the original
      and shares nothing mutable with it.
    - An exception ends the computation; the state at that point is not
      observed.
    - The methods of a route are the set the route was created with or the
      list an endpoint-had instruction assigned; the two are never equal,
      and [|=] on a set accepts only a set.
    - The [typing] module builds a generic alias from an origin and its
      arguments as they are given; every annotation is hashable and equal
      only to itself.  What the rewriter raises and the shape of what it
      returns are stated below only as far as they do not depend on
      this.
    - What [routing.py] imports from FastAPI, pydantic and the rest of
      cadwyn and only calls is a field of the record [World]. *)

From Stdlib Require Import String Ascii ZArith.
From stdpp Require Import gmap strings list pretty.

Set Default Proof Using "Type".

Scheme All for list.
Scheme All for prod.
Scheme All for option.

(** ** Paths

    A [pathlib.Path] is its tuple of parts; [str] joins them with the
    separator, ordering is the lexicographic order on the parts (the order
    [min] and [max] use on a set of paths). *)

Definition Path := list string.

Fixpoint path_str (p : Path) : string :=
  match p with
  | [] => ""
  | part :: rest => "/" +:+ part +:+ path_str rest
  end.

Definition path_parent (p : Path) : Path := removelast p.

Fixpoint path_compare (p q : Path) : comparison :=
  match p, q with
  | [], [] => Eq
  | [], _ :: _ => Lt
  | _ :: _, [] => Gt
  | x :: p', y :: q' =>
      match String.compare x y with
      | Eq => path_compare p' q'
      | c => c
      end
  end.

Definition path_ltb (p q : Path) : bool :=
  match path_compare p q with Lt => true | _ => false end.

Definition path_min (p q : Path) : Path := if path_ltb q p then q else p.
Definition path_max (p q : Path) : Path := if path_ltb p q then q else p.

(** [str.startswith] *)
Definition startswith (s pre : string) : bool := String.prefix pre s.

(** [str.endswith] *)
Fixpoint endswith (s suf : string) : bool :=
  if decide (s = suf) then true
  else match s with
       | EmptyString => false
       | String _ s' => endswith s' suf
       end.

(** ** Python objects that occur in annotations *)

(** A class object.  Two class objects are the same object iff they agree
    on all fields; [cls_is_schema] is [issubclass(c, BaseModel | Enum)] and
    [cls_source_file] is [inspect.getsourcefile(c)]. *)
Record cls := mk_cls {
  cls_module : string;
  cls_name : string;
  cls_is_schema : bool;
  cls_source_file : option string }.

Inductive param_kind :=
| POSITIONAL_ONLY | POSITIONAL_OR_KEYWORD | VAR_POSITIONAL | KEYWORD_ONLY | VAR_KEYWORD.

(** [inspect.Parameter]; [None] stands for [inspect.Signature.empty]. *)
Record Param_ (A : Type) := mk_Param {
  p_name : string;
  p_kind : param_kind;
  p_default : option A;
  p_annotation : option A }.
Arguments mk_Param {A}.
Arguments p_name {A}.
Arguments p_kind {A}.
Arguments p_default {A}.
Arguments p_annotation {A}.
Scheme All for Param_.

(** A function object: its identity [f_oid], [__name__], whether it is a
    coroutine function, [__annotations__] (a dict, in insertion order) and
    what [inspect.signature] reports for it. *)
Record func_ (A : Type) := mk_func {
  f_oid : nat;
  f_name : string;
  is_coroutine : bool;
  f_annotations : list (A * A);
  f_params : list (Param_ A);
  f_return : option A }.
Arguments mk_func {A}.
Arguments f_oid {A}.
Arguments f_name {A}.
Arguments is_coroutine {A}.
Arguments f_annotations {A}.
Arguments f_params {A}.
Arguments f_return {A}.
Scheme All for func_.

(** The shapes [_change_version_of_annotations] distinguishes.  Objects
    whose Python equality is identity carry an object id. *)
Inductive annotation :=
| ADict (items : list (annotation * annotation))
| AList (items : list annotation)
| ATuple (items : list annotation)
| AGenericAlias (origin : string) (args : list annotation)
| ADepends (oid : nat) (dependency : annotation) (use_cache : bool)
| AUnionType (args : list annotation)
| AAny
| ANewType (oid : nat)
| AType (c : cls)
| ACallable (f : func_ annotation)
| AStr (s : string)
| AOther (oid : nat).

Definition func := func_ annotation.
Definition Param := Param_ annotation.

Definition typing_Union : string := "typing.Union".

#[global] Instance cls_eq_dec : EqDecision cls.
Proof. solve_decision. Defined.
#[global] Instance param_kind_eq_dec : EqDecision param_kind.
Proof. solve_decision. Defined.
#[global] Instance Param_eq_dec `{EqDecision A} : EqDecision (Param_ A).
Proof. solve_decision. Defined.
#[global] Instance func_eq_dec_ `{EqDecision A} : EqDecision (func_ A).
Proof. solve_decision. Defined.

Fixpoint annotation_eq_dec (a b : annotation) {struct a} : {a = b} + {a ≠ b}.
Proof.
  assert (EqDecision annotation) as Hdec by exact annotation_eq_dec.
  destruct a, b; try (right; discriminate); try (left; reflexivity).
  - destruct (decide (items = items0)); [left | right]; congruence.
  - destruct (decide (items = items0)); [left | right]; congruence.
  - destruct (decide (items = items0)); [left | right]; congruence.
  - destruct (decide (origin = origin0)); [| right; congruence].
    destruct (decide (args = args0)); [left | right]; congruence.
  - destruct (decide (oid = oid0)); [| right; congruence].
    destruct (decide (use_cache = use_cache0)); [| right; congruence].
    destruct (annotation_eq_dec a b); [left | right]; congruence.
  - destruct (decide (args = args0)); [left | right]; congruence.
  - destruct (decide (oid = oid0)); [left | right]; congruence.
  - destruct (decide (c = c0)); [left | right]; congruence.
  - destruct (decide (f = f0)); [left | right]; congruence.
  - destruct (decide (s = s0)); [left | right]; congruence.
  - destruct (decide (oid = oid0)); [left | right]; congruence.
Defined.

#[global] Instance annotation_eq_dec_inst : EqDecision annotation := annotation_eq_dec.

(** ** Routes *)

(** [pydantic.fields.ModelField], the fields the generator reads. *)
Record ModelField := mk_ModelField {
  mf_name : string;
  type_ : annotation;
  mf_alias : string;
  has_alias : bool;
  mf_required : bool }.

(** [fastapi.dependencies.models.Dependant] *)
Inductive Dependant := mk_Dependant {
  request_param_name : option string;
  response_param_name : option string;
  body_params : list ModelField;
  dependant_dependencies : list Dependant }.

Inductive BaseRoute_ (R : Type) :=
| IsAPIRoute (r : R)
| OtherRoute (oid : nat).
Arguments IsAPIRoute {R}.
Arguments OtherRoute {R}.
Scheme All for BaseRoute_.

(** The value of the attribute [methods] of a route.  FastAPI gives a
    route the set of its methods; an endpoint-had instruction assigns the
    list of its payload.  Python's [==] never holds between a set and a
    list. *)
Inductive methods_value :=
| SetOfMethods (s : gset string)
| ListOfMethods (l : list string).

#[global] Instance methods_value_eq_dec : EqDecision methods_value.
Proof. solve_decision. Defined.

(** [set(methods)], and [frozenset(methods)] *)
Definition set_ (m : methods_value) : gset string :=
  match m with
  | SetOfMethods s => s
  | ListOfMethods l => list_to_set l
  end.

(** The ASGI application of a route and the request handler it is made
    from are functions that FastAPI builds; each is named by its object
    id. *)
Definition RouteHandler := nat.
Definition ASGIApp := nat.

(** [fastapi.routing.APIRoute].  [tags] is the list the deleted-route
    marker is appended to; every route owns its own list. *)
Inductive APIRoute := mk_APIRoute {
  path : string;
  path_format : string;
  methods : methods_value;
  endpoint : func;
  tags : list string;
  response_model : option annotation;
  status_code : option Z;
  dependencies : list annotation;
  summary : option string;
  deprecated : option bool;
  callbacks : list (BaseRoute_ APIRoute);
  dependant : Dependant;
  body_field : option ModelField;
  unique_id : string;
  app : ASGIApp }.

Definition BaseRoute := BaseRoute_ APIRoute.

Definition set_path (v : string) (r : APIRoute) : APIRoute :=
  let 'mk_APIRoute _ pf m e t rm sc d su dp cb dt bf u a := r in
  mk_APIRoute v pf m e t rm sc d su dp cb dt bf u a.
Definition set_methods (v : methods_value) (r : APIRoute) : APIRoute :=
  let 'mk_APIRoute p pf _ e t rm sc d su dp cb dt bf u a := r in
  mk_APIRoute p pf v e t rm sc d su dp cb dt bf u a.
Definition set_endpoint (v : func) (r : APIRoute) : APIRoute :=
  let 'mk_APIRoute p pf m _ t rm sc d su dp cb dt bf u a := r in
  mk_APIRoute p pf m v t rm sc d su dp cb dt bf u a.
Definition set_tags (v : list string) (r : APIRoute) : APIRoute :=
  let 'mk_APIRoute p pf m e _ rm sc d su dp cb dt bf u a := r in
  mk_APIRoute p pf m e v rm sc d su dp cb dt bf u a.
Definition set_response_model (v : option annotation) (r : APIRoute) : APIRoute :=
  let 'mk_APIRoute p pf m e t _ sc d su dp cb dt bf u a := r in
  mk_APIRoute p pf m e t v sc d su dp cb dt bf u a.
Definition set_status_code (v : option Z) (r : APIRoute) : APIRoute :=
  let 'mk_APIRoute p pf m e t rm _ d su dp cb dt bf u a := r in
  mk_APIRoute p pf m e t rm v d su dp cb dt bf u a.
Definition set_dependencies (v : list annotation) (r : APIRoute) : APIRoute :=
  let 'mk_APIRoute p pf m e t rm sc _ su dp cb dt bf u a := r in
  mk_APIRoute p pf m e t rm sc v su dp cb dt bf u a.
Definition set_summary (v : option string) (r : APIRoute) : APIRoute :=
  let 'mk_APIRoute p pf m e t rm sc d _ dp cb dt bf u a := r in
  mk_APIRoute p pf m e t rm sc d v dp cb dt bf u a.
Definition set_deprecated (v : option bool) (r : APIRoute) : APIRoute :=
  let 'mk_APIRoute p pf m e t rm sc d su _ cb dt bf u a := r in
  mk_APIRoute p pf m e t rm sc d su v cb dt bf u a.
Definition set_callbacks (v : list BaseRoute) (r : APIRoute) : APIRoute :=
  let 'mk_APIRoute p pf m e t rm sc d su dp _ dt bf u a := r in
  mk_APIRoute p pf m e t rm sc d su dp v dt bf u a.
Definition set_dependant (v : Dependant) (r : APIRoute) : APIRoute :=
  let 'mk_APIRoute p pf m e t rm sc d su dp cb _ bf u a := r in
  mk_APIRoute p pf m e t rm sc d su dp cb v bf u a.
Definition set_body_field (v : option ModelField) (r : APIRoute) : APIRoute :=
  let 'mk_APIRoute p pf m e t rm sc d su dp cb dt _ u a := r in
  mk_APIRoute p pf m e t rm sc d su dp cb dt v u a.
Definition set_app (v : ASGIApp) (r : APIRoute) : APIRoute :=
  let 'mk_APIRoute p pf m e t rm sc d su dp cb dt bf u _ := r in
  mk_APIRoute p pf m e t rm sc d su dp cb dt bf u v.

Definition set_request_param_name (v : option string) (d : Dependant) : Dependant :=
  mk_Dependant v (response_param_name d) (body_params d) (dependant_dependencies d).
Definition set_response_param_name (v : option string) (d : Dependant) : Dependant :=
  mk_Dependant (request_param_name d) v (body_params d) (dependant_dependencies d).
Definition set_body_params (v : list ModelField) (d : Dependant) : Dependant :=
  mk_Dependant (request_param_name d) (response_param_name d) v (dependant_dependencies d).
Definition set_dependant_dependencies (v : list Dependant) (d : Dependant) : Dependant :=
  mk_Dependant (request_param_name d) (response_param_name d) (body_params d) v.

(** [fastapi.routing.APIRouter]: the generator only touches [routes]. *)
Record APIRouter := mk_APIRouter { routes : list BaseRoute }.

(** This is the tag the source calls a hack. *)
Definition _DELETED_ROUTE_TAG : string := "_CADWYN_DELETED_ROUTE".

(** Modelled from the spec: the names of the hidden request and response
    parameters, two constants of [cadwyn.structure.versions]; all that
    matters is that they are not empty. *)
Definition _CADWYN_REQUEST_PARAM_NAME : string := "cadwyn_request_param".
Definition _CADWYN_RESPONSE_PARAM_NAME : string := "cadwyn_response_param".

(** ** Version bundle

    The instruction and version classes belong to [cadwyn.structure]; the
    generator only reads them. *)

(** Modelled from the spec: the payload of an endpoint-had instruction, a
    dataclass of [cadwyn.structure.endpoints] that is not part of
    [routing.py].  Every field defaults to the sentinel "unset" value,
    here [None].  The methods of a payload are a list of method names,
    where a route is created with a set. *)
Record EndpointAttributesPayload := mk_EndpointAttributesPayload {
  attr_path : option string;
  attr_response_model : option (option annotation);
  attr_status_code : option (option Z);
  attr_tags : option (list string);
  attr_dependencies : option (list annotation);
  attr_summary : option (option string);
  attr_deprecated : option (option bool);
  attr_methods : option (list string) }.

(** Modelled from the spec: the three structural instructions of
    [cadwyn.structure.endpoints], "endpoint existed/didn't exist/had". *)
Inductive instruction_kind :=
| EndpointDidntExistInstruction
| EndpointExistedInstruction
| EndpointHadInstruction (attributes : EndpointAttributesPayload).

(** Modelled from the spec: what every structural instruction carries,
    the path, the methods and the optional handler name it looks for. *)
Record instruction := mk_instruction {
  endpoint_path : string;
  endpoint_methods : gset string;
  endpoint_func_name : option string;
  kind : instruction_kind }.

Definition VersionDate := (nat * nat * nat)%type.

(** Modelled from the spec: a version change is "a named bundle of
    structural instructions and payload migration instructions"; of the
    migrations only the schemas and the (path, methods) they apply to are
    read here. *)
Record VersionChange := mk_VersionChange {
  vc_name : string;
  alter_endpoint_instructions : list instruction;
  alter_request_by_schema_instructions : list cls;
  alter_request_by_path_instructions : list (string * list (gset string)) }.

(** Modelled from the spec: "an ordered chronological tag plus an ordered
    list of version changes". *)
Record Version := mk_Version {
  value : VersionDate;
  version_changes : list VersionChange }.

(** Iterating a [VersionBundle] yields its versions, newest first. *)
Definition VersionBundle := list Version.

Record ModuleType := mk_ModuleType {
  module_name : string;
  module_is_package : bool }.

(** ** Exceptions

    An exception carries the values its message is formatted from; a set
    of methods stays a set, since [list(a_set)] has no fixed order, and
    the methods of a route are carried as the route has them. *)
Inductive RouterGenerationError :=
| NotAPackage (module : string)
| LatestModuleMisnamed (module : string)
| NeverRestored (routes_that_never_existed : list APIRoute)
| AlreadyDeleted (method_union : gset string) (endpoint_path : string)
    (version_change : string) (deleted_names : list string)
| DeletedDoesntExist (method_diff : gset string) (endpoint_path : string)
    (version_change : string)
| AlreadyExisted (method_union : gset string) (endpoint_path : string)
    (version_change : string) (existing_names : list string)
| SeveralApplicableRoutes (endpoint_methods : gset string) (endpoint_path : string)
    (version_change : string) (applicable : list string)
| SeveralNeverExistedRoutes (route_methods : methods_value) (route_path : string)
    (version_change : string) (applicable : list string)
| RestoredWasntDeleted (method_diff : gset string) (endpoint_path : string)
    (version_change : string)
| ChangedDoesntExist (method_diff : gset string) (endpoint_path : string)
    (version_change : string)
| AttributeWasTheSame (attr_name : string) (route_methods : methods_value)
    (route_path : string) (version_change : string)
| VersionDirDoesNotExist (version_dir : Path)
| NotDefinedInTemplateDir (annotation : cls) (template_version_dir : Path)
    (source_file : string)
| EndpointNotAsync (endpoint : func).

(** The object an [AttributeError] is about: a module, or a route that
    is no [APIRoute]. *)
Inductive attribute_owner :=
| ModuleObject (module : string)
| RouteObject (oid : nat).

Inductive exn :=
| Generation (e : RouterGenerationError)
| CadwynError_missing_param_names (request_param_name response_param_name : option string)
    (route_methods : methods_value) (route_path : string)
| CadwynError_already_deleted (name : string)
| RouteAlreadyExistsError (route1 route2 : APIRoute)
| LookupError (name : string)
| AttributeError (owner : attribute_owner) (name : string)
| IndexError
| TypeError.

Inductive result (A : Type) :=
| Ok (a : A)
| Raise (e : exn).
Arguments Ok {A}.
Arguments Raise {A}.

#[global] Instance result_ret : MRet result := @Ok.
#[global] Instance result_bind : MBind result := λ A B f m,
  match m with Ok a => f a | Raise e => Raise e end.

(** A [for] loop whose body may raise: the state is threaded through the
    items, the first exception ends the loop. *)
Fixpoint foldlM {S B} (body : S → B → result S) (s : S) (items : list B) : result S :=
  match items with
  | [] => Ok s
  | x :: rest =>
      match body s x with
      | Ok s' => foldlM body s' rest
      | Raise e => Raise e
      end
  end.

(** ** Route locator *)

Definition is_deleted_route (r : APIRoute) : bool :=
  bool_decide (_DELETED_ROUTE_TAG ∈ tags r).

Definition name_matches (endpoint_func_name : option string) (r : APIRoute) : bool :=
  match endpoint_func_name with
  | None => true
  | Some n => bool_decide (f_name (endpoint r) = n)
  end.

(** The condition of the [if] in the loop of [_get_routes]. *)
Definition route_matches (endpoint_path : string) (endpoint_methods : gset string)
    (endpoint_func_name : option string) (is_deleted : bool) (route : BaseRoute)
    : option APIRoute :=
  match route with
  | IsAPIRoute r =>
      if bool_decide (path r = endpoint_path)
         && bool_decide (set_ (methods r) ⊆ endpoint_methods)
         && name_matches endpoint_func_name r
         && bool_decide (is_deleted_route r = is_deleted)
      then Some r else None
  | OtherRoute _ => None
  end.

Definition _get_routes (routes : list BaseRoute) (endpoint_path : string)
    (endpoint_methods : gset string) (endpoint_func_name : option string)
    (is_deleted : bool) : list APIRoute :=
  fold_left
    (λ found_routes route,
       match route_matches endpoint_path endpoint_methods endpoint_func_name
               is_deleted route with
       | Some r => found_routes ++ [r]
       | None => found_routes
       end)
    routes [].

(** Python [==] on functions is identity; [Route.__eq__] of starlette
    compares path, endpoint and methods. *)
Definition route_eqb (a b : APIRoute) : bool :=
  bool_decide (path a = path b) && bool_decide (endpoint a = endpoint b)
  && bool_decide (methods a = methods b).

(** The loop of [_get_route_from_func], from position [i] on; the route
    it returns is a reference into [routes], as below. *)
Fixpoint _get_route_from_func_at (i : nat) (routes : list BaseRoute) (endpoint_ : func)
    : option (nat * APIRoute) :=
  match routes with
  | [] => None
  | IsAPIRoute r :: routes' =>
      if bool_decide (endpoint r = endpoint_) then Some (i, r)
      else _get_route_from_func_at (S i) routes' endpoint_
  | OtherRoute _ :: routes' => _get_route_from_func_at (S i) routes' endpoint_
  end.

Definition _get_route_from_func (routes : list BaseRoute) (endpoint_ : func)
    : option (nat * APIRoute) :=
  _get_route_from_func_at 0 routes endpoint_.

(** The routes a call of [_get_routes] returns are references into
    [routes]; a reference is the position of the route in the list. *)
Definition _get_routes_refs (routes : list BaseRoute) (endpoint_path : string)
    (endpoint_methods : gset string) (endpoint_func_name : option string)
    (is_deleted : bool) : list (nat * APIRoute) :=
  fold_left
    (λ found_routes '(i, route),
       match route_matches endpoint_path endpoint_methods endpoint_func_name
               is_deleted route with
       | Some r => found_routes ++ [(i, r)]
       | None => found_routes
       end)
    (imap pair routes) [].

(** Assignment through a reference. *)
Definition store (i : nat) (r : APIRoute) (routes : list BaseRoute) : list BaseRoute :=
  <[i := IsAPIRoute r]> routes.

Definition _validate_no_repetitions_in_routes (routes : list APIRoute) : result unit :=
  _ ← foldlM
        (λ (route_map : gmap (string * gset string) APIRoute) route,
           let route_info := (path route, set_ (methods route)) in
           match route_map !! route_info with
           | Some other => Raise (RouteAlreadyExistsError route other)
           | None => Ok (<[route_info := route]> route_map)
           end)
        ∅ routes;
  Ok ().

(** ** Endpoint instruction applier *)

(** One field of the payload dataclass together with the attribute of the
    route that carries the same name. *)
Record attr_field := mk_attr_field {
  attr_name : string;
  attr_type : Type;
  attr_eqb : attr_type → attr_type → bool;
  attr_of_payload : EndpointAttributesPayload → option attr_type;
  getattr : APIRoute → attr_type;
  setattr : attr_type → APIRoute → APIRoute }.

Definition py_eq {A} `{EqDecision A} (a b : A) : bool := bool_decide (a = b).

Definition __dataclass_fields__ : list attr_field :=
  [ mk_attr_field "path" string py_eq attr_path path set_path;
    mk_attr_field "response_model" (option annotation) py_eq
      attr_response_model response_model set_response_model;
    mk_attr_field "status_code" (option Z) py_eq
      attr_status_code status_code set_status_code;
    mk_attr_field "tags" (list string) py_eq attr_tags tags set_tags;
    mk_attr_field "dependencies" (list annotation) py_eq
      attr_dependencies dependencies set_dependencies;
    mk_attr_field "summary" (option string) py_eq
      attr_summary summary set_summary;
    mk_attr_field "deprecated" (option bool) py_eq
      attr_deprecated deprecated set_deprecated;
    mk_attr_field "methods" methods_value py_eq
      (λ attributes, ListOfMethods <$> attr_methods attributes) methods set_methods ].

(** The body of the loop of [_apply_endpoint_had_instruction].  [setattr]
    stores the value of the payload in the route; that a list stored in
    several routes is then one shared object is not represented. *)
Definition apply_attr (version_change : string) (attributes : EndpointAttributesPayload)
    (original_route : APIRoute) (fld : attr_field) : result APIRoute :=
  match attr_of_payload fld attributes with
  | Some attr =>
      if attr_eqb fld (getattr fld original_route) attr
      then Raise (Generation (AttributeWasTheSame (attr_name fld)
                    (methods original_route) (path original_route) version_change))
      else Ok (setattr fld attr original_route)
  | None => Ok original_route
  end.

Definition _apply_endpoint_had_instruction_on (fields : list attr_field)
    (version_change : string) (attributes : EndpointAttributesPayload)
    (original_route : APIRoute) : result APIRoute :=
  foldlM (apply_attr version_change attributes) original_route fields.

Definition _apply_endpoint_had_instruction :=
  _apply_endpoint_had_instruction_on __dataclass_fields__.

Fixpoint list_remove_first {A} `{EqDecision A} (x : A) (l : list A) : list A :=
  match l with
  | [] => []
  | y :: l' => if decide (y = x) then l' else y :: list_remove_first x l'
  end.

(** [list.remove] on a list of routes: the first element equal to [x]
    under [Route.__eq__]. *)
Fixpoint routes_remove (x : APIRoute) (l : list APIRoute) : list APIRoute :=
  match l with
  | [] => []
  | y :: l' => if route_eqb y x then l' else y :: routes_remove x l'
  end.

(** [acc |= methods] on a set [acc]: the union with a set; a list is an
    unsupported operand, a [TypeError]. *)
Definition set_ior (acc : gset string) (methods_ : methods_value) : result (gset string) :=
  match methods_ with
  | SetOfMethods s => Ok (acc ∪ s)
  | ListOfMethods _ => Raise TypeError
  end.

(** [method_union = set()] and the loop [method_union |= route.methods]. *)
Definition method_union (rs : list APIRoute) : result (gset string) :=
  foldlM (λ method_union r, set_ior method_union (methods r)) ∅ rs.

(** The working state of [_apply_endpoint_changes_to_router]:
    [router.routes] and [self.routes_that_never_existed]. *)
Record applier_state := mk_applier_state {
  st_routes : list BaseRoute;
  st_never_existed : list APIRoute }.

(** The loop over [deleted_routes] of an endpoint-existed instruction. *)
Definition restore_route (version_change : string)
    (acc : gset string * applier_state) (ref : nat * APIRoute)
    : result (gset string * applier_state) :=
  let '(methods_to_which_we_applied_changes, st) := acc in
  let '(i, deleted_route) := ref in
  methods_to_which_we_applied_changes ←
    set_ior methods_to_which_we_applied_changes (methods deleted_route);
  let deleted_route :=
    set_tags (list_remove_first _DELETED_ROUTE_TAG (tags deleted_route)) deleted_route in
  let routes := store i deleted_route (st_routes st) in
  let routes_that_never_existed :=
    _get_routes (IsAPIRoute <$> st_never_existed st) (path deleted_route)
      (set_ (methods deleted_route)) (Some (f_name (endpoint deleted_route))) true in
  match routes_that_never_existed with
  | [r] =>
      Ok (methods_to_which_we_applied_changes,
          mk_applier_state routes (routes_remove r (st_never_existed st)))
  | [] => Ok (methods_to_which_we_applied_changes,
              mk_applier_state routes (st_never_existed st))
  | _ => Raise (Generation (SeveralNeverExistedRoutes (methods deleted_route)
                  (path deleted_route) version_change
                  ((λ r, f_name (endpoint r)) <$> routes_that_never_existed)))
  end.

(** The first part of the body of the loop over
    [version_change.alter_endpoint_instructions]: the branch of the
    instruction's kind.  It yields [methods_to_which_we_applied_changes],
    the state and the message template [err] of the kind. *)
Definition process_instruction (version_change : string) (st : applier_state)
    (ins : instruction)
    : result (gset string * applier_state
              * (gset string → string → string → RouterGenerationError)) :=
  let routes := st_routes st in
  let original_routes :=
    _get_routes_refs routes (endpoint_path ins) (endpoint_methods ins)
      (endpoint_func_name ins) false in
  match kind ins with
  | EndpointDidntExistInstruction =>
      let deleted_routes :=
        _get_routes routes (endpoint_path ins) (endpoint_methods ins)
          (endpoint_func_name ins) true in
      if bool_decide (deleted_routes ≠ []) then
        method_union ← method_union deleted_routes;
        Raise (Generation (AlreadyDeleted method_union
                 (endpoint_path ins) version_change
                 ((λ r, f_name (endpoint r)) <$> deleted_routes)))
      else
        '(applied, routes) ←
          foldlM
            (λ '(applied, routes) '(i, original_route),
               applied ← set_ior applied (methods original_route);
               Ok (applied,
                   store i (set_tags (tags original_route ++ [_DELETED_ROUTE_TAG])
                              original_route) routes))
            (∅, routes) original_routes;
        Ok (applied, mk_applier_state routes (st_never_existed st),
            DeletedDoesntExist)
  | EndpointExistedInstruction =>
      if bool_decide (original_routes ≠ []) then
        method_union ← method_union original_routes.*2;
        Raise (Generation (AlreadyExisted method_union
                 (endpoint_path ins) version_change
                 ((λ r, f_name (endpoint r)) <$> original_routes.*2)))
      else
        let deleted_routes :=
          _get_routes_refs routes (endpoint_path ins) (endpoint_methods ins)
            (endpoint_func_name ins) true in
        _ ← match _validate_no_repetitions_in_routes deleted_routes.*2 with
            | Raise (RouteAlreadyExistsError r1 r2) =>
                Raise (Generation (SeveralApplicableRoutes (endpoint_methods ins)
                         (endpoint_path ins) version_change
                         [f_name (endpoint r1); f_name (endpoint r2)]))
            | other => other
            end;
        '(applied, st') ←
          foldlM (restore_route version_change) (∅, st) deleted_routes;
        Ok (applied, st', RestoredWasntDeleted)
  | EndpointHadInstruction attributes =>
      '(applied, routes) ←
        foldlM
          (λ '(applied, routes) '(i, original_route),
             applied ← set_ior applied (methods original_route);
             r' ← _apply_endpoint_had_instruction version_change attributes
                    original_route;
             Ok (applied, store i r' routes))
          (∅, routes) original_routes;
      Ok (applied, mk_applier_state routes (st_never_existed st),
          ChangedDoesntExist)
  end.

(** The second part: the comparison of the methods the instruction names
    with the methods it reached. *)
Definition check_method_diff (version_change : string) (ins : instruction)
    (methods_to_which_we_applied_changes : gset string)
    (err : gset string → string → string → RouterGenerationError) : result unit :=
  let methods_we_should_have_applied_changes_to := endpoint_methods ins in
  let method_diff :=
    methods_we_should_have_applied_changes_to ∖ methods_to_which_we_applied_changes in
  if bool_decide (method_diff ≠ ∅) then
    Raise (Generation (err method_diff (endpoint_path ins) version_change))
  else Ok ().

(** The body of the loop over [version_change.alter_endpoint_instructions]. *)
Definition apply_instruction (version_change : string) (st : applier_state)
    (ins : instruction) : result applier_state :=
  '(methods_to_which_we_applied_changes, st', err) ←
    process_instruction version_change st ins;
  _ ← check_method_diff version_change ins methods_to_which_we_applied_changes err;
  Ok st'.

Definition apply_version_change (st : applier_state) (version_change : VersionChange)
    : result applier_state :=
  foldlM (apply_instruction (vc_name version_change)) st
    (alter_endpoint_instructions version_change).

Definition _apply_endpoint_changes_to_router (st : applier_state) (version : Version)
    : result applier_state :=
  foldlM apply_version_change st (version_changes version).

(** ** Collaborators

    What [routing.py] imports from FastAPI, pydantic and the rest of
    cadwyn and only calls. *)
Record World := mk_World {
  (** [cadwyn._utils.get_another_version_of_module], on module names;
      [None] is [ModuleIsNotVersionedError]. *)
  get_another_version_of_module : string → Path → list Path → option string;
  (** [getattr(module, name)]; [None] is [AttributeError]. *)
  module_getattr : string → string → option cls;
  _get_package_path_from_module : ModuleType → Path;
  _get_version_dir_path : ModuleType → VersionDate → Path;
  (** [Path.is_dir] *)
  is_dir : Path → bool;
  get_dependant : string → func → Dependant;
  get_body_field : Dependant → string → option ModelField;
  get_parameterless_sub_dependant : annotation → string → Dependant;
  (** [_SCHEMA_TO_INTERNAL_REQUEST_BODY_REPRESENTATION_MAPPING.get] *)
  internal_request_body_representation : annotation → option annotation;
  (** [VersionBundle._versioned(...)(endpoint)] *)
  _versioned : option annotation → option string → list ModelField → Dependant →
               option annotation → string → string → func → func;
  (** [route.get_route_handler()] *)
  get_route_handler : APIRoute → RouteHandler;
  (** [starlette.routing.request_response] *)
  request_response : RouteHandler → ASGIApp }.

(** ** Annotation version rewriter *)

(** What a transformer mutates while it runs: the dict behind
    [functools.cache] and the supply of fresh object identities. *)
Record tstate := mk_tstate {
  cache : list (annotation * Path * annotation);
  next_oid : nat }.

Definition M (A : Type) : Type := tstate → result (A * tstate).

#[global] Instance M_ret : MRet M := λ A a s, Ok (a, s).
#[global] Instance M_bind : MBind M := λ A B f m s,
  match m s with
  | Ok (a, s') => f a s'
  | Raise e => Raise e
  end.

Definition lift {A} (r : result A) : M A := λ s,
  match r with Ok a => Ok (a, s) | Raise e => Raise e end.

(** Creating an object gives it an identity no other object has. *)
Definition new_object : M nat := λ s,
  Ok (next_oid s, mk_tstate (cache s) (S (next_oid s))).

Fixpoint cache_lookup (key : annotation * Path)
    (c : list (annotation * Path * annotation)) : option annotation :=
  match c with
  | [] => None
  | (k, v) :: c' => if decide (k = key) then Some v else cache_lookup key c'
  end.

(** [functools.cache(f)(annotation, version_dir)]: a hit returns the stored
    object, a miss calls [f] and stores what it returns; an exception
    stores nothing. *)
Definition functools_cache (annotation_ : annotation) (version_dir : Path)
    (compute : M annotation) : M annotation := λ s,
  match cache_lookup (annotation_, version_dir) (cache s) with
  | Some r => Ok (r, s)
  | None =>
      match compute s with
      | Ok (r, s') =>
          Ok (r, mk_tstate ((annotation_, version_dir, r) :: cache s') (next_oid s'))
      | Raise e => Raise e
      end
  end.

Fixpoint mapM_ {A B} (f : A → M B) (l : list A) : M (list B) :=
  match l with
  | [] => mret []
  | x :: l' => y ← f x; ys ← mapM_ f l'; mret (y :: ys)
  end.

(** [d[k] = v] on a dict kept in insertion order. *)
Fixpoint dict_set (k v : annotation) (d : list (annotation * annotation))
    : list (annotation * annotation) :=
  match d with
  | [] => [(k, v)]
  | (k', v') :: d' => if decide (k' = k) then (k', v) :: d' else (k', v') :: dict_set k v d'
  end.

Fixpoint dict_get (k : annotation) (d : list (annotation * annotation))
    : option annotation :=
  match d with
  | [] => None
  | (k', v') :: d' => if decide (k' = k) then Some v' else dict_get k d'
  end.

(** The dict comprehension [{f(key): f(value) for key, value in items}]. *)
Fixpoint dict_comprehension (f : annotation → M annotation)
    (items acc : list (annotation * annotation)) : M (list (annotation * annotation)) :=
  match items with
  | [] => mret acc
  | (k, v) :: items' =>
      k' ← f k; v' ← f v; dict_comprehension f items' (dict_set k' v' acc)
  end.

(** [tuple(f(p.default) for p in old_params.values()
          if p.default is not inspect.Signature.empty)] *)
Fixpoint map_defaults (f : annotation → M annotation) (old_params : list Param)
    : M (list annotation) :=
  match old_params with
  | [] => mret []
  | p :: ps =>
      match p_default p with
      | Some d => d' ← f d; ds ← map_defaults f ps; mret (d' :: ds)
      | None => map_defaults f ps
      end
  end.

Definition _generate_signature (new_defaults : list annotation)
    (new_annotations : list (annotation * annotation)) (old_params : list Param)
    : result (list Param * option annotation) :=
  '(parameters, _) ←
    foldlM
      (λ '(parameters, default_counter) param,
         '(default, default_counter) ←
           match p_default param with
           | Some _ =>
               match new_defaults !! default_counter with
               | Some d => Ok (Some d, S default_counter)
               | None => Raise IndexError
               end
           | None => Ok (None, default_counter)
           end;
         Ok (parameters ++
               [mk_Param (p_name param) (p_kind param) default
                  (dict_get (AStr (p_name param)) new_annotations)],
             default_counter))
      ([], 0) old_params;
  Ok (parameters, dict_get (AStr "return") new_annotations).

Record _AnnotationTransformer := mk_AnnotationTransformer {
  latest_schemas_module : ModuleType;
  version_dirs : list Path;
  template_version_dir : Path;
  latest_version_dir : Path }.

Section with_world.
Context (W : World).

Definition _AnnotationTransformer__init__ (latest_schemas_module : ModuleType)
    (versions : VersionBundle) : result _AnnotationTransformer :=
  if negb (module_is_package latest_schemas_module) then
    Raise (Generation (NotAPackage (module_name latest_schemas_module)))
  else if negb (endswith (module_name latest_schemas_module) ".latest") then
    Raise (Generation (LatestModuleMisnamed (module_name latest_schemas_module)))
  else
    let package_path := _get_package_path_from_module W latest_schemas_module in
    let version_dirs :=
      [package_path]
      ++ ((λ version, _get_version_dir_path W latest_schemas_module (value version))
            <$> versions) in
    Ok (mk_AnnotationTransformer latest_schemas_module version_dirs
          (foldl path_min package_path version_dirs)
          (foldl path_max package_path version_dirs)).

Context (self : _AnnotationTransformer).

Definition get_another_version_of_cls (cls_from_old_version : cls)
    (new_version_dir : Path) : result cls :=
  match get_another_version_of_module W (cls_module cls_from_old_version)
          new_version_dir (version_dirs self) with
  | None => Ok cls_from_old_version
  | Some module =>
      match module_getattr W module (cls_name cls_from_old_version) with
      | Some c => Ok c
      | None => Raise (AttributeError (ModuleObject module) (cls_name cls_from_old_version))
      end
  end.

Definition _validate_source_file_is_located_in_template_dir (annotation_ : cls)
    (source_file : string) : result unit :=
  let template_dir := path_str (template_version_dir self) in
  let dir_with_versions := path_str (path_parent (template_version_dir self)) in
  if startswith source_file dir_with_versions
     && negb (startswith source_file template_dir)
     && existsb (λ d, startswith source_file (path_str d)) (version_dirs self)
  then Raise (Generation (NotDefinedInTemplateDir annotation_
                (template_version_dir self) source_file))
  else Ok ().

Definition _change_version_of_type (annotation_ : cls) (version_dir : Path)
    : result annotation :=
  if cls_is_schema annotation_ then
    _ ← (if decide (version_dir = latest_version_dir self) then
           match cls_source_file annotation_ with
           | None => Ok ()
           | Some source_file =>
               _validate_source_file_is_located_in_template_dir annotation_ source_file
           end
         else Ok ());
    c ← get_another_version_of_cls annotation_ version_dir;
    Ok (AType c)
  else Ok (AType annotation_).

(** The branches of [_change_versions_of_a_non_container_annotation],
    given the function [rw] it recurses through. *)
Definition non_container_branch (rw : annotation → M annotation)
    (annotation_ : annotation) (version_dir : Path) : M annotation :=
  match annotation_ with
  | AGenericAlias origin args =>
      args' ← mapM_ rw args; mret (AGenericAlias origin args')
  | ADepends _ dependency use_cache =>
      dependency' ← rw dependency;
      oid ← new_object;
      mret (ADepends oid dependency' use_cache)
  | AUnionType args =>
      args' ← mapM_ rw args; mret (AGenericAlias typing_Union args')
  | AAny | ANewType _ => mret annotation_
  | AType c => lift (_change_version_of_type c version_dir)
  | ACallable f =>
      oid ← new_object;
      new_annotations ← dict_comprehension rw (f_annotations f) [];
      new_defaults ← map_defaults rw (f_params f);
      '(parameters, return_annotation) ←
        lift (_generate_signature new_defaults new_annotations (f_params f));
      mret (ACallable (mk_func oid (f_name f) (is_coroutine f) new_annotations
                         parameters return_annotation))
  | _ => mret annotation_
  end.

Fixpoint _change_version_of_annotations (annotation_ : annotation)
    (version_dir : Path) {struct annotation_} : M annotation :=
  let rw a := _change_version_of_annotations a version_dir in
  match annotation_ with
  | ADict items =>
      items' ← dict_comprehension rw items []; mret (ADict items')
  | AList items => items' ← mapM_ rw items; mret (AList items')
  | ATuple items => items' ← mapM_ rw items; mret (ATuple items')
  | _ =>
      functools_cache annotation_ version_dir
        (non_container_branch rw annotation_ version_dir)
  end.

(** ** Router version generator *)

Definition as_list (a : annotation) : result (list annotation) :=
  match a with AList l => Ok l | _ => Raise TypeError end.

Definition as_callable (a : annotation) : result func :=
  match a with ACallable f => Ok f | _ => Raise TypeError end.

(** Truthiness of an [Optional[str]]. *)
Definition truthy (o : option string) : bool :=
  match o with
  | Some s => negb (bool_decide (s = ""))
  | None => false
  end.

Definition _add_request_and_response_params (route : APIRoute) : APIRoute :=
  let route :=
    if negb (truthy (request_param_name (dependant route))) then
      set_dependant
        (set_request_param_name (Some _CADWYN_REQUEST_PARAM_NAME) (dependant route)) route
    else route in
  if negb (truthy (response_param_name (dependant route))) then
    set_dependant
      (set_response_param_name (Some _CADWYN_RESPONSE_PARAM_NAME) (dependant route)) route
  else route.

Definition _remake_endpoint_dependencies (route : APIRoute) : APIRoute :=
  let route :=
    set_dependant (get_dependant W (path_format route) (endpoint route)) route in
  let route := _add_request_and_response_params route in
  let route :=
    set_body_field (get_body_field W (dependant route) (unique_id route)) route in
  let route :=
    fold_left
      (λ route depends,
         set_dependant
           (set_dependant_dependencies
              (get_parameterless_sub_dependant W depends (path_format route)
                 :: dependant_dependencies (dependant route))
              (dependant route))
           route)
      (rev (dependencies route)) route in
  set_app (request_response W (get_route_handler W route)) route.

(** The assignments to [route] are threaded as [r1], [r2], [r3];
    [route.callbacks] is not assigned before it is read. *)
Fixpoint migrate_route_to_version (route : APIRoute) (version_dir : Path)
    (ignore_response_model : bool) {struct route} : M APIRoute :=
  r1 ←
    match response_model route with
    | Some a =>
        if ignore_response_model then mret route
        else a' ← _change_version_of_annotations a version_dir;
             mret (set_response_model (Some a') route)
    | None => mret route
    end;
  deps ← _change_version_of_annotations (AList (dependencies r1)) version_dir;
  deps ← lift (as_list deps);
  let r2 := set_dependencies deps r1 in
  e ← _change_version_of_annotations (ACallable (endpoint r2)) version_dir;
  e ← lift (as_callable e);
  let r3 := set_endpoint e r2 in
  cbs ← mapM_
          (λ callback,
             match callback with
             | IsAPIRoute c =>
                 c' ← migrate_route_to_version c version_dir ignore_response_model;
                 mret (IsAPIRoute c')
             | OtherRoute o => mret (OtherRoute o)
             end)
          (callbacks route);
  mret (_remake_endpoint_dependencies (set_callbacks cbs r3)).

Definition migrate_router_to_version (router : APIRouter) (version : Version)
    : M APIRouter :=
  let version_dir := _get_version_dir_path W (latest_schemas_module self) (value version) in
  if negb (is_dir W version_dir) then
    lift (Raise (Generation (VersionDirDoesNotExist version_dir)))
  else
    routes' ← mapM_
                (λ route,
                   match route with
                   | IsAPIRoute r =>
                       r' ← migrate_route_to_version r version_dir false;
                       mret (IsAPIRoute r')
                   | OtherRoute o => mret (OtherRoute o)
                   end)
                (routes router);
    mret (mk_APIRouter routes').

Definition is_async_callable (f : func) : bool := is_coroutine f.

Definition _add_data_migrations_to_route (route : APIRoute)
    (template_body_field : option annotation) (template_body_field_name : option string)
    (dependant_for_request_migrations : Dependant)
    (latest_response_model : option annotation) : result APIRoute :=
  if negb (is_async_callable (endpoint route)) then
    Raise (Generation (EndpointNotAsync (endpoint route)))
  else
    match request_param_name (dependant route), response_param_name (dependant route) with
    | Some req, Some resp =>
        if truthy (Some req) && truthy (Some resp) then
          Ok (set_endpoint
                (_versioned W template_body_field template_body_field_name
                   (body_params (dependant route)) dependant_for_request_migrations
                   latest_response_model req resp (endpoint route))
                route)
        else Raise (CadwynError_missing_param_names (Some req) (Some resp)
                      (methods route) (path route))
    | req, resp =>
        Raise (CadwynError_missing_param_names req resp (methods route) (path route))
    end.
End with_world.

Definition _get_migrated_routes_by_path (version : Version) : gmap string (gset string) :=
  let request_by_path_migration_instructions :=
    alter_request_by_path_instructions <$> version_changes version in
  fold_left
    (λ migrated_routes instruction_dict,
       fold_left
         (λ migrated_routes '(path, instruction_list),
            fold_left
              (λ (migrated_routes : gmap string (gset string)) instruction_methods,
                 <[path := default ∅ (migrated_routes !! path) ∪ instruction_methods]>
                   migrated_routes)
              instruction_list migrated_routes)
         instruction_dict migrated_routes)
    request_by_path_migration_instructions ∅.

Record _RouterInfo := mk_RouterInfo {
  router : APIRouter;
  routes_with_migrated_requests : gmap string (gset string);
  route_bodies_with_migrated_requests : list cls }.

(** [d[key] = v] on a dict in insertion order. *)
Fixpoint infos_set {V} (key : VersionDate) (v : V) (d : list (VersionDate * V))
    : list (VersionDate * V) :=
  match d with
  | [] => [(key, v)]
  | (k, v') :: d' => if decide (k = key) then (k, v) :: d' else (k, v') :: infos_set key v d'
  end.

Record _EndpointTransformer := mk_EndpointTransformer {
  parent_router : APIRouter;
  versions : VersionBundle;
  annotation_transformer : _AnnotationTransformer;
  routes_that_never_existed : list APIRoute }.

Definition api_routes (routes : list BaseRoute) : list APIRoute :=
  omap (λ route, match route with IsAPIRoute r => Some r | OtherRoute _ => None end) routes.

(** [deepcopy] gives a structurally equal object that shares nothing
    mutable with its argument: on values it is the identity. *)
Definition deepcopy {A} (a : A) : A := a.

(** A [for] loop in the transformer monad. *)
Fixpoint forM {S B} (body : S → B → M S) (s : S) (items : list B) : M S :=
  match items with
  | [] => mret s
  | x :: rest => s' ← body s x; forM body s' rest
  end.

Section generator.
Context (W : World).

Definition _EndpointTransformer__init__ (parent_router : APIRouter)
    (versions : VersionBundle) (latest_schemas_module : ModuleType)
    : result _EndpointTransformer :=
  annotation_transformer ← _AnnotationTransformer__init__ W latest_schemas_module versions;
  Ok (mk_EndpointTransformer parent_router versions annotation_transformer
        (List.filter is_deleted_route (api_routes (routes parent_router)))).

(** The variables the first loop of [transform] assigns, together with
    [self.routes_that_never_existed]. *)
Record loop_state := mk_loop_state {
  ls_router : APIRouter;
  ls_router_infos : list (VersionDate * _RouterInfo);
  ls_routes_with_migrated_requests : gmap string (gset string);
  ls_route_bodies_with_migrated_requests : list cls;
  ls_routes_that_never_existed : list APIRoute }.

(** The body of [for version in self.versions]. *)
Definition version_step (self : _EndpointTransformer) (ls : loop_state)
    (version : Version) : M loop_state :=
  router ← migrate_router_to_version W (annotation_transformer self) (ls_router ls) version;
  let router_infos :=
    infos_set (value version)
      (mk_RouterInfo router (ls_routes_with_migrated_requests ls)
         (ls_route_bodies_with_migrated_requests ls))
      (ls_router_infos ls) in
  let routes_with_migrated_requests := _get_migrated_routes_by_path version in
  let route_bodies_with_migrated_requests :=
    change ← version_changes version; alter_request_by_schema_instructions change in
  let router := deepcopy router in
  st ← lift (_apply_endpoint_changes_to_router
               (mk_applier_state (routes router) (ls_routes_that_never_existed ls))
               version);
  mret (mk_loop_state (mk_APIRouter (st_routes st)) router_infos
          routes_with_migrated_requests route_bodies_with_migrated_requests
          (st_never_existed st)).

Definition copy_of_dependant_for (latest_route : APIRoute) : Dependant :=
  let copy_of_dependant := deepcopy (dependant latest_route) in
  match body_params copy_of_dependant with
  | [body_param] =>
      let body_schema := type_ body_param in
      let new_type :=
        default body_schema (internal_request_body_representation W body_schema) in
      let new_body_param :=
        mk_ModelField (mf_name body_param) new_type
          (if has_alias body_param then mf_alias body_param else mf_name body_param)
          (has_alias body_param) (mf_required body_param) in
      set_body_params [new_body_param] copy_of_dependant
  | _ => copy_of_dependant
  end.

(** The body of [for older_router_info in list(router_infos.values())]. *)
Definition migrate_older_route (self : _EndpointTransformer) (latest_route : APIRoute)
    (copy_of_dependant : Dependant) (route_index : nat)
    (entry : VersionDate * _RouterInfo) : M (VersionDate * _RouterInfo) :=
  let '(version, older_router_info) := entry in
  match routes (router older_router_info) !! route_index with
  | None => lift (Raise IndexError)
  | Some (OtherRoute o) => lift (Raise (AttributeError (RouteObject o) "body_field"))
  | Some (IsAPIRoute older_route) =>
      template_older_body_model ←
        match body_field older_route with
        | Some older_body_field =>
            if bool_decide (length (body_params (dependant older_route)) = 1) then
              a ← _change_version_of_annotations W (annotation_transformer self)
                    (type_ older_body_field)
                    (template_version_dir (annotation_transformer self));
              mret (Some a)
            else mret None
        | None => mret None
        end;
      older_route' ←
        lift (_add_data_migrations_to_route W older_route template_older_body_model
                (mf_alias <$> body_field older_route) copy_of_dependant
                (response_model latest_route));
      mret (version,
            mk_RouterInfo
              (mk_APIRouter
                 (<[route_index := IsAPIRoute older_route']>
                    (routes (router older_router_info))))
              (routes_with_migrated_requests older_router_info)
              (route_bodies_with_migrated_requests older_router_info))
  end.

(** The body of [for route_index, latest_route in enumerate(...)]; the
    state is the routes of [self.parent_router] and [router_infos]. *)
Definition latest_route_step (self : _EndpointTransformer)
    (acc : list BaseRoute * list (VersionDate * _RouterInfo))
    (route_index : nat) : M (list BaseRoute * list (VersionDate * _RouterInfo)) :=
  let '(parent_routes, router_infos) := acc in
  match parent_routes !! route_index with
  | Some (IsAPIRoute latest_route) =>
      let latest_route := _add_request_and_response_params latest_route in
      let parent_routes := <[route_index := IsAPIRoute latest_route]> parent_routes in
      let copy_of_dependant := copy_of_dependant_for latest_route in
      router_infos ←
        mapM_ (migrate_older_route self latest_route copy_of_dependant route_index)
          router_infos;
      mret (parent_routes, router_infos)
  | _ => mret acc
  end.

Definition strip_deleted (routes : list BaseRoute) : list BaseRoute :=
  List.filter
    (λ route,
       negb match route with
            | IsAPIRoute r => is_deleted_route r
            | OtherRoute _ => false
            end)
    routes.

(** [transform] returns the mapping; what it leaves behind in [self]
    (the parent router it was given included) is returned with it. *)
Definition transform (self : _EndpointTransformer)
    : M (list (VersionDate * APIRouter) * _EndpointTransformer) :=
  let router_ := deepcopy (parent_router self) in
  ls ← forM (version_step self)
         (mk_loop_state router_ [] ∅ [] (routes_that_never_existed self))
         (versions self);
  if bool_decide (ls_routes_that_never_existed ls ≠ []) then
    lift (Raise (Generation (NeverRestored (ls_routes_that_never_existed ls))))
  else
    '(parent_routes, router_infos) ←
      forM (latest_route_step self)
        (routes (parent_router self), ls_router_infos ls)
        (seq 0 (length (routes (parent_router self))));
    let router_infos :=
      (λ '(version, router_info),
         (version,
          mk_RouterInfo (mk_APIRouter (strip_deleted (routes (router router_info))))
            (routes_with_migrated_requests router_info)
            (route_bodies_with_migrated_requests router_info)))
        <$> router_infos in
    mret ((λ '(version, router_info), (version, router router_info)) <$> router_infos,
          mk_EndpointTransformer (mk_APIRouter parent_routes) (versions self)
            (annotation_transformer self) (ls_routes_that_never_existed ls)).

(** The initial state of a transformer: an empty cache.  [fresh] bounds
    the identities of the objects that exist already. *)
Definition new_tstate (fresh : nat) : tstate := mk_tstate [] fresh.

Definition generate_versioned_routers (router : APIRouter) (versions : VersionBundle)
    (latest_schemas_module : ModuleType) (fresh : nat)
    : result (list (VersionDate * APIRouter) * APIRouter) :=
  self ← _EndpointTransformer__init__ router versions latest_schemas_module;
  '(result, self', _) ← transform self (new_tstate fresh);
  Ok (result, parent_router self').

(** [VersionedAPIRouter.only_exists_in_older_versions] *)
Definition only_exists_in_older_versions (self : APIRouter) (endpoint_ : func)
    : result APIRouter :=
  match _get_route_from_func (routes self) endpoint_ with
  | None => Raise (LookupError (f_name endpoint_))
  | Some (i, route) =>
      if is_deleted_route route then Raise (CadwynError_already_deleted (f_name endpoint_))
      else Ok (mk_APIRouter
                 (store i (set_tags (tags route ++ [_DELETED_ROUTE_TAG]) route)
                    (routes self)))
  end.
End generator.

(** * Specifications

    Predicates that follow the words of the specification, to be compared
    with the functions above. *)

(** A route matches a query of the locator: "its path equals the query
    path, its method set is a subset of the query method set, its
    deleted-marker state equals the requested state, and (if given) its
    handler's name equals the query name". *)
Definition locator_match (endpoint_path : string) (endpoint_methods : gset string)
    (endpoint_func_name : option string) (is_deleted : bool) (r : APIRoute) : Prop :=
  path r = endpoint_path
  ∧ set_ (methods r) ⊆ endpoint_methods
  ∧ (_DELETED_ROUTE_TAG ∈ tags r ↔ is_deleted = true)
  ∧ (∀ n, endpoint_func_name = Some n → f_name (endpoint r) = n).

#[global] Instance locator_match_dec p ms n d r : Decision (locator_match p ms n d r).
Proof.
  unfold locator_match.
  refine (and_dec _ (and_dec _ (and_dec _ _))); try apply _.
  destruct n as [n|].
  - destruct (decide (f_name (endpoint r) = n)) as [Heq|Hne].
    + left. intros ? [= <-]. exact Heq.
    + right. intros H. apply Hne, H. reflexivity.
  - left. intros ? [=].
Defined.

(** The methods of the route are a set, as FastAPI creates them, or a
    list, as an endpoint-had instruction leaves them. *)
Definition has_method_set (r : APIRoute) : Prop := ∃ s, methods r = SetOfMethods s.
Definition has_method_list (r : APIRoute) : Prop := ∃ l, methods r = ListOfMethods l.

#[global] Instance has_method_set_dec r : Decision (has_method_set r).
Proof.
  unfold has_method_set. destruct (methods r) as [s|l].
  - left. by exists s.
  - right. by intros [s [=]].
Defined.

#[global] Instance has_method_list_dec r : Decision (has_method_list r).
Proof.
  unfold has_method_list. destruct (methods r) as [s|l].
  - right. by intros [l [=]].
  - left. by exists l.
Defined.

(** The union of the methods of the routes. *)
Definition method_union_of (rs : list APIRoute) : gset string :=
  fold_left (λ method_union r, method_union ∪ set_ (methods r)) rs ∅.

(** What an endpoint-didn't-exist instruction does to a route it found. *)
Definition mark_deleted (r : APIRoute) : APIRoute :=
  set_tags (tags r ++ [_DELETED_ROUTE_TAG]) r.

(** The routes of a collection after an endpoint-didn't-exist instruction
    went through. *)
Definition routes_after_delete (ins : instruction) (routes : list BaseRoute)
    : list BaseRoute :=
  (λ route,
     match route_matches (endpoint_path ins) (endpoint_methods ins)
             (endpoint_func_name ins) false route with
     | Some r => IsAPIRoute (mark_deleted r)
     | None => route
     end) <$> routes.

(** The instruction names attribute [fld] and the route already has the
    target value. *)
Definition redundant (attributes : EndpointAttributesPayload) (r : APIRoute)
    (fld : attr_field) : Prop :=
  ∃ v, attr_of_payload fld attributes = Some v ∧ getattr fld r = v.

(** Attribute [fld] of [r'] is what the instruction asks for, or what [r]
    had when the instruction leaves it unset. *)
Definition overwritten (attributes : EndpointAttributesPayload) (r r' : APIRoute)
    (fld : attr_field) : Prop :=
  match attr_of_payload fld attributes with
  | Some v => getattr fld r' = v
  | None => getattr fld r' = getattr fld r
  end.

(** The attributes of a list are attributes in the usual sense: reading
    after writing gives what was written, writing one attribute leaves the
    others alone, and [attr_eqb] decides equality. *)
Fixpoint independent (fields : list attr_field) : Prop :=
  match fields with
  | [] => True
  | f :: fs =>
      (∀ v r, getattr f (setattr f v r) = v)
      ∧ (∀ a b, attr_eqb f a b = true ↔ a = b)
      ∧ Forall (λ g, (∀ v r, getattr g (setattr f v r) = getattr g r)
                     ∧ (∀ v r, getattr f (setattr g v r) = getattr f r)) fs
      ∧ independent fs
  end.

(** The message template of the unmatched-methods error of each kind of
    instruction. *)
Definition unmatched_methods_error (k : instruction_kind)
    : gset string → string → string → RouterGenerationError :=
  match k with
  | EndpointDidntExistInstruction => DeletedDoesntExist
  | EndpointExistedInstruction => RestoredWasntDeleted
  | EndpointHadInstruction _ => ChangedDoesntExist
  end.

(** The routes an instruction reaches: the active matches for a deletion
    or a change, the deleted matches for a restoration. *)
Definition affected_routes (ins : instruction) (routes : list BaseRoute) : list APIRoute :=
  _get_routes routes (endpoint_path ins) (endpoint_methods ins) (endpoint_func_name ins)
    match kind ins with
    | EndpointExistedInstruction => true
    | _ => false
    end.

Definition unmatched_methods (ins : instruction) (routes : list BaseRoute) : gset string :=
  endpoint_methods ins ∖ method_union_of (affected_routes ins routes).

(** The errors of the kind branches themselves. *)
Definition structural_conflict (e : exn) : Prop :=
  match e with
  | Generation (AlreadyDeleted _ _ _ _)
  | Generation (AlreadyExisted _ _ _ _)
  | Generation (SeveralApplicableRoutes _ _ _ _)
  | Generation (SeveralNeverExistedRoutes _ _ _ _)
  | Generation (AttributeWasTheSame _ _ _ _) => True
  | _ => False
  end.

(** The [TypeError] of [|=]: a route of the collection has a list for
    its methods, which an endpoint-had instruction assigned. *)
Definition methods_type_error (routes : list BaseRoute) (e : exn) : Prop :=
  e = TypeError ∧ ∃ r, IsAPIRoute r ∈ routes ∧ has_method_list r.

(** The per-instruction-set validation as the specification words it:
    "after processing all instructions for a version change, compare the
    set of methods the instruction targeted against the set of methods
    actually affected".  All instructions are processed first, the
    comparisons follow. *)
Definition apply_version_change_as_specified (st : applier_state)
    (version_change : VersionChange) : result applier_state :=
  '(st', comparisons) ←
    foldlM
      (λ '(st, comparisons) ins,
         '(applied, st', err) ← process_instruction (vc_name version_change) st ins;
         Ok (st', comparisons
                  ++ [check_method_diff (vc_name version_change) ins applied err]))
      (st, []) (alter_endpoint_instructions version_change);
  _ ← foldlM (λ _ comparison, comparison) () comparisons;
  Ok st'.

(** The source file of a type lies in the directory tree next to the
    version directories, outside the template directory, and inside one of
    the version directories: the condition under which the validation of
    [_change_version_of_type] raises. *)
Definition outside_template_dir (self : _AnnotationTransformer) (source_file : string)
    : Prop :=
  startswith source_file (path_str (path_parent (template_version_dir self))) = true
  ∧ startswith source_file (path_str (template_version_dir self)) = false
  ∧ Exists (λ d, startswith source_file (path_str d) = true) (version_dirs self).

#[global] Instance outside_template_dir_dec self f : Decision (outside_template_dir self f).
Proof. unfold outside_template_dir. apply _. Defined.

(** The annotations that go through the cached function: everything but
    a dict, a list or a tuple. *)
Definition non_container (a : annotation) : Prop :=
  match a with
  | ADict _ | AList _ | ATuple _ => False
  | _ => True
  end.

(** Every entry of the cache of [s] is an entry of the cache of [s']. *)
Definition cache_extends (s s' : tstate) : Prop :=
  ∀ key v, cache_lookup key (cache s) = Some v → cache_lookup key (cache s') = Some v.

(** [later W self s s']: the transformer in state [s] reaches state [s']
    by rewriting annotations, any number of times. *)
Inductive later (W : World) (self : _AnnotationTransformer) : tstate → tstate → Prop :=
| later_now s : later W self s s
| later_rewrite s s1 s2 a D r :
    later W self s s1 →
    _change_version_of_annotations W self a D s1 = Ok (r, s2) →
    later W self s s2.

Fixpoint all_of {A} (P : A → Prop) (l : list A) : Prop :=
  match l with
  | [] => True
  | x :: l' => P x ∧ all_of P l'
  end.

(** An annotation in which neither a callable nor a dependency wrapper
    occurs: rewriting it creates no object with an identity of its own. *)
Fixpoint plain (a : annotation) : Prop :=
  match a with
  | ADict items => all_of (λ kv, plain kv.1 ∧ plain kv.2) items
  | AList items | ATuple items | AGenericAlias _ items | AUnionType items =>
      all_of plain items
  | ADepends _ _ _ | ACallable _ => False
  | AAny | ANewType _ | AType _ | AStr _ | AOther _ => True
  end.

Fixpoint mapM_result {A B} (f : A → result B) (l : list A) : result (list B) :=
  match l with
  | [] => Ok []
  | x :: l' => y ← f x; ys ← mapM_result f l'; Ok (y :: ys)
  end.

Fixpoint dict_comprehension_result (f : annotation → result annotation)
    (items acc : list (annotation * annotation)) : result (list (annotation * annotation)) :=
  match items with
  | [] => Ok acc
  | (k, v) :: items' =>
      k' ← f k; v' ← f v; dict_comprehension_result f items' (dict_set k' v' acc)
  end.

(** What the rewriter returns for a plain annotation, as a function of the
    annotation alone. *)
Fixpoint stateless_rewrite (W : World) (self : _AnnotationTransformer) (D : Path)
    (a : annotation) : result annotation :=
  match a with
  | ADict items =>
      items' ← dict_comprehension_result (stateless_rewrite W self D) items [];
      Ok (ADict items')
  | AList items => items' ← mapM_result (stateless_rewrite W self D) items; Ok (AList items')
  | ATuple items => items' ← mapM_result (stateless_rewrite W self D) items; Ok (ATuple items')
  | AGenericAlias origin args =>
      args' ← mapM_result (stateless_rewrite W self D) args; Ok (AGenericAlias origin args')
  | AUnionType args =>
      args' ← mapM_result (stateless_rewrite W self D) args;
      Ok (AGenericAlias typing_Union args')
  | AType c => _change_version_of_type W self c D
  | _ => Ok a
  end.

(** The cache holds, for plain annotations and directory [D], only what
    the rewriter computes for them. *)
Definition cache_sound (W : World) (self : _AnnotationTransformer) (D : Path)
    (s : tstate) : Prop :=
  ∀ k v, plain k → cache_lookup (k, D) (cache s) = Some v →
         stateless_rewrite W self D k = Ok v.

(** The modules of the version of [D] are laid out the way the version
    directories are generated.  A schema class that such a module has
    under some name is found again, under its own name, in the module of
    that version that corresponds to the module defining it; and when [D]
    is the directory of the newest version, whose modules hold the
    classes of the template directory, the source file of the class
    passes the validation. *)
Definition version_dir_consistent (W : World) (self : _AnnotationTransformer)
    (D : Path) : Prop :=
  ∀ module_from_old_version module name c,
    get_another_version_of_module W module_from_old_version D (version_dirs self)
    = Some module →
    module_getattr W module name = Some c →
    cls_is_schema c = true →
    (∀ module',
       get_another_version_of_module W (cls_module c) D (version_dirs self) = Some module' →
       module_getattr W module' (cls_name c) = Some c)
    ∧ (D = latest_version_dir self →
       ∀ source_file, cls_source_file c = Some source_file →
                      ¬ outside_template_dir self source_file).

(** Rewriting a type to [D] and rewriting the result to [D] again gives
    the same type. *)
Definition type_rewriting_idempotent (W : World) (self : _AnnotationTransformer)
    (D : Path) : Prop :=
  ∀ c c', _change_version_of_type W self c D = Ok (AType c') →
          _change_version_of_type W self c' D = Ok (AType c').

(** The property of the specification, at one annotation and one state:
    "rewrite(rewrite(a, D), D) == rewrite(a, D)". *)
Definition rewriting_idempotent_at (W : World) (self : _AnnotationTransformer)
    (a : annotation) (D : Path) (s : tstate) : Prop :=
  ∀ r1 s1, _change_version_of_annotations W self a D s = Ok (r1, s1) →
           ∃ s2, _change_version_of_annotations W self r1 D s1 = Ok (r1, s2).

(** A call of [f] on [a] only adds entries to the cache. *)
Definition only_extends_cache (f : annotation → M annotation) (a : annotation) : Prop :=
  ∀ s r s', f a s = Ok (r, s') → cache_extends s s'.

(** The stateful computation [m] does what the stateless [p] says, on
    every sound cache, and leaves a sound cache. *)
Definition agrees (W : World) (self : _AnnotationTransformer) (D : Path) {A}
    (m : M A) (p : result A) : Prop :=
  ∀ s, cache_sound W self D s →
    match p with
    | Ok r => ∃ s', m s = Ok (r, s') ∧ cache_sound W self D s'
    | Raise e => m s = Raise e
    end.

(** A fixed point of the stateless rewriter. *)
Definition rewrite_fixed_point (W : World) (self : _AnnotationTransformer) (D : Path)
    (a : annotation) : Prop :=
  plain a ∧ stateless_rewrite W self D a = Ok a.

(** A dict the rewriter leaves alone: fixed keys and values, no key
    twice. *)
Definition fixed_dict (W : World) (self : _AnnotationTransformer) (D : Path)
    (d : list (annotation * annotation)) : Prop :=
  Forall (λ kv, rewrite_fixed_point W self D kv.1 ∧ rewrite_fixed_point W self D kv.2) d
  ∧ NoDup d.*1.

(** All structural instructions of a bundle. *)
Definition instructions_of (versions : VersionBundle) : list (string * instruction) :=
  version ← versions;
  version_change ← version_changes version;
  (vc_name version_change,.) <$> alter_endpoint_instructions version_change.

(** An endpoint-existed instruction that names route [m]: its path, a
    superset of its methods and, if it gives one, its handler name. *)
Definition restorable_by (ins : instruction) (m : APIRoute) : Prop :=
  kind ins = EndpointExistedInstruction
  ∧ path m = endpoint_path ins
  ∧ set_ (methods m) ⊆ endpoint_methods ins
  ∧ (∀ n, endpoint_func_name ins = Some n → f_name (endpoint m) = n).

(** The state in which the first loop of [transform] starts. *)
Definition initial_loop_state (self : _EndpointTransformer) : loop_state :=
  mk_loop_state (deepcopy (parent_router self)) [] ∅ [] (routes_that_never_existed self).

(** The route with the hidden request and response parameter names filled
    in where its dependant had none, and nothing else changed. *)
Definition with_hidden_param_names (r : APIRoute) : APIRoute :=
  let d := dependant r in
  set_dependant
    (mk_Dependant
       (if truthy (request_param_name d) then request_param_name d
        else Some _CADWYN_REQUEST_PARAM_NAME)
       (if truthy (response_param_name d) then response_param_name d
        else Some _CADWYN_RESPONSE_PARAM_NAME)
       (body_params d) (dependant_dependencies d))
    r.

Definition with_hidden_param_names_in (route : BaseRoute) : BaseRoute :=
  match route with
  | IsAPIRoute r => IsAPIRoute (with_hidden_param_names r)
  | OtherRoute o => OtherRoute o
  end.

(** ** Further specifications *)

(** The key under which [_validate_no_repetitions_in_routes] files a
    route: the [_EndpointInfo] of its path and methods. *)
Definition _EndpointInfo (r : APIRoute) : string * gset string :=
  (path r, set_ (methods r)).

(** What an endpoint-existed instruction does to a route it found. *)
Definition unmark_deleted (r : APIRoute) : APIRoute :=
  set_tags (list_remove_first _DELETED_ROUTE_TAG (tags r)) r.

(** The routes of a collection after an endpoint-existed instruction went
    through. *)
Definition routes_after_restore (ins : instruction) (routes : list BaseRoute)
    : list BaseRoute :=
  (λ route,
     match route_matches (endpoint_path ins) (endpoint_methods ins)
             (endpoint_func_name ins) true route with
     | Some r => IsAPIRoute (unmark_deleted r)
     | None => route
     end) <$> routes.

(** Two routes at the same position of two route lists correspond: both
    are API routes related by [same], or both are the same route of
    another kind. *)
Definition corresponds (same : APIRoute → APIRoute → Prop) (a b : BaseRoute) : Prop :=
  match a, b with
  | IsAPIRoute r, IsAPIRoute r' => same r r'
  | OtherRoute o, OtherRoute o' => o = o'
  | _, _ => False
  end.

(** The route has the handler of the other route, the same function
    object, and its identifier. *)
Definition same_endpoint (r r' : APIRoute) : Prop :=
  endpoint r' = endpoint r ∧ unique_id r' = unique_id r.

(** The two errors [_change_version_of_type] raises, each with its
    cause: the source-location error, for the target [latest_version_dir]
    and a schema class whose source file lies in a version directory
    outside the template directory; the [AttributeError] of
    [getattr(module, name)], for a schema class whose module in the target
    directory holds nothing under the name of the class. *)
Definition rewriter_error (W : World) (self : _AnnotationTransformer) (D : Path)
    (e : exn) : Prop :=
  (∃ c source_file,
     e = Generation (NotDefinedInTemplateDir c (template_version_dir self) source_file)
     ∧ D = latest_version_dir self
     ∧ cls_is_schema c = true ∧ cls_source_file c = Some source_file
     ∧ outside_template_dir self source_file)
  ∨ (∃ c module,
       e = AttributeError (ModuleObject module) (cls_name c)
       ∧ cls_is_schema c = true
       ∧ get_another_version_of_module W (cls_module c) D (version_dirs self)
         = Some module
       ∧ module_getattr W module (cls_name c) = None).

(** [r] has the shape a rewriting of [a] has, as far as the rewriter
    itself decides it: a dict for a dict, a list or a tuple with as many
    items, a dependency wrapper with the same caching flag, a callable
    with the same name, sync/async-ness and parameters of the same names
    and kinds that have a default where they had one.  What [typing] makes
    of the arguments of a generic alias or of a union, and what a version
    module holds under the name of a class, is not part of the shape. *)
Definition same_shape (a r : annotation) : Prop :=
  match a with
  | ADict _ => ∃ items', r = ADict items'
  | AList items => ∃ items', r = AList items' ∧ length items' = length items
  | ATuple items => ∃ items', r = ATuple items' ∧ length items' = length items
  | ADepends _ _ use_cache => ∃ oid dependency', r = ADepends oid dependency' use_cache
  | ACallable f =>
      ∃ f', r = ACallable f'
            ∧ f_name f' = f_name f ∧ is_coroutine f' = is_coroutine f
            ∧ p_name <$> f_params f' = p_name <$> f_params f
            ∧ p_kind <$> f_params f' = p_kind <$> f_params f
            ∧ Forall2 (λ old new, is_Some (p_default new) ↔ is_Some (p_default old))
                (f_params f) (f_params f')
  | _ => True
  end.

(** Every entry of the cache has the shape of its key. *)
Definition cache_keeps_shapes (s : tstate) : Prop :=
  ∀ a D r, cache_lookup (a, D) (cache s) = Some r → same_shape a r.

(** What migrating a route keeps of it, besides the state of the cache. *)
Definition migrated_from (route route' : APIRoute) : Prop :=
  path route' = path route ∧ path_format route' = path_format route
  ∧ methods route' = methods route ∧ tags route' = tags route
  ∧ status_code route' = status_code route ∧ summary route' = summary route
  ∧ deprecated route' = deprecated route ∧ unique_id route' = unique_id route
  ∧ f_name (endpoint route') = f_name (endpoint route)
  ∧ is_coroutine (endpoint route') = is_coroutine (endpoint route)
  ∧ length (dependencies route') = length (dependencies route)
  ∧ length (callbacks route') = length (callbacks route)
  ∧ (is_Some (response_model route') ↔ is_Some (response_model route))
  ∧ truthy (request_param_name (dependant route')) = true
  ∧ truthy (response_param_name (dependant route')) = true.

(** The errors of the checks and operations of generation: a
    [RouterGenerationError], the [AttributeError] of a version module, a
    [TypeError].  The errors of the bookkeeping of [transform] are not
    among them: the [IndexError] of a position that a snapshot does not
    have, the [AttributeError] of a route that is no [APIRoute], the
    internal error about the hidden parameter names. *)
Definition generation_error (e : exn) : Prop :=
  match e with
  | Generation _ | AttributeError (ModuleObject _) _ | TypeError => True
  | _ => False
  end.

(** What a route of a snapshot has in common with the route of the
    router given to the generator it stems from: the name and the
    sync/async-ness of its endpoint, and its identifier. *)
Definition tracked (r r' : APIRoute) : Prop :=
  f_name (endpoint r') = f_name (endpoint r)
  ∧ is_coroutine (endpoint r') = is_coroutine (endpoint r)
  ∧ unique_id r' = unique_id r.

(** A route as a snapshot records it: right after its migration, with the
    hidden parameters of its dependant named. *)
Definition recorded (r r' : APIRoute) : Prop :=
  tracked r r'
  ∧ truthy (request_param_name (dependant r')) = true
  ∧ truthy (response_param_name (dependant r')) = true.

(** What holds of the variables of the first loop of [transform] after
    the versions [processed]: every snapshot has the routes of the router
    given to the generator, position by position; there is one snapshot per
    version date; the directories of the versions exist. *)
Definition version_loop_invariant (W : World) (self : _EndpointTransformer)
    (processed : list Version) (ls : loop_state) (t : tstate) : Prop :=
  let base := routes (parent_router self) in
  cache_keeps_shapes t
  ∧ Forall2 (corresponds tracked) base (routes (ls_router ls))
  ∧ Forall (λ entry, Forall2 (corresponds recorded) base (routes (router entry.2)))
      (ls_router_infos ls)
  ∧ NoDup (ls_router_infos ls).*1
  ∧ (∀ d, d ∈ (ls_router_infos ls).*1 ↔ d ∈ value <$> processed)
  ∧ (NoDup (value <$> processed) → (ls_router_infos ls).*1 = value <$> processed)
  ∧ Forall (λ version,
              is_dir W (_get_version_dir_path W
                          (latest_schemas_module (annotation_transformer self))
                          (value version)) = true) processed.

(** A snapshot during the second loop of [transform], before position
    [k] is reached: it has the routes of [base], position by position, and
    from position [k] on they are as they were recorded. *)
Definition snapshot_from (base : list BaseRoute) (k : nat) (snapshot : list BaseRoute)
    : Prop :=
  Forall2 (corresponds (λ r r', unique_id r' = unique_id r)) base snapshot
  ∧ ∀ i r r', k ≤ i → base !! i = Some (IsAPIRoute r) →
              snapshot !! i = Some (IsAPIRoute r') → recorded r r'.

(** What holds of the variables of the second loop of [transform] after
    the positions [processed]. *)
Definition route_loop_invariant (self : _EndpointTransformer) (keys : list VersionDate)
    (processed : list nat) (acc : list BaseRoute * list (VersionDate * _RouterInfo))
    (t : tstate) : Prop :=
  let base := routes (parent_router self) in
  cache_keeps_shapes t
  ∧ Forall2 (corresponds same_endpoint) base acc.1
  ∧ acc.2.*1 = keys
  ∧ Forall (λ entry, snapshot_from base (length processed) (routes (router entry.2))) acc.2
  ∧ (acc.2 ≠ [] →
     ∀ i r, i < length processed → base !! i = Some (IsAPIRoute r) →
            is_coroutine (endpoint r) = true).

(** What the mapping is like that generation returns for a router, a
    bundle and a latest schemas module. *)
Definition generation_outcome (W : World) (router_ : APIRouter)
    (versions_ : VersionBundle) (latest_schemas_module : ModuleType)
    (mapping : list (VersionDate * APIRouter)) : Prop :=
  NoDup mapping.*1
  ∧ (∀ d, d ∈ mapping.*1 ↔ d ∈ value <$> versions_)
  ∧ (NoDup (value <$> versions_) → mapping.*1 = value <$> versions_)
  ∧ Forall (λ version,
              is_dir W (_get_version_dir_path W latest_schemas_module (value version))
              = true) versions_
  ∧ (versions_ ≠ [] →
     ∀ r, IsAPIRoute r ∈ routes router_ → is_coroutine (endpoint r) = true)
  ∧ Forall (λ entry,
              ∃ snapshot,
                Forall2 (corresponds (λ r r', unique_id r' = unique_id r))
                  (routes router_) snapshot
                ∧ routes entry.2 = strip_deleted snapshot) mapping.

(** The routes of a list that are no API routes (mounts, websocket
    routes and the like), in their order. *)
Definition other_routes (routes : list BaseRoute) : list nat :=
  omap (λ route, match route with OtherRoute o => Some o | IsAPIRoute _ => None end) routes.

(** * A small application

    The users example of the tutorial: schemas in [app/schemas/latest],
    versions 2021-01-01 and 2000-01-01, one route [GET /users]. *)

Definition two_digits (n : nat) : string :=
  if decide (n < 10) then "0" +:+ pretty n else pretty n.

Definition version_dir_name (version : VersionDate) : string :=
  let '(year, month, day) := version in
  "v" +:+ pretty year +:+ "_" +:+ two_digits month +:+ "_" +:+ two_digits day.

Definition schemas_dir : Path := ["app"; "schemas"].

(** The versioned modules of the application, as
    (package of the version, module below it). *)
Definition tutorial_module (module : string) : option string :=
  if decide (module = "app.schemas.latest.users") then Some "users"
  else if decide (module = "app.schemas.v2021_01_01.users") then Some "users"
  else if decide (module = "app.schemas.v2000_01_01.users") then Some "users"
  else None.

Definition tutorial_source_file (module : string) : option string :=
  if decide (module = "app.schemas.latest.users") then Some "/app/schemas/latest/users.py"
  else if decide (module = "app.schemas.v2021_01_01.users")
       then Some "/app/schemas/v2021_01_01/users.py"
  else if decide (module = "app.schemas.v2000_01_01.users")
       then Some "/app/schemas/v2000_01_01/users.py"
  else None.

(** The module that defines the classes a versioned module holds: the
    module of the newest version holds the classes of [latest], the
    modules of the older versions define their own. *)
Definition tutorial_defining_module (module : string) : string :=
  if decide (module = "app.schemas.v2021_01_01.users") then "app.schemas.latest.users"
  else module.

Definition no_dependant : Dependant := mk_Dependant None None [] [].

Definition tutorial_world : World :=
  mk_World
    (λ module new_version_dir _,
       below ← tutorial_module module;
       Some ("app.schemas." +:+ default "" (last new_version_dir) +:+ "." +:+ below))
    (λ module name,
       file ← tutorial_source_file (tutorial_defining_module module);
       Some (mk_cls (tutorial_defining_module module) name true (Some file)))
    (λ _, schemas_dir ++ ["latest"])
    (λ _ version, schemas_dir ++ [version_dir_name version])
    (λ _, true)
    (λ _ _, no_dependant)
    (λ _ _, None)
    (λ _ _, no_dependant)
    (λ _, None)
    (λ _ _ _ _ _ _ _ f,
       mk_func (1000 + f_oid f) (f_name f) true (f_annotations f) (f_params f) (f_return f))
    (λ route, 2000 + f_oid (endpoint route))
    (λ handler, 1000 + handler).

Definition latest_module : ModuleType := mk_ModuleType "app.schemas.latest" true.

Definition get_users : func := mk_func 1 "get_users" true [] [] None.

Definition users_route : APIRoute :=
  mk_APIRoute "/users" "/users" (SetOfMethods {["GET"]}) get_users [] None None []
    None None [] no_dependant None "get_users_users_get" 0.

Definition users_router : APIRouter := mk_APIRouter [IsAPIRoute users_route].

Definition delete_users : instruction :=
  mk_instruction "/users" {["GET"]} None EndpointDidntExistInstruction.

Definition users_didnt_exist : VersionChange :=
  mk_VersionChange "UsersDidntExist" [delete_users] [] [].

Definition v2021 : VersionDate := (2021, 1, 1).
Definition v2000 : VersionDate := (2000, 1, 1).

Definition users_bundle : VersionBundle :=
  [mk_Version v2021 [users_didnt_exist]; mk_Version v2000 []].

Definition tutorial_transformer : _AnnotationTransformer :=
  mk_AnnotationTransformer latest_module
    [schemas_dir ++ ["latest"]; schemas_dir ++ ["v2021_01_01"];
     schemas_dir ++ ["v2000_01_01"]]
    (schemas_dir ++ ["latest"]) (schemas_dir ++ ["v2021_01_01"]).

Definition v2000_dir : Path := schemas_dir ++ ["v2000_01_01"].

Definition users_transformer : _EndpointTransformer :=
  mk_EndpointTransformer users_router users_bundle tutorial_transformer [].

(** The same application with the route marked
    [only_exists_in_older_versions] and never restored. *)
Definition marked_users_route : APIRoute :=
  set_tags [_DELETED_ROUTE_TAG] users_route.

Definition marked_transformer : _EndpointTransformer :=
  mk_EndpointTransformer (mk_APIRouter [IsAPIRoute marked_users_route])
    [mk_Version v2021 []; mk_Version v2000 []] tutorial_transformer
    [marked_users_route].

(** [POST /users] answering 204, and an instruction that claims it had
    status code 204. *)
Definition create_user : func := mk_func 2 "create_user" true [] [] None.

Definition create_user_route : APIRoute :=
  mk_APIRoute "/users" "/users" (SetOfMethods {["POST"]}) create_user [] None
    (Some 204%Z) [] None None [] no_dependant None "create_user_users_post" 0.

Definition status_code_204 : EndpointAttributesPayload :=
  mk_EndpointAttributesPayload None None (Some (Some 204%Z)) None None None None None.

(** An instruction that says [POST /users] had the methods [["POST"]],
    and one that changes its status code afterwards. *)
Definition methods_post : EndpointAttributesPayload :=
  mk_EndpointAttributesPayload None None None None None None None (Some ["POST"]).

Definition status_code_201 : EndpointAttributesPayload :=
  mk_EndpointAttributesPayload None None (Some (Some 201%Z)) None None None None None.

Definition methods_were_post : VersionChange :=
  mk_VersionChange "MethodsWerePost"
    [mk_instruction "/users" {["POST"]} None (EndpointHadInstruction methods_post);
     mk_instruction "/users" {["POST"]} None (EndpointHadInstruction status_code_201)]
    [] [].

(** A version change whose first instruction reaches no route and whose
    second instruction deletes a route that is deleted already. *)
Definition change_missing : instruction :=
  mk_instruction "/missing" {["GET"]} None (EndpointHadInstruction status_code_204).

Definition two_conflicts : VersionChange :=
  mk_VersionChange "TwoConflicts" [change_missing; delete_users] [] [].

Definition users_deleted_state : applier_state :=
  mk_applier_state [IsAPIRoute marked_users_route] [].

Definition users_active_state : applier_state :=
  mk_applier_state [IsAPIRoute users_route] [].

(** Schema classes of the application. *)
Definition UserResource : cls :=
  mk_cls "app.schemas.latest.users" "UserResource" true (Some "/app/schemas/latest/users.py").

Definition UserResource_v2000 : cls :=
  mk_cls "app.schemas.v2000_01_01.users" "UserResource" true
    (Some "/app/schemas/v2000_01_01/users.py").

(** A class that is no schema, used as a dependency. *)
Definition Paginator : cls :=
  mk_cls "app.dependencies" "Paginator" false (Some "/app/dependencies.py").

(** A schema class defined next to the version directories, in none of
    them. *)
Definition CommonSchema : cls :=
  mk_cls "app.schemas.common" "CommonSchema" true (Some "/app/schemas/common.py").

(** The version change of 2021-01-01 with the deletion written twice. *)
Definition users_didnt_exist_twice : VersionChange :=
  mk_VersionChange "UsersDidntExistTwice" [delete_users; delete_users] [] [].

Definition delete_twice_transformer : _EndpointTransformer :=
  mk_EndpointTransformer users_router
    [mk_Version v2021 [users_didnt_exist_twice]; mk_Version v2000 []]
    tutorial_transformer [].

(** An application with [POST /users] and the redundant instruction. *)
Definition status_code_was_204 : VersionChange :=
  mk_VersionChange "StatusCodeWas204"
    [mk_instruction "/users" {["POST"]} None (EndpointHadInstruction status_code_204)]
    [] [].

Definition status_code_transformer : _EndpointTransformer :=
  mk_EndpointTransformer (mk_APIRouter [IsAPIRoute create_user_route])
    [mk_Version v2021 [status_code_was_204]; mk_Version v2000 []]
    tutorial_transformer [].

(** What [transform] returns for the application: the mapping, the
    transformer it leaves behind and the state of the rewriter. *)
Definition users_outcome
    : list (VersionDate * APIRouter) * _EndpointTransformer * tstate :=
  Eval vm_compute in
    match transform tutorial_world users_transformer (new_tstate 10) with
    | Ok outcome => outcome
    | Raise _ => ([], users_transformer, new_tstate 10)
    end.

(** Rewriting [UserResource] to the directory of version 2000-01-01 with
    a fresh transformer, and rewriting the handler afterwards. *)
Definition UserResource_rewritten : annotation * tstate :=
  Eval vm_compute in
    match _change_version_of_annotations tutorial_world tutorial_transformer
            (AType UserResource) v2000_dir (new_tstate 10) with
    | Ok outcome => outcome
    | Raise _ => (AAny, new_tstate 10)
    end.

Definition get_users_rewritten_next : annotation * tstate :=
  Eval vm_compute in
    match _change_version_of_annotations tutorial_world tutorial_transformer
            (ACallable get_users) v2000_dir UserResource_rewritten.2 with
    | Ok outcome => outcome
    | Raise _ => (AAny, new_tstate 10)
    end.

(** The validation as claim and specification word it, for one target
    directory: a schema type whose source file is in the directory tree
    shared by the version modules but not in the template directory is
    refused. *)
Definition validates_as_claimed (W : World) (self : _AnnotationTransformer)
    (target : Path) : Prop :=
  ∀ c source_file,
    cls_is_schema c = true →
    cls_source_file c = Some source_file →
    startswith source_file (path_str (path_parent (template_version_dir self))) = true →
    startswith source_file (path_str (template_version_dir self)) = false →
    ∃ e, _change_version_of_type W self c target = Raise (Generation e).

(** The instruction that restores [GET /users]. *)
Definition restore_users : instruction :=
  mk_instruction "/users" {["GET"]} None EndpointExistedInstruction.

(** A second handler of [GET /users], deleted as well. *)
Definition get_users_legacy : func := mk_func 3 "get_users_legacy" true [] [] None.

Definition two_deleted_state : applier_state :=
  mk_applier_state
    [IsAPIRoute marked_users_route;
     IsAPIRoute (set_endpoint get_users_legacy marked_users_route)] [].

(** The version of 2021-01-01 of the application. *)
Definition version_2021 : Version := mk_Version v2021 [users_didnt_exist].

(** [GET /users] migrated to the directory of version 2000-01-01 by a
    fresh transformer. *)
Definition users_route_migrated : APIRoute * tstate :=
  Eval vm_compute in
    match migrate_route_to_version tutorial_world tutorial_transformer users_route
            v2000_dir false (new_tstate 10) with
    | Ok outcome => outcome
    | Raise _ => (users_route, new_tstate 10)
    end.

(** * Theorems *)

(** ** The route locator *)

Lemma fold_left_collect {A B} (f : A → option B) (l : list A) (acc : list B) :
  fold_left (λ found x, match f x with Some r => found ++ [r] | None => found end) l acc
  = acc ++ omap f l.
Proof.
  revert acc. induction l as [|x l IH]; intros acc; simpl.
  - by rewrite app_nil_r.
  - rewrite IH. destruct (f x); simpl; [|done]. by rewrite <- app_assoc.
Qed.

Lemma _get_routes_omap routes p ms n d :
  _get_routes routes p ms n d = omap (route_matches p ms n d) routes.
Proof. unfold _get_routes. by rewrite fold_left_collect. Qed.

Lemma route_matches_Some p ms n d route r :
  route_matches p ms n d route = Some r ↔ route = IsAPIRoute r ∧ locator_match p ms n d r.
Proof.
  unfold route_matches, locator_match, name_matches, is_deleted_route.
  destruct route as [r0|o]; [|split; [done|by intros [? _]]].
  split.
  - case_match eqn:Hc; [|done]. intros [= <-].
    rewrite !andb_true_iff, !bool_decide_eq_true in Hc.
    destruct Hc as [[[Hp Hm] Hn] Hd]. split_and!; try done.
    + rewrite <- Hd. by rewrite bool_decide_eq_true.
    + intros n0 ->. by apply bool_decide_eq_true in Hn.
  - intros [[= <-] (Hp & Hm & Hd & Hn)].
    rewrite (proj2 (andb_true_iff _ _)); [done|]. split; [|].
    + rewrite !andb_true_iff, !bool_decide_eq_true. split_and!; try done.
      destruct n as [n0|]; [|done]. apply bool_decide_eq_true. by apply Hn.
    + apply bool_decide_eq_true. destruct d.
      * apply bool_decide_eq_true. by apply Hd.
      * apply bool_decide_eq_false. intros Hin. by apply Hd in Hin.
Qed.

Lemma elem_of__get_routes routes p ms n d r :
  r ∈ _get_routes routes p ms n d ↔ IsAPIRoute r ∈ routes ∧ locator_match p ms n d r.
Proof.
  rewrite _get_routes_omap, list_elem_of_omap. split.
  - intros (route & Hin & Hm). apply route_matches_Some in Hm as [-> Hm]. done.
  - intros [Hin Hm]. exists (IsAPIRoute r). split; [done|].
    by apply route_matches_Some.
Qed.

(** C2: the locator returns exactly the API routes of the collection that
    match the query (path equal, methods a subset of the queried methods,
    deleted-marker state as requested, handler name equal when one is
    given): every match is returned, in the order of the collection and as
    often as it occurs, and the function never fails. *)
Theorem get_routes_returns_exactly_the_matches
    (routes : list BaseRoute) (endpoint_path : string) (endpoint_methods : gset string)
    (endpoint_func_name : option string) (is_deleted : bool) :
  (∀ r, r ∈ _get_routes routes endpoint_path endpoint_methods endpoint_func_name is_deleted
        ↔ IsAPIRoute r ∈ routes
          ∧ locator_match endpoint_path endpoint_methods endpoint_func_name is_deleted r)
  ∧ _get_routes routes endpoint_path endpoint_methods endpoint_func_name is_deleted
    = filter (locator_match endpoint_path endpoint_methods endpoint_func_name is_deleted)
        (api_routes routes).
Proof.
  split; [intros r; apply elem_of__get_routes|].
  rewrite _get_routes_omap. unfold api_routes.
  induction routes as [|route routes IH]; [done|].
  destruct route as [r|o]; cbn [omap list_omap]; [|exact IH].
  rewrite filter_cons, <- IH.
  destruct (decide _) as [Hm|Hm].
  - assert (route_matches endpoint_path endpoint_methods endpoint_func_name is_deleted
              (IsAPIRoute r) = Some r) as -> by (by apply route_matches_Some).
    done.
  - destruct (route_matches _ _ _ _ (IsAPIRoute r)) as [r'|] eqn:Hr; [|done].
    apply route_matches_Some in Hr as [[= <-] Hr]. done.
Qed.

(** ** References into the route list *)

Lemma fold_left_collect_refs (h : BaseRoute → option APIRoute)
    (l : list (nat * BaseRoute)) (acc : list (nat * APIRoute)) :
  fold_left (λ found '(i, route),
               match h route with Some r => found ++ [(i, r)] | None => found end) l acc
  = acc ++ omap (λ '(i, route), (i,.) <$> h route) l.
Proof.
  revert acc. induction l as [|[i x] l IH]; intros acc; simpl.
  - by rewrite app_nil_r.
  - rewrite IH. destruct (h x); simpl; [|done]. by rewrite <- app_assoc.
Qed.

Lemma _get_routes_refs_omap routes p ms n d :
  _get_routes_refs routes p ms n d
  = omap (λ '(i, route), (i,.) <$> route_matches p ms n d route) (imap pair routes).
Proof. unfold _get_routes_refs. by rewrite fold_left_collect_refs. Qed.

Lemma refs_omap_offset (h : BaseRoute → option APIRoute) (k : nat) (l : list BaseRoute) :
  omap (λ '(i, route), (i,.) <$> h route) (imap (λ i x, (k + i, x)) l)
  = match l with
    | [] => []
    | x :: l' =>
        match h x with Some r => [(k, r)] | None => [] end
        ++ omap (λ '(i, route), (i,.) <$> h route) (imap (λ i x, (S k + i, x)) l')
    end.
Proof.
  destruct l as [|x l]; [done|]. cbn [imap omap list_omap].
  rewrite Nat.add_0_r.
  replace (imap ((λ i x0, (k + i, x0)) ∘ S) l) with (imap (λ i x0, (S k + i, x0)) l).
  2:{ apply imap_ext. intros i y _. simpl. f_equal. lia. }
  destruct (h x); done.
Qed.

Lemma _get_routes_refs_values routes p ms n d :
  (_get_routes_refs routes p ms n d).*2 = _get_routes routes p ms n d.
Proof.
  rewrite _get_routes_refs_omap, _get_routes_omap.
  change (imap pair routes) with (imap (λ i x, (0 + i, x)) routes).
  generalize 0. induction routes as [|x l IH]; intros k; [done|].
  rewrite refs_omap_offset, fmap_app, IH. cbn [omap list_omap].
  destruct (route_matches p ms n d x); done.
Qed.

Lemma store_through_refs_offset (g : APIRoute → APIRoute)
    (h : BaseRoute → option APIRoute) (l pre : list BaseRoute) (k : nat) :
  length pre = k →
  fold_left (λ routes '(i, r), store i (g r) routes)
    (omap (λ '(i, route), (i,.) <$> h route) (imap (λ i x, (k + i, x)) l))
    (pre ++ l)
  = pre ++ ((λ route, match h route with
                      | Some r => IsAPIRoute (g r)
                      | None => route
                      end) <$> l).
Proof.
  revert pre k. induction l as [|x l IH]; intros pre k Hlen; [done|].
  rewrite refs_omap_offset, fold_left_app.
  replace (fold_left _ (match h x with Some r => [(k, r)] | None => [] end)
             (pre ++ x :: l))
    with ((pre ++ [match h x with Some r => IsAPIRoute (g r) | None => x end]) ++ l).
  - rewrite IH by (rewrite length_app; simpl; lia).
    by rewrite fmap_cons, <- app_assoc.
  - destruct (h x) as [r|]; simpl.
    + unfold store. rewrite <- app_assoc. simpl. subst k.
      rewrite insert_app_r_alt; [|done].
      by rewrite Nat.sub_diag.
    + by rewrite <- app_assoc.
Qed.

(** Writing [g r] through every reference [(i, r)] found by a query
    rewrites exactly the matching routes, in place. *)
Lemma store_through_refs (g : APIRoute → APIRoute) routes p ms n d :
  fold_left (λ routes '(i, r), store i (g r) routes)
    (_get_routes_refs routes p ms n d) routes
  = (λ route, match route_matches p ms n d route with
              | Some r => IsAPIRoute (g r)
              | None => route
              end) <$> routes.
Proof.
  rewrite _get_routes_refs_omap.
  exact (store_through_refs_offset g (route_matches p ms n d) routes [] 0 eq_refl).
Qed.

(** ** Endpoint-didn't-exist instructions *)

Lemma set_ior_set acc r :
  has_method_set r → set_ior acc (methods r) = Ok (acc ∪ set_ (methods r)).
Proof. intros [s ->]. done. Qed.

Lemma set_ior_list acc r : ¬ has_method_set r → set_ior acc (methods r) = Raise TypeError.
Proof.
  unfold has_method_set. destruct (methods r) as [s|l]; [|done].
  intros H. exfalso. apply H. by exists s.
Qed.

Lemma not_has_method_set r : ¬ has_method_set r ↔ has_method_list r.
Proof.
  unfold has_method_set, has_method_list. destruct (methods r) as [s|l]; split.
  - intros H. exfalso. apply H. by exists s.
  - by intros [l [=]].
  - intros _. by exists l.
  - by intros _ [s [=]].
Qed.

Lemma not_Forall_has_method_set rs :
  ¬ Forall has_method_set rs ↔ Exists has_method_list rs.
Proof.
  split.
  - intros H. apply not_Forall_Exists in H; [|apply _].
    eapply Exists_impl; [done|]. intros r Hr. by apply not_has_method_set.
  - intros Hex Hall. apply Exists_exists in Hex as (r & Hin & Hl).
    rewrite Forall_forall in Hall. apply not_has_method_set in Hl. by apply Hl, Hall.
Qed.

(** The loop [method_union |= route.methods] goes through when the methods
    of every route are a set; a list ends it with a [TypeError]. *)
Lemma set_ior_loop (rs : list APIRoute) (acc : gset string) :
  foldlM (λ mu r, set_ior mu (methods r)) acc rs
  = if decide (Forall has_method_set rs)
    then Ok (fold_left (λ mu r, mu ∪ set_ (methods r)) rs acc)
    else Raise TypeError.
Proof.
  revert acc. induction rs as [|r rs IH]; intros acc; cbn [foldlM fold_left].
  - by rewrite decide_True by apply Forall_nil_2.
  - destruct (decide (has_method_set r)) as [Hr|Hr].
    + rewrite set_ior_set by done. rewrite IH.
      destruct (decide (Forall has_method_set rs)) as [Hrs|Hrs].
      * by rewrite decide_True by (by apply Forall_cons_2).
      * rewrite decide_False; [done|]. intros H. by apply Forall_cons in H as [_ ?].
    + rewrite set_ior_list by done.
      rewrite decide_False; [done|]. intros H. by apply Forall_cons in H as [? _].
Qed.

Lemma method_union_outcome rs :
  method_union rs
  = if decide (Forall has_method_set rs) then Ok (method_union_of rs) else Raise TypeError.
Proof. apply set_ior_loop. Qed.

Lemma delete_loop routes refs :
  foldlM
    (λ '(applied, routes) '(i, original_route),
       applied ← set_ior applied (methods original_route);
       Ok (applied,
           store i (set_tags (tags original_route ++ [_DELETED_ROUTE_TAG]) original_route)
             routes))
    (∅, routes) refs
  = if decide (Forall has_method_set refs.*2)
    then Ok (method_union_of refs.*2,
             fold_left (λ routes '(i, r), store i (mark_deleted r) routes) refs routes)
    else Raise TypeError.
Proof.
  unfold method_union_of.
  generalize (∅ : gset string). revert routes.
  induction refs as [|[i r] refs IH]; intros routes acc;
    cbn [foldlM fold_left fmap list_fmap snd].
  - by rewrite decide_True by apply Forall_nil_2.
  - destruct (decide (has_method_set r)) as [Hr|Hr].
    + rewrite set_ior_set by done. cbn [mbind result_bind]. rewrite IH.
      destruct (decide (Forall has_method_set refs.*2)) as [Hrs|Hrs].
      * by rewrite decide_True by (by apply Forall_cons_2).
      * rewrite decide_False; [done|]. intros H. by apply Forall_cons in H as [_ ?].
    + rewrite set_ior_list by done. cbn [mbind result_bind].
      rewrite decide_False; [done|]. intros H. by apply Forall_cons in H as [? _].
Qed.

(** An endpoint-didn't-exist instruction that finds no deleted match. *)
Lemma apply_didnt_exist vc st ins :
  kind ins = EndpointDidntExistInstruction →
  _get_routes (st_routes st) (endpoint_path ins) (endpoint_methods ins)
    (endpoint_func_name ins) true = [] →
  apply_instruction vc st ins
  = let active :=
      _get_routes (st_routes st) (endpoint_path ins) (endpoint_methods ins)
        (endpoint_func_name ins) false in
    let method_diff := endpoint_methods ins ∖ method_union_of active in
    if decide (Forall has_method_set active) then
      if bool_decide (method_diff ≠ ∅) then
        Raise (Generation (DeletedDoesntExist method_diff (endpoint_path ins) vc))
      else Ok (mk_applier_state (routes_after_delete ins (st_routes st))
                 (st_never_existed st))
    else Raise TypeError.
Proof.
  intros Hk Hd. unfold apply_instruction, process_instruction. rewrite Hk, Hd.
  rewrite bool_decide_eq_false_2 by (intros H; by apply H).
  rewrite delete_loop, _get_routes_refs_values. simpl.
  destruct (decide _); [|done]. simpl.
  rewrite store_through_refs. unfold check_method_diff. by case_bool_decide.
Qed.

(** The deleted matches of an instruction after it deleted its active
    matches, when there was no deleted match before: the active matches,
    marked. *)
Lemma deleted_after_delete ins routes r' :
  _get_routes routes (endpoint_path ins) (endpoint_methods ins)
    (endpoint_func_name ins) true = [] →
  r' ∈ _get_routes (routes_after_delete ins routes) (endpoint_path ins)
         (endpoint_methods ins) (endpoint_func_name ins) true →
  ∃ r, r' = mark_deleted r
       ∧ r ∈ _get_routes routes (endpoint_path ins) (endpoint_methods ins)
               (endpoint_func_name ins) false.
Proof.
  intros Hnil Hr'. apply elem_of__get_routes in Hr' as [Hin Hm].
  unfold routes_after_delete in Hin. apply list_elem_of_fmap in Hin as (route & Heq & Hin).
  destruct (route_matches _ _ _ false route) as [r|] eqn:Hr.
  - injection Heq as ->. exists r. split; [done|].
    apply route_matches_Some in Hr as [-> Hr]. by apply elem_of__get_routes.
  - subst route. exfalso.
    assert (r' ∈ _get_routes routes (endpoint_path ins) (endpoint_methods ins)
                   (endpoint_func_name ins) true) as H
      by (by apply elem_of__get_routes).
    rewrite Hnil in H. by apply elem_of_nil in H.
Qed.

Lemma mark_deleted_fields r :
  path (mark_deleted r) = path r ∧ methods (mark_deleted r) = methods r
  ∧ endpoint (mark_deleted r) = endpoint r
  ∧ tags (mark_deleted r) = tags r ++ [_DELETED_ROUTE_TAG].
Proof. by destruct r. Qed.

Lemma mark_deleted_matches p ms n r :
  locator_match p ms n false r → locator_match p ms n true (mark_deleted r).
Proof.
  destruct (mark_deleted_fields r) as (Hp & Hm & He & Ht).
  unfold locator_match. rewrite Hp, Hm, He, Ht.
  intros (? & ? & _ & ?). split_and!; try done.
  split; [done|]. intros _. apply elem_of_app. right. apply list_elem_of_singleton. done.
Qed.

(** C3: an endpoint-didn't-exist instruction that matches an already
    deleted route raises the double-deletion error, which carries the
    methods and handler names of the conflicting routes, the path and the
    name of the version change (where an endpoint-had instruction has
    replaced the methods of such a route by a list, the union of the
    methods for the message fails first, with a [TypeError]); in
    particular the same instruction applied a second time raises the
    double-deletion error, naming every route the first one deleted; and
    an instruction whose handler name differs from the name of every
    deleted route does not raise it.  On the small application, a version
    change that deletes [GET /users] twice makes the whole generation fail
    with that error. *)
Theorem didnt_exist_on_deleted_route_raises :
  (∀ (version_change : string) (st : applier_state) (ins : instruction),
     kind ins = EndpointDidntExistInstruction →
     let deleted_in st :=
       _get_routes (st_routes st) (endpoint_path ins) (endpoint_methods ins)
         (endpoint_func_name ins) true in
     let double_deletion st :=
       Raise (Generation (AlreadyDeleted (method_union_of (deleted_in st))
                (endpoint_path ins) version_change
                ((λ r, f_name (endpoint r)) <$> deleted_in st))) in
     (deleted_in st ≠ [] →
      apply_instruction version_change st ins
      = if decide (Forall has_method_set (deleted_in st)) then double_deletion st
        else Raise TypeError)
     ∧ (∀ st' r,
          apply_instruction version_change st ins = Ok st' →
          r ∈ _get_routes (st_routes st) (endpoint_path ins) (endpoint_methods ins)
                (endpoint_func_name ins) false →
          apply_instruction version_change st' ins = double_deletion st'
          ∧ f_name (endpoint r) ∈ (λ r, f_name (endpoint r)) <$> deleted_in st')
     ∧ (∀ n,
          endpoint_func_name ins = Some n →
          (∀ r, IsAPIRoute r ∈ st_routes st → _DELETED_ROUTE_TAG ∈ tags r →
                f_name (endpoint r) ≠ n) →
          ∀ mu p vc names,
            apply_instruction version_change st ins
            ≠ Raise (Generation (AlreadyDeleted mu p vc names))))
  ∧ transform tutorial_world delete_twice_transformer (new_tstate 10)
    = Raise (Generation (AlreadyDeleted {["GET"]} "/users" "UsersDidntExistTwice"
               ["get_users"])).
Proof.
  split; [|by vm_compute].
  intros version_change st ins Hk deleted_in double_deletion. split_and!.
  - intros Hne. unfold apply_instruction, process_instruction. rewrite Hk.
    fold (deleted_in st). rewrite bool_decide_eq_true_2 by done.
    rewrite method_union_outcome. by destruct (decide _).
  - intros st' r Hok Hr.
    assert (deleted_in st = []) as Hnil.
    { destruct (deleted_in st) eqn:Hd; [done|].
      unfold apply_instruction, process_instruction in Hok.
      rewrite Hk in Hok. fold (deleted_in st) in Hok.
      rewrite Hd in Hok. rewrite bool_decide_eq_true_2 in Hok by done.
      rewrite method_union_outcome in Hok. by destruct (decide _). }
    rewrite apply_didnt_exist in Hok by done. simpl in Hok.
    destruct (decide _) as [Hsets|]; [|done].
    case_bool_decide; [done|]. injection Hok as <-.
    assert (mark_deleted r ∈ deleted_in (mk_applier_state
              (routes_after_delete ins (st_routes st)) (st_never_existed st))) as Hin.
    { unfold deleted_in. simpl. apply elem_of__get_routes in Hr as [Hin Hm].
      apply elem_of__get_routes. split; [|by apply mark_deleted_matches].
      unfold routes_after_delete. apply list_elem_of_fmap.
      exists (IsAPIRoute r). split; [|done].
      by rewrite (proj2 (route_matches_Some _ _ _ _ _ _) (conj eq_refl Hm)). }
    split.
    + unfold apply_instruction, process_instruction. rewrite Hk.
      fold (deleted_in (mk_applier_state (routes_after_delete ins (st_routes st))
                          (st_never_existed st))).
      rewrite bool_decide_eq_true_2.
      2:{ intros Heq. rewrite Heq in Hin. by apply elem_of_nil in Hin. }
      rewrite method_union_outcome, decide_True; [done|].
      apply Forall_forall. intros r' Hr'. unfold deleted_in in Hr'. simpl in Hr'.
      apply deleted_after_delete in Hr' as (r0 & -> & Hr0); [|done].
      rewrite Forall_forall in Hsets. destruct (Hsets r0 Hr0) as [ms Hms].
      exists ms. by destruct (mark_deleted_fields r0) as (_ & -> & _).
    + apply list_elem_of_fmap. exists (mark_deleted r). split; [|done].
      by destruct (mark_deleted_fields r) as (_ & _ & -> & _).
  - intros n Hn Hnames mu p vc names.
    assert (deleted_in st = []) as Hnil.
    { destruct (deleted_in st) as [|r l] eqn:Hd; [done|]. exfalso.
      assert (r ∈ deleted_in st) as Hr by (rewrite Hd; left).
      apply elem_of__get_routes in Hr as [Hin (_ & _ & Hdel & Hname)].
      apply (Hnames r Hin); [by apply Hdel|]. by apply Hname. }
    rewrite apply_didnt_exist by done. simpl.
    destruct (decide _); [|done]. case_bool_decide; congruence.
Qed.

(** ** Endpoint-had instructions *)

Lemma foldlM_app {S B} (body : S → B → result S) (s : S) (l1 l2 : list B) :
  foldlM body s (l1 ++ l2)
  = match foldlM body s l1 with
    | Ok s' => foldlM body s' l2
    | Raise e => Raise e
    end.
Proof.
  revert s. induction l1 as [|x l1 IH]; intros s; simpl; [done|].
  destruct (body s x); [apply IH|done].
Qed.

Lemma py_eq_true {A} `{EqDecision A} (a b : A) : py_eq a b = true ↔ a = b.
Proof. unfold py_eq. apply bool_decide_eq_true. Qed.

Lemma dataclass_fields_independent : independent __dataclass_fields__.
Proof.
  simpl. repeat split; intros; try (by apply py_eq_true); try (by apply py_eq_true).
  all: repeat (first [apply Forall_nil_2 | apply Forall_cons_2; [split|]]).
  all: intros; try match goal with r : APIRoute |- _ => by destruct r end.
Qed.

Section had_instruction.
Context (version_change : string) (attributes : EndpointAttributesPayload).

Lemma apply_attr_redundant r fld :
  (∀ a b, attr_eqb fld a b = true ↔ a = b) →
  redundant attributes r fld →
  apply_attr version_change attributes r fld
  = Raise (Generation (AttributeWasTheSame (attr_name fld) (methods r) (path r)
             version_change)).
Proof.
  intros Heq (v & Hv & Hg). unfold apply_attr. rewrite Hv.
  by rewrite (proj2 (Heq _ _) Hg).
Qed.

Lemma apply_attr_not_redundant r fld :
  (∀ a b, attr_eqb fld a b = true ↔ a = b) →
  ¬ redundant attributes r fld →
  apply_attr version_change attributes r fld
  = Ok (match attr_of_payload fld attributes with
        | Some v => setattr fld v r
        | None => r
        end).
Proof.
  intros Heq Hn. unfold apply_attr.
  destruct (attr_of_payload fld attributes) as [v|] eqn:Hv; [|done].
  destruct (attr_eqb fld (getattr fld r) v) eqn:He; [|done].
  exfalso. apply Hn. exists v. split; [done|]. by apply Heq.
Qed.

(** Writing attribute [f] changes neither whether a later attribute is
    redundant nor what it holds. *)
Lemma redundant_after_set f g v r :
  (∀ v r, getattr g (setattr f v r) = getattr g r) →
  redundant attributes (setattr f v r) g ↔ redundant attributes r g.
Proof. intros H. unfold redundant. by setoid_rewrite H. Qed.

Lemma Exists_redundant_after_set f fs v r :
  Forall (λ g, (∀ v r, getattr g (setattr f v r) = getattr g r)
               ∧ (∀ v r, getattr f (setattr g v r) = getattr f r)) fs →
  Exists (redundant attributes (setattr f v r)) fs ↔ Exists (redundant attributes r) fs.
Proof.
  intros Hall. rewrite !Exists_exists. rewrite Forall_forall in Hall.
  split; intros (g & Hin & Hr); exists g; (split; [done|]).
  - eapply redundant_after_set; [|done]. by apply Hall.
  - eapply redundant_after_set; [|done]. by apply Hall.
Qed.

Lemma had_some_redundant fields r :
  independent fields →
  Exists (redundant attributes r) fields →
  ∃ fld ms p,
    fld ∈ fields
    ∧ _apply_endpoint_had_instruction_on fields version_change attributes r
      = Raise (Generation (AttributeWasTheSame (attr_name fld) ms p version_change)).
Proof.
  revert r. induction fields as [|f fs IH]; intros r Hind Hex.
  - by apply Exists_nil in Hex.
  - destruct Hind as (Hget & Heq & Hothers & Hind).
    unfold _apply_endpoint_had_instruction_on. simpl. unfold apply_attr at 1.
    destruct (attr_of_payload f attributes) as [v|] eqn:Hv.
    + destruct (attr_eqb f (getattr f r) v) eqn:He.
      * exists f, (methods r), (path r). split; [left|done].
      * apply Exists_cons in Hex as [(v' & Hv' & Hg)|Hex].
        { rewrite Hv in Hv'. injection Hv' as <-.
          apply Heq in Hg. congruence. }
        apply (Exists_redundant_after_set f fs v r Hothers) in Hex.
        destruct (IH _ Hind Hex) as (fld & ms & p & Hin & Hr).
        exists fld, ms, p. split; [by right|done].
    + apply Exists_cons in Hex as [(v' & Hv' & _)|Hex]; [congruence|].
      destruct (IH _ Hind Hex) as (fld & ms & p & Hin & Hr).
      exists fld, ms, p. split; [by right|done].
Qed.

Lemma overwritten_after_set f g v r r' :
  (∀ v r, getattr g (setattr f v r) = getattr g r) →
  overwritten attributes (setattr f v r) r' g → overwritten attributes r r' g.
Proof. intros H. unfold overwritten. by rewrite H. Qed.

Lemma had_preserves (P : APIRoute → Prop) fields r r' :
  (∀ fld v r, fld ∈ fields → P r → P (setattr fld v r)) →
  _apply_endpoint_had_instruction_on fields version_change attributes r = Ok r' →
  P r → P r'.
Proof.
  revert r. induction fields as [|f fs IH]; intros r Hset Hok HP.
  - by injection Hok as <-.
  - unfold _apply_endpoint_had_instruction_on in Hok. simpl in Hok.
    destruct (apply_attr _ _ r f) as [r1|] eqn:Ha; [|done].
    apply (IH r1); [intros; apply Hset; [by right|done]|done|].
    unfold apply_attr in Ha. destruct (attr_of_payload f attributes) as [v|].
    + destruct (attr_eqb _ _ _); [done|]. injection Ha as <-.
      apply Hset; [left|done].
    + by injection Ha as <-.
Qed.

(** An instruction that goes through has overwritten what it names. *)
Lemma had_some_overwritten fields r r' :
  independent fields →
  _apply_endpoint_had_instruction_on fields version_change attributes r = Ok r' →
  Forall (overwritten attributes r r') fields.
Proof.
  revert r. induction fields as [|f fs IH]; intros r Hind Hok; [apply Forall_nil_2|].
  destruct Hind as (Hget & Heq & Hothers & Hind).
  unfold _apply_endpoint_had_instruction_on in Hok. cbn [foldlM] in Hok.
  destruct (apply_attr version_change attributes r f) as [r1|] eqn:Ha; [|done].
  fold (_apply_endpoint_had_instruction_on fs version_change attributes r1) in Hok.
  pose proof (IH r1 Hind Hok) as Hover.
  unfold apply_attr in Ha.
  destruct (attr_of_payload f attributes) as [v|] eqn:Hv.
  - destruct (attr_eqb f (getattr f r) v); [done|]. injection Ha as <-.
    apply Forall_cons. split.
    + unfold overwritten. rewrite Hv.
      apply (had_preserves (λ x, getattr f x = v) fs (setattr f v r) r');
        [|done|apply Hget].
      intros g w x Hin Hx. rewrite Forall_forall in Hothers.
      by rewrite (proj2 (Hothers g Hin)).
    + rewrite Forall_forall in Hover, Hothers. apply Forall_forall.
      intros g Hin. eapply overwritten_after_set; [|by apply Hover].
      by apply Hothers.
  - injection Ha as <-. apply Forall_cons. split; [|done].
    unfold overwritten. rewrite Hv.
    apply (had_preserves (λ x, getattr f x = getattr f r) fs r r'); [|done|done].
    intros g w x Hin Hx. rewrite Forall_forall in Hothers.
    by rewrite (proj2 (Hothers g Hin)).
Qed.

Lemma had_none_redundant fields r :
  independent fields →
  Forall (λ fld, ¬ redundant attributes r fld) fields →
  ∃ r',
    _apply_endpoint_had_instruction_on fields version_change attributes r = Ok r'
    ∧ Forall (overwritten attributes r r') fields.
Proof.
  revert r. induction fields as [|f fs IH]; intros r Hind Hall.
  - exists r. split; [done|apply Forall_nil_2].
  - destruct Hind as (Hget & Heq & Hothers & Hind).
    apply Forall_cons in Hall as [Hf Hall].
    unfold _apply_endpoint_had_instruction_on. simpl.
    rewrite apply_attr_not_redundant by done.
    destruct (attr_of_payload f attributes) as [v|] eqn:Hv.
    + assert (Forall (λ fld, ¬ redundant attributes (setattr f v r) fld) fs) as Hall'.
      { rewrite Forall_forall in Hall, Hothers. apply Forall_forall.
        intros g Hin Hr. apply (Hall g Hin).
        eapply redundant_after_set; [|done]. by apply Hothers. }
      destruct (IH _ Hind Hall') as (r' & Hok & Hover).
      exists r'. split; [done|]. apply Forall_cons. split.
      * unfold overwritten. rewrite Hv.
        apply (had_preserves (λ x, getattr f x = v) fs (setattr f v r) r');
          [|done|apply Hget].
        intros g w x Hin Hx. rewrite Forall_forall in Hothers.
        by rewrite (proj2 (Hothers g Hin)).
      * rewrite Forall_forall in Hover, Hothers. apply Forall_forall.
        intros g Hin. eapply overwritten_after_set; [|by apply Hover].
        by apply Hothers.
    + destruct (IH _ Hind Hall) as (r' & Hok & Hover).
      exists r'. split; [done|]. apply Forall_cons. split; [|done].
      unfold overwritten. rewrite Hv.
      apply (had_preserves (λ x, getattr f x = getattr f r) fs r r'); [|done|done].
      intros g w x Hin Hx. rewrite Forall_forall in Hothers.
      by rewrite (proj2 (Hothers g Hin)).
Qed.
End had_instruction.

(** C4: applied to a route, an endpoint-had instruction looks at every
    attribute it does not leave unset.  If the route already has the
    target value of one of them, the instruction fails with the
    redundant-instruction error naming such an attribute and the version
    change; otherwise it succeeds, every attribute it names holds its
    target value afterwards and every other attribute (and the handler)
    is as before.  Equality is the equality of Python: the methods of an
    instruction, a list, never equal the set of methods a route is created
    with, and replace it.  On the small application, the instruction that
    says [POST /users] had status code 204, which it has, makes the whole
    generation fail with that error. *)
Theorem endpoint_had_instruction_overwrites_or_fails :
  (∀ (version_change : string) (attributes : EndpointAttributesPayload) (r : APIRoute),
     (Exists (redundant attributes r) __dataclass_fields__ →
      ∃ fld ms p,
        fld ∈ __dataclass_fields__
        ∧ _apply_endpoint_had_instruction version_change attributes r
          = Raise (Generation (AttributeWasTheSame (attr_name fld) ms p version_change)))
     ∧ (Forall (λ fld, ¬ redundant attributes r fld) __dataclass_fields__ →
        ∃ r',
          _apply_endpoint_had_instruction version_change attributes r = Ok r'
          ∧ Forall (overwritten attributes r r') __dataclass_fields__
          ∧ endpoint r' = endpoint r)
     ∧ (∀ fld, fld ∈ __dataclass_fields__ → attr_name fld = "methods" →
               has_method_set r → ¬ redundant attributes r fld)
     ∧ (∀ l r', attr_methods attributes = Some l →
                _apply_endpoint_had_instruction version_change attributes r = Ok r' →
                methods r' = ListOfMethods l))
  ∧ transform tutorial_world status_code_transformer (new_tstate 10)
    = Raise (Generation (AttributeWasTheSame "status_code" (SetOfMethods {["POST"]})
               "/users" "StatusCodeWas204")).
Proof.
  split; [|by vm_compute].
  intros version_change attributes r. split_and!.
  - apply had_some_redundant, dataclass_fields_independent.
  - intros Hall.
    destruct (had_none_redundant version_change attributes __dataclass_fields__ r
                dataclass_fields_independent Hall) as (r' & Hok & Hover).
    exists r'. split_and!; [done|done|].
    apply (had_preserves version_change attributes (λ x, endpoint x = endpoint r)
             __dataclass_fields__ r r'); [|done|done].
    intros fld v x Hin Hx. rewrite <- Hx.
    unfold __dataclass_fields__ in Hin.
    repeat (apply elem_of_cons in Hin as [->|Hin]; [by destruct x|]).
    by apply elem_of_nil in Hin.
  - intros fld Hin Hname [s Hs] (v & Hv & Hg).
    unfold __dataclass_fields__ in Hin.
    repeat (apply elem_of_cons in Hin as [->|Hin]; [try discriminate Hname|]).
    + cbn in Hv, Hg. rewrite Hs in Hg. subst v.
      by destruct (attr_methods attributes).
    + by apply elem_of_nil in Hin.
  - intros l r' Hl Hok.
    pose proof (had_some_overwritten version_change attributes __dataclass_fields__ r r'
                  dataclass_fields_independent Hok) as Hover.
    rewrite Forall_forall in Hover.
    assert (overwritten attributes r r'
              (mk_attr_field "methods" methods_value py_eq
                 (λ attributes, ListOfMethods <$> attr_methods attributes)
                 methods set_methods)) as H.
    { apply Hover. unfold __dataclass_fields__. do 7 right. left. }
    unfold overwritten in H. cbn in H. by rewrite Hl in H.
Qed.

(** ** The comparison of targeted and affected methods *)

Lemma had_instruction_raises vc attributes r e :
  _apply_endpoint_had_instruction vc attributes r = Raise e → structural_conflict e.
Proof.
  unfold _apply_endpoint_had_instruction.
  generalize __dataclass_fields__. intros fields. revert r.
  induction fields as [|f fs IHf]; intros r Hh; [done|].
  unfold _apply_endpoint_had_instruction_on in Hh. simpl in Hh.
  destruct (apply_attr vc attributes r f) as [r1|e1] eqn:Ha.
  - by apply (IHf r1).
  - injection Hh as <-. unfold apply_attr in Ha.
    destruct (attr_of_payload f attributes); [|done].
    destruct (attr_eqb _ _ _); [|done]. by injection Ha as <-.
Qed.

Lemma had_loop_spec vc attributes refs acc routes :
  match foldlM
          (λ '(applied, routes) '(i, original_route),
             applied ← set_ior applied (methods original_route);
             r' ← _apply_endpoint_had_instruction vc attributes original_route;
             Ok (applied, store i r' routes))
          (acc, routes) refs with
  | Ok (applied, _) =>
      applied = fold_left (λ mu r, mu ∪ set_ (methods r)) refs.*2 acc
      ∧ Forall has_method_set refs.*2
  | Raise e => structural_conflict e ∨ (e = TypeError ∧ Exists has_method_list refs.*2)
  end.
Proof.
  revert acc routes. induction refs as [|[i r] refs IH]; intros acc routes.
  { split; [done|apply Forall_nil_2]. }
  cbn [foldlM fmap list_fmap snd].
  destruct (decide (has_method_set r)) as [Hr|Hr].
  - rewrite set_ior_set by done. cbn [mbind result_bind].
    destruct (_apply_endpoint_had_instruction vc attributes r) as [r'|e] eqn:Hh;
      cbn [mbind result_bind].
    + specialize (IH (acc ∪ set_ (methods r)) (store i r' routes)).
      destruct (foldlM _ _ refs) as [[applied routes']|e].
      * destruct IH as [-> Hall]. split; [done|by apply Forall_cons_2].
      * destruct IH as [?|[-> ?]]; [by left|right]. split; [done|by apply Exists_cons_tl].
    + left. by apply had_instruction_raises in Hh.
  - rewrite set_ior_list by done. right. split; [done|].
    apply Exists_cons_hd. by apply not_has_method_set.
Qed.

Lemma restore_route_spec vc acc st i r :
  match restore_route vc (acc, st) (i, r) with
  | Ok (applied, st') =>
      applied = acc ∪ set_ (methods r) ∧ has_method_set r
      ∧ st_routes st'
        = store i (set_tags (list_remove_first _DELETED_ROUTE_TAG (tags r)) r) (st_routes st)
  | Raise e => structural_conflict e ∨ (e = TypeError ∧ has_method_list r)
  end.
Proof.
  unfold restore_route.
  destruct (decide (has_method_set r)) as [Hr|Hr].
  - rewrite set_ior_set by done. cbn [mbind result_bind].
    match goal with
    | |- context [match ?found with [] => _ | _ => _ end] =>
        destruct found as [|r1 [|r2 rest]]
    end; try done. by left.
  - rewrite set_ior_list by done. right. split; [done|]. by apply not_has_method_set.
Qed.

Lemma restore_loop_spec vc refs acc st :
  match foldlM (restore_route vc) (acc, st) refs with
  | Ok (applied, _) =>
      applied = fold_left (λ mu r, mu ∪ set_ (methods r)) refs.*2 acc
      ∧ Forall has_method_set refs.*2
  | Raise e => structural_conflict e ∨ (e = TypeError ∧ Exists has_method_list refs.*2)
  end.
Proof.
  revert acc st. induction refs as [|[i r] refs IH]; intros acc st.
  { split; [done|apply Forall_nil_2]. }
  cbn [foldlM fmap list_fmap snd]. pose proof (restore_route_spec vc acc st i r) as H.
  destruct (restore_route vc (acc, st) (i, r)) as [[applied st']|e].
  - destruct H as (-> & Hr & _). specialize (IH (acc ∪ set_ (methods r)) st').
    destruct (foldlM _ _ refs) as [[applied routes']|e].
    + destruct IH as [-> Hall]. split; [done|by apply Forall_cons_2].
    + destruct IH as [?|[-> ?]]; [by left|right]. split; [done|by apply Exists_cons_tl].
  - destruct H as [?|[-> ?]]; [by left|right]. split; [done|by apply Exists_cons_hd].
Qed.

Lemma _validate_no_repetitions_in_routes_raises rs e :
  _validate_no_repetitions_in_routes rs = Raise e → ∃ r1 r2, e = RouteAlreadyExistsError r1 r2.
Proof.
  unfold _validate_no_repetitions_in_routes.
  generalize (∅ : gmap (string * gset string) APIRoute).
  induction rs as [|r rs IH]; intros m; [done|]. cbn [foldlM].
  destruct (m !! (path r, set_ (methods r))) as [other|].
  - intros [= <-]. by eexists _, _.
  - apply IH.
Qed.

(** A list among the methods of the routes a query returns is a list
    among the methods of the collection. *)
Lemma methods_type_error_of_matches routes p ms n d :
  Exists has_method_list (_get_routes routes p ms n d) →
  methods_type_error routes TypeError.
Proof.
  intros Hex. apply Exists_exists in Hex as (r & Hin & Hl).
  apply elem_of__get_routes in Hin as [Hin _]. split; [done|]. by exists r.
Qed.

Lemma process_instruction_spec vc st ins :
  match process_instruction vc st ins with
  | Ok (applied, st', err) =>
      applied = method_union_of (affected_routes ins (st_routes st))
      ∧ err = unmatched_methods_error (kind ins)
  | Raise e => structural_conflict e ∨ methods_type_error (st_routes st) e
  end.
Proof.
  unfold process_instruction, affected_routes.
  destruct (kind ins) as [| |attributes] eqn:Hk.
  - case_bool_decide.
    + rewrite method_union_outcome. destruct (decide _) as [|Hl]; [by left|right].
      apply not_Forall_has_method_set in Hl.
      by apply methods_type_error_of_matches in Hl.
    + rewrite delete_loop, _get_routes_refs_values.
      destruct (decide _) as [|Hl]; [done|right].
      apply not_Forall_has_method_set in Hl.
      by apply methods_type_error_of_matches in Hl.
  - case_bool_decide.
    + rewrite _get_routes_refs_values, method_union_outcome.
      destruct (decide _) as [|Hl]; [by left|right].
      apply not_Forall_has_method_set in Hl.
      by apply methods_type_error_of_matches in Hl.
    + destruct (_validate_no_repetitions_in_routes _) as [[]|e] eqn:Hv.
      * cbn [mbind result_bind].
        pose proof (restore_loop_spec vc
                      (_get_routes_refs (st_routes st) (endpoint_path ins)
                         (endpoint_methods ins) (endpoint_func_name ins) true) ∅ st) as Hl.
        rewrite _get_routes_refs_values in Hl.
        destruct (foldlM _ _ _) as [[applied st']|e].
        -- by destruct Hl as [-> _].
        -- destruct Hl as [?|[-> Hl]]; [by left|right].
           by apply methods_type_error_of_matches in Hl.
      * apply _validate_no_repetitions_in_routes_raises in Hv as (r1 & r2 & ->).
        by left.
  - pose proof (had_loop_spec vc attributes
                  (_get_routes_refs (st_routes st) (endpoint_path ins)
                     (endpoint_methods ins) (endpoint_func_name ins) false)
                  ∅ (st_routes st)) as Hl.
    rewrite _get_routes_refs_values in Hl.
    destruct (foldlM _ _ _) as [[applied routes']|e].
    + by destruct Hl as [-> _].
    + destruct Hl as [?|[-> Hl]]; [by left|right].
      by apply methods_type_error_of_matches in Hl.
Qed.

Lemma unmatched_methods_error_not_structural k md p v :
  ¬ structural_conflict (Generation (unmatched_methods_error k md p v)).
Proof. destruct k; simpl; tauto. Qed.

Lemma apply_instruction_outcome vc st ins :
  (∃ e, apply_instruction vc st ins = Raise e
        ∧ (structural_conflict e ∨ methods_type_error (st_routes st) e))
  ∨ (unmatched_methods ins (st_routes st) ≠ ∅
     ∧ apply_instruction vc st ins
       = Raise (Generation (unmatched_methods_error (kind ins)
                              (unmatched_methods ins (st_routes st))
                              (endpoint_path ins) vc)))
  ∨ (unmatched_methods ins (st_routes st) = ∅
     ∧ ∃ st', apply_instruction vc st ins = Ok st').
Proof.
  pose proof (process_instruction_spec vc st ins) as Hp.
  unfold apply_instruction, unmatched_methods.
  destruct (process_instruction vc st ins) as [[[applied st1] err]|e].
  - destruct Hp as [-> ->]. cbn [mbind result_bind]. unfold check_method_diff.
    case_bool_decide as Hd.
    + right. left. done.
    + right. right. split; [|by exists st1].
      destruct (decide (endpoint_methods ins
                        ∖ method_union_of (affected_routes ins (st_routes st)) = ∅));
        [done|]. by destruct Hd.
  - left. by exists e.
Qed.


(** ** The order on paths *)

Lemma ascii_compare_lt_trans a b c :
  Ascii.compare a b = Lt → Ascii.compare b c = Lt → Ascii.compare a c = Lt.
Proof. unfold Ascii.compare. rewrite !N.compare_lt_iff. lia. Qed.

Lemma ascii_compare_refl a : Ascii.compare a a = Eq.
Proof. unfold Ascii.compare. apply N.compare_refl. Qed.

Lemma string_compare_refl s : String.compare s s = Eq.
Proof. induction s as [|a s IH]; [done|]. simpl. by rewrite ascii_compare_refl. Qed.

Lemma string_compare_lt_trans s1 : ∀ s2 s3,
  String.compare s1 s2 = Lt → String.compare s2 s3 = Lt → String.compare s1 s3 = Lt.
Proof.
  induction s1 as [|a s1 IH]; intros [|b s2] [|c s3]; simpl; try done.
  destruct (Ascii.compare a b) eqn:Hab; [|destruct (Ascii.compare b c) eqn:Hbc|done].
  - apply Ascii.compare_eq_iff in Hab as ->.
    destruct (Ascii.compare b c); [apply IH|done|done].
  - apply Ascii.compare_eq_iff in Hbc as ->. by rewrite Hab.
  - by rewrite (ascii_compare_lt_trans a b c).
  - done.
Qed.

Lemma path_compare_refl p : path_compare p p = Eq.
Proof. induction p as [|x p IH]; [done|]. simpl. by rewrite string_compare_refl. Qed.

Lemma path_compare_lt_trans p : ∀ q r,
  path_compare p q = Lt → path_compare q r = Lt → path_compare p r = Lt.
Proof.
  induction p as [|x p IH]; intros [|y q] [|z r]; simpl; try done.
  destruct (String.compare x y) eqn:Hxy; [|destruct (String.compare y z) eqn:Hyz|done].
  - apply String.compare_eq_iff in Hxy as ->.
    destruct (String.compare y z); [apply IH|done|done].
  - apply String.compare_eq_iff in Hyz as ->. by rewrite Hxy.
  - by rewrite (string_compare_lt_trans x y z).
  - done.
Qed.

Lemma path_ltb_irrefl p : path_ltb p p = false.
Proof. unfold path_ltb. by rewrite path_compare_refl. Qed.

Lemma path_ltb_trans p q r : path_ltb p q = true → path_ltb q r = true → path_ltb p r = true.
Proof.
  unfold path_ltb. destruct (path_compare p q) eqn:H1; try done.
  destruct (path_compare q r) eqn:H2; try done. by rewrite (path_compare_lt_trans p q r).
Qed.

Lemma string_compare_eq s1 s2 : String.compare s1 s2 = Eq → s1 = s2.
Proof. apply String.compare_eq_iff. Qed.

Lemma path_compare_eq p : ∀ q, path_compare p q = Eq → p = q.
Proof.
  induction p as [|x p IH]; intros [|y q]; simpl; try done.
  destruct (String.compare x y) eqn:Hxy; try done.
  apply string_compare_eq in Hxy as ->. by intros ->%IH.
Qed.

Lemma path_compare_antisym p : ∀ q, path_compare p q = CompOpp (path_compare q p).
Proof.
  induction p as [|x p IH]; intros [|y q]; simpl; try done.
  rewrite String.compare_antisym. destruct (String.compare y x); simpl; [apply IH|done|done].
Qed.

Lemma path_ltb_total p q : path_ltb p q = false → p = q ∨ path_ltb q p = true.
Proof.
  unfold path_ltb. rewrite (path_compare_antisym q p).
  destruct (path_compare p q) eqn:H; [|done|by right].
  left. by apply path_compare_eq.
Qed.

Lemma path_ltb_false_trans r p q :
  path_ltb r p = false → path_ltb p q = false → path_ltb r q = false.
Proof.
  intros Hrp Hpq. destruct (path_ltb r q) eqn:Hrq; [|done].
  destruct (path_ltb_total p q Hpq) as [->|Hqp]; [congruence|].
  by rewrite (path_ltb_trans r q p Hrq Hqp) in Hrp.
Qed.

Lemma path_max_upper p q :
  path_ltb (path_max p q) p = false ∧ path_ltb (path_max p q) q = false.
Proof.
  unfold path_max. destruct (path_ltb p q) eqn:Hpq.
  - split; [|apply path_ltb_irrefl].
    destruct (path_ltb q p) eqn:Hqp; [|done].
    by rewrite <- (path_ltb_irrefl p), (path_ltb_trans p q p).
  - split; [apply path_ltb_irrefl|done].
Qed.

Lemma path_min_lower p q :
  path_ltb p (path_min p q) = false ∧ path_ltb q (path_min p q) = false.
Proof.
  unfold path_min. destruct (path_ltb q p) eqn:Hqp.
  - split; [|apply path_ltb_irrefl].
    destruct (path_ltb p q) eqn:Hpq; [|done].
    by rewrite <- (path_ltb_irrefl p), (path_ltb_trans p q p).
  - split; [apply path_ltb_irrefl|done].
Qed.

Lemma foldl_path_max_upper l : ∀ p d,
  d ∈ p :: l → path_ltb (foldl path_max p l) d = false.
Proof.
  induction l as [|q l IH]; intros p d Hd; simpl.
  - apply list_elem_of_singleton in Hd as ->. apply path_ltb_irrefl.
  - destruct (path_max_upper p q) as [Hp Hq].
    pose proof (IH (path_max p q) (path_max p q) ltac:(left)) as Hm.
    apply elem_of_cons in Hd as [->|[->|Hd]%elem_of_cons].
    + by eapply path_ltb_false_trans.
    + by eapply path_ltb_false_trans.
    + apply IH. by right.
Qed.

Lemma foldl_path_min_lower l : ∀ p d,
  d ∈ p :: l → path_ltb d (foldl path_min p l) = false.
Proof.
  induction l as [|q l IH]; intros p d Hd; simpl.
  - apply list_elem_of_singleton in Hd as ->. apply path_ltb_irrefl.
  - destruct (path_min_lower p q) as [Hp Hq].
    pose proof (IH (path_min p q) (path_min p q) ltac:(left)) as Hm.
    apply elem_of_cons in Hd as [->|[->|Hd]%elem_of_cons].
    + by eapply path_ltb_false_trans.
    + by eapply path_ltb_false_trans.
    + apply IH. by right.
Qed.

Lemma foldl_choice (f : Path → Path → Path) l :
  (∀ p q, f p q = p ∨ f p q = q) → ∀ p, foldl f p l ∈ p :: l.
Proof.
  intros Hf. induction l as [|q l IH]; intros p; simpl; [left|].
  specialize (IH (f p q)). destruct (Hf p q) as [Heq|Heq]; rewrite Heq in IH |- *.
  - apply elem_of_cons in IH as [->|IH]; [left|by right; right].
  - by right.
Qed.

Lemma _AnnotationTransformer__init__dirs W latest_schemas_module versions self :
  _AnnotationTransformer__init__ W latest_schemas_module versions = Ok self →
  latest_version_dir self ∈ version_dirs self
  ∧ template_version_dir self ∈ version_dirs self
  ∧ ∀ d, d ∈ version_dirs self →
         path_ltb (latest_version_dir self) d = false
         ∧ path_ltb d (template_version_dir self) = false.
Proof.
  unfold _AnnotationTransformer__init__.
  destruct (negb (module_is_package latest_schemas_module)); [done|].
  destruct (negb (endswith _ _)); [done|]. intros [= <-].
  cbn [latest_version_dir template_version_dir version_dirs].
  set (p := _get_package_path_from_module W latest_schemas_module).
  set (rest := _ <$> versions). change ([p] ++ rest) with (p :: rest).
  change (foldl path_max (path_max p p) rest) with (foldl path_max p (p :: rest)).
  change (foldl path_min (path_min p p) rest) with (foldl path_min p (p :: rest)).
  assert (∀ d, d ∈ p :: p :: rest → d ∈ p :: rest) as Hdup.
  { intros d [->|Hd]%elem_of_cons; [left|done]. }
  split_and!.
  - apply Hdup, foldl_choice. intros a b. unfold path_max. destruct (path_ltb a b); auto.
  - apply Hdup, foldl_choice. intros a b. unfold path_min. destruct (path_ltb b a); auto.
  - intros d Hd. split.
    + apply foldl_path_max_upper. by right.
    + apply foldl_path_min_lower. by right.
Qed.

(** ** Rewriting a type *)

Lemma _validate_source_file_raises self c source_file :
  _validate_source_file_is_located_in_template_dir self c source_file
  = (if decide (outside_template_dir self source_file)
     then Raise (Generation (NotDefinedInTemplateDir c (template_version_dir self)
                               source_file))
     else Ok ()).
Proof.
  unfold _validate_source_file_is_located_in_template_dir, outside_template_dir.
  destruct (decide _) as [(H1 & H2 & H3)|Hn].
  - rewrite H1, H2. simpl. apply Exists_exists in H3 as (d & Hd & H3).
    rewrite (proj2 (existsb_exists _ _)); [done|].
    exists d. split; [by apply list_elem_of_In|done].
  - destruct (startswith source_file (path_str (path_parent _))) eqn:H1; [|done].
    destruct (startswith source_file (path_str (template_version_dir self))) eqn:H2;
      [done|].
    simpl. destruct (existsb _ _) eqn:H3; [|done].
    exfalso. apply Hn. split_and!; try done.
    apply existsb_exists in H3 as (d & Hd & H3). apply Exists_exists. exists d.
    split; [by apply list_elem_of_In|done].
Qed.

(** C9 (as amended): a schema-model or enumeration type is validated
    exactly when the target directory is the transformer's
    [latest_version_dir]; the validation raises the configuration error
    exactly when the source file of the type is known, lies under the
    parent of the template directory, not under the template directory,
    and under one of the version directories; for every other target, and
    for a type that is no schema model or enumeration, the source location
    is not looked at.  In a transformer built by the constructor,
    [latest_version_dir] is the greatest and [template_version_dir] the
    least of the version directories. *)
Theorem source_location_validated_only_for_latest_version_dir
    (W : World) (self : _AnnotationTransformer) (c : cls) (version_dir : Path) :
  (∀ c' template_dir source_file,
     _change_version_of_type W self c version_dir
     = Raise (Generation (NotDefinedInTemplateDir c' template_dir source_file))
     ↔ cls_is_schema c = true
       ∧ version_dir = latest_version_dir self
       ∧ cls_source_file c = Some source_file
       ∧ outside_template_dir self source_file
       ∧ c' = c ∧ template_dir = template_version_dir self)
  ∧ (cls_is_schema c = true → version_dir ≠ latest_version_dir self →
     _change_version_of_type W self c version_dir
     = (c' ← get_another_version_of_cls W self c version_dir; Ok (AType c')))
  ∧ (cls_is_schema c = false →
     _change_version_of_type W self c version_dir = Ok (AType c))
  ∧ (∀ latest_schemas_module versions built,
       _AnnotationTransformer__init__ W latest_schemas_module versions = Ok built →
       latest_version_dir built ∈ version_dirs built
       ∧ template_version_dir built ∈ version_dirs built
       ∧ ∀ d, d ∈ version_dirs built →
              path_ltb (latest_version_dir built) d = false
              ∧ path_ltb d (template_version_dir built) = false).
Proof.
  unfold _change_version_of_type.
  split; [|split; [|split; [|apply _AnnotationTransformer__init__dirs]]].
  - intros c' template_dir source_file.
    destruct (cls_is_schema c); [|split; [done|by intros [? _]]].
    destruct (decide (version_dir = latest_version_dir self)) as [->|Hne].
    + destruct (cls_source_file c) as [f|].
      * rewrite _validate_source_file_raises.
        destruct (decide (outside_template_dir self f)) as [Ho|Hn].
        -- cbn [mbind result_bind]. split.
           ++ by intros [= <- <- <-].
           ++ by intros (_ & _ & [= <-] & _ & -> & ->).
        -- cbn [mbind result_bind]. split.
           ++ unfold get_another_version_of_cls.
              destruct (get_another_version_of_module _ _ _ _); [|done].
              by destruct (module_getattr _ _ _).
           ++ by intros (_ & _ & [= <-] & Ho & _).
      * cbn [mbind result_bind]. split; [|by intros (_ & _ & ? & _)].
        unfold get_another_version_of_cls.
        destruct (get_another_version_of_module _ _ _ _); [|done].
        by destruct (module_getattr _ _ _).
    + cbn [mbind result_bind]. split; [|by intros (_ & ? & _)].
      unfold get_another_version_of_cls.
      destruct (get_another_version_of_module _ _ _ _); [|done].
      by destruct (module_getattr _ _ _).
  - intros -> Hne. by rewrite decide_False.
  - by intros ->.
Qed.

(** ** The cache of the rewriter *)

Lemma bind_Ok {A B} (m : M A) (f : A → M B) s b s' :
  (m ≫= f) s = Ok (b, s') ↔ ∃ a s1, m s = Ok (a, s1) ∧ f a s1 = Ok (b, s').
Proof.
  unfold mbind, M_bind. destruct (m s) as [[a s1]|e].
  - split; [by exists a, s1|]. by intros (? & ? & [= <- <-] & ?).
  - split; [done|]. by intros (? & ? & ? & _).
Qed.

Lemma ret_Ok {A} (a b : A) s s' : (mret a : M A) s = Ok (b, s') ↔ a = b ∧ s = s'.
Proof. unfold mret, M_ret. split; [by intros [= -> ->]|by intros [-> ->]]. Qed.

Lemma lift_Ok {A} (r : result A) b s s' : lift r s = Ok (b, s') ↔ r = Ok b ∧ s = s'.
Proof.
  unfold lift. destruct r; split; try done.
  - by intros [= -> ->].
  - by intros [[= ->] ->].
  - by intros [? _].
Qed.

#[global] Instance cache_extends_preorder : PreOrder cache_extends.
Proof.
  split; [by intros s key v|].
  intros s1 s2 s3 H12 H23 key v Hl. by apply H23, H12.
Qed.

Lemma new_object_extends s oid s' : new_object s = Ok (oid, s') → cache_extends s s'.
Proof. unfold new_object. intros [= _ <-]. by intros key v. Qed.

Section cache.
Context (W : World) (self : _AnnotationTransformer) (D : Path).

#[local] Abbreviation extends := only_extends_cache.

Lemma mapM__extends (f : annotation → M annotation) l :
  list_all annotation (extends f) l →
  ∀ s r s', mapM_ f l s = Ok (r, s') → cache_extends s s'.
Proof.
  induction 1 as [|x Hx l Hl IH]; intros s r s'; simpl.
  - by intros [_ <-]%ret_Ok.
  - intros (y & s1 & Hy & (ys & s2 & Hys & [_ <-]%ret_Ok)%bind_Ok)%bind_Ok.
    etrans; [by eapply Hx|by eapply IH].
Qed.

Lemma dict_comprehension_extends (f : annotation → M annotation) items :
  list_all (annotation * annotation)
    (prod_all annotation (extends f) annotation (extends f)) items →
  ∀ acc s r s', dict_comprehension f items acc s = Ok (r, s') → cache_extends s s'.
Proof.
  induction 1 as [|[k v] Hkv l Hl IH]; intros acc s r s'; simpl.
  - by intros [_ <-]%ret_Ok.
  - intros (k' & s1 & Hk & (v' & s2 & Hv & Hrest)%bind_Ok)%bind_Ok.
    inversion Hkv as [? Pk ? Pv]; subst.
    etrans; [by eapply Pk|]. etrans; [by eapply Pv|by eapply IH].
Qed.

Lemma map_defaults_extends (f : annotation → M annotation) params :
  list_all (Param_ annotation) (Param__all annotation (extends f)) params →
  ∀ s r s', map_defaults f params s = Ok (r, s') → cache_extends s s'.
Proof.
  induction 1 as [|p Hp l Hl IH]; intros s r s'; simpl.
  - by intros [_ <-]%ret_Ok.
  - destruct Hp as [name kind default Hdefault ann Hann]. simpl.
    destruct Hdefault as [d Hd|]; [|apply IH].
    intros (d' & s1 & Hd' & (ds & s2 & Hds & [_ <-]%ret_Ok)%bind_Ok)%bind_Ok.
    etrans; [by eapply Hd|by eapply IH].
Qed.

Lemma functools_cache_extends a compute :
  (∀ s r s', compute s = Ok (r, s') → cache_extends s s') →
  ∀ s r s', functools_cache a D compute s = Ok (r, s') → cache_extends s s'.
Proof.
  intros Hc s r s'. unfold functools_cache.
  destruct (cache_lookup (a, D) (cache s)) as [hit|] eqn:Hl.
  - by intros [= _ <-].
  - destruct (compute s) as [[r1 s1]|e] eqn:Hcomp; [|done]. intros [= _ <-].
    intros key v Hkey. simpl. case_decide as Hk.
    + subst key. congruence.
    + by eapply Hc.
Qed.

Lemma _change_version_of_annotations_extends a :
  extends (λ a, _change_version_of_annotations W self a D) a.
Proof.
  set (rw := λ a, _change_version_of_annotations W self a D).
  induction a as [items IH|items IH|items IH|origin args IH|oid dep IH uc|args IH
                 | | | |f IH| |]; unfold only_extends_cache, rw;
    cbn [_change_version_of_annotations]; fold rw.
  - intros s r s' (items' & s1 & Hi & [_ <-]%ret_Ok)%bind_Ok.
    exact (dict_comprehension_extends rw items IH _ _ _ _ Hi).
  - intros s r s' (items' & s1 & Hi & [_ <-]%ret_Ok)%bind_Ok.
    exact (mapM__extends rw items IH _ _ _ Hi).
  - intros s r s' (items' & s1 & Hi & [_ <-]%ret_Ok)%bind_Ok.
    exact (mapM__extends rw items IH _ _ _ Hi).
  - apply functools_cache_extends. simpl.
    intros s r s' (items' & s1 & Hi & [_ <-]%ret_Ok)%bind_Ok.
    exact (mapM__extends rw args IH _ _ _ Hi).
  - apply functools_cache_extends. simpl.
    intros s r s' (d' & s1 & Hd & (o & s2 & Ho & [_ <-]%ret_Ok)%bind_Ok)%bind_Ok.
    etrans; [exact (IH _ _ _ Hd)|by eapply new_object_extends].
  - apply functools_cache_extends. simpl.
    intros s r s' (items' & s1 & Hi & [_ <-]%ret_Ok)%bind_Ok.
    exact (mapM__extends rw args IH _ _ _ Hi).
  - apply functools_cache_extends. simpl. by intros ? ? ? [_ <-]%ret_Ok.
  - apply functools_cache_extends. simpl. by intros ? ? ? [_ <-]%ret_Ok.
  - apply functools_cache_extends. simpl. by intros ? ? ? [_ <-]%lift_Ok.
  - apply functools_cache_extends. simpl.
    destruct IH as [oid name co anns Hanns params Hparams ret Hret]. simpl.
    intros s r s' (o & s1 & Ho & (anns' & s2 & Ha & (ds & s3 & Hd
                     & ([ps rt] & s4 & [_ <-]%lift_Ok & [_ <-]%ret_Ok)%bind_Ok
                   )%bind_Ok)%bind_Ok)%bind_Ok.
    etrans; [by eapply new_object_extends|].
    etrans; [exact (dict_comprehension_extends rw anns Hanns _ _ _ _ Ha)|].
    exact (map_defaults_extends rw params Hparams _ _ _ Hd).
  - apply functools_cache_extends. simpl. by intros ? ? ? [_ <-]%ret_Ok.
  - apply functools_cache_extends. simpl. by intros ? ? ? [_ <-]%ret_Ok.
Qed.

Lemma cached_after a s r s' :
  non_container a →
  _change_version_of_annotations W self a D s = Ok (r, s') →
  cache_lookup (a, D) (cache s') = Some r.
Proof.
  intros Hnc.
  assert (∀ compute, functools_cache a D compute s = Ok (r, s') →
                     cache_lookup (a, D) (cache s') = Some r) as Hf.
  { intros compute. unfold functools_cache.
    destruct (cache_lookup (a, D) (cache s)) as [hit|] eqn:Hl.
    - by intros [= <- <-].
    - destruct (compute s) as [[r1 s1]|e]; [|done]. intros [= <- <-].
      simpl. by rewrite decide_True. }
  destruct a; try done; apply Hf.
Qed.

Lemma cache_hit a s r :
  non_container a →
  cache_lookup (a, D) (cache s) = Some r →
  _change_version_of_annotations W self a D s = Ok (r, s).
Proof.
  intros Hnc Hl.
  assert (∀ compute, functools_cache a D compute s = Ok (r, s)) as Hf.
  { intros compute. unfold functools_cache. by rewrite Hl. }
  destruct a; try done; apply Hf.
Qed.
End cache.

Lemma later_extends W self s s' : later W self s s' → cache_extends s s'.
Proof.
  induction 1 as [|s s1 s2 a D r _ IH Hrw]; [done|].
  etrans; [done|]. by eapply _change_version_of_annotations_extends.
Qed.

(** C8: once the transformer has rewritten a non-container annotation (a
    schema type in particular) to a version directory, every later
    rewriting of that same annotation object to that directory by the same
    transformer returns the very object the first one returned, without
    computing anything: the result was stored under the pair of the
    annotation and the directory. *)
Theorem same_annotation_rewritten_twice_is_the_same_object
    (W : World) (self : _AnnotationTransformer) (a : annotation) (D : Path)
    (s s1 s2 : tstate) (r : annotation) :
  non_container a →
  _change_version_of_annotations W self a D s = Ok (r, s1) →
  later W self s1 s2 →
  cache_lookup (a, D) (cache s1) = Some r
  ∧ _change_version_of_annotations W self a D s2 = Ok (r, s2).
Proof.
  intros Hnc Hrw Hlater.
  pose proof (cached_after W self D a s r s1 Hnc Hrw) as Hl.
  split; [done|]. apply cache_hit; [done|].
  by apply (later_extends W self s1 s2 Hlater).
Qed.

(** ** Rewriting plain annotations *)

Lemma all_of_Forall {A} (P : A → Prop) l : all_of P l ↔ Forall P l.
Proof.
  induction l as [|x l IH]; simpl.
  - split; [intros _; apply Forall_nil_2|done].
  - rewrite Forall_cons. by rewrite IH.
Qed.

Section plain_annotations.
Context (W : World) (self : _AnnotationTransformer) (D : Path).

#[local] Abbreviation rw := (λ a, _change_version_of_annotations W self a D).
#[local] Abbreviation pure := (stateless_rewrite W self D).
#[local] Abbreviation sound := (cache_sound W self D).
#[local] Abbreviation agrees := (agrees W self D).

Lemma agrees_ret {A} (a : A) : agrees (mret a) (Ok a).
Proof. intros s Hs. by exists s. Qed.

Lemma agrees_bind {A B} (m : M A) (p : result A) (f : A → M B) (g : A → result B) :
  agrees m p → (∀ a, agrees (f a) (g a)) → agrees (m ≫= f) (p ≫= g).
Proof.
  intros Hm Hf s Hs. specialize (Hm s Hs). unfold mbind, M_bind, result_bind.
  destruct p as [a|e].
  - destruct Hm as (s1 & -> & Hs1). apply Hf, Hs1.
  - by rewrite Hm.
Qed.

Lemma agrees_lift {A} (r : result A) : agrees (lift r) r.
Proof. intros s Hs. unfold lift. destruct r; [by exists s|done]. Qed.

Lemma agrees_mapM l :
  list_all annotation (λ a, plain a → agrees (rw a) (pure a)) l →
  all_of plain l →
  agrees (mapM_ rw l) (mapM_result pure l).
Proof.
  induction 1 as [|x Hx l Hl IH]; intros Hp; simpl.
  - apply agrees_ret.
  - destruct Hp as [Hpx Hpl].
    apply agrees_bind; [by apply Hx|]. intros y.
    apply agrees_bind; [by apply IH|]. intros ys. apply agrees_ret.
Qed.

Lemma agrees_dict_comprehension items :
  list_all (annotation * annotation)
    (prod_all annotation (λ a, plain a → agrees (rw a) (pure a))
              annotation (λ a, plain a → agrees (rw a) (pure a))) items →
  all_of (λ kv, plain kv.1 ∧ plain kv.2) items →
  ∀ acc, agrees (dict_comprehension rw items acc)
           (dict_comprehension_result pure items acc).
Proof.
  induction 1 as [|[k v] Hkv l Hl IH]; intros Hp acc; simpl.
  - apply agrees_ret.
  - destruct Hp as [[Hpk Hpv] Hpl]. inversion Hkv as [? Pk ? Pv]; subst.
    apply agrees_bind; [by apply Pk|]. intros k'.
    apply agrees_bind; [by apply Pv|]. intros v'. by apply IH.
Qed.

Lemma agrees_functools_cache a compute :
  plain a →
  agrees compute (pure a) →
  agrees (functools_cache a D compute) (pure a).
Proof.
  intros Hp Hc s Hs. unfold functools_cache.
  destruct (cache_lookup (a, D) (cache s)) as [hit|] eqn:Hl.
  - rewrite (Hs a hit Hp Hl). by exists s.
  - specialize (Hc s Hs). destruct (pure a) as [r|e] eqn:Hpure.
    + destruct Hc as (s' & -> & Hs'). eexists. split; [done|].
      intros k v Hk. simpl. case_decide as Hkey.
      * injection Hkey as ->. intros [= <-]. done.
      * by apply Hs'.
    + by rewrite Hc.
Qed.

Lemma rewrite_agrees a : plain a → agrees (rw a) (pure a).
Proof.
  induction a as [items IH|items IH|items IH|origin args IH|oid dep IH uc|args IH
                 | | | |f IH| |]; intros Hp; try done.
  - cbn [_change_version_of_annotations stateless_rewrite].
    apply agrees_bind; [by apply agrees_dict_comprehension|].
    intros items'. apply agrees_ret.
  - cbn [_change_version_of_annotations stateless_rewrite].
    apply agrees_bind; [by apply agrees_mapM|]. intros items'. apply agrees_ret.
  - cbn [_change_version_of_annotations stateless_rewrite].
    apply agrees_bind; [by apply agrees_mapM|]. intros items'. apply agrees_ret.
  - apply (agrees_functools_cache (AGenericAlias origin args)); [done|].
    cbn [non_container_branch stateless_rewrite].
    apply agrees_bind; [by apply agrees_mapM|]. intros items'. apply agrees_ret.
  - apply (agrees_functools_cache (AUnionType args)); [done|].
    cbn [non_container_branch stateless_rewrite].
    apply agrees_bind; [by apply agrees_mapM|]. intros items'. apply agrees_ret.
  - apply (agrees_functools_cache AAny); [done|]. apply agrees_ret.
  - apply (agrees_functools_cache (ANewType oid)); [done|]. apply agrees_ret.
  - apply (agrees_functools_cache (AType c)); [done|]. apply agrees_lift.
  - apply (agrees_functools_cache (AStr s)); [done|]. apply agrees_ret.
  - apply (agrees_functools_cache (AOther oid)); [done|]. apply agrees_ret.
Qed.

#[local] Abbreviation fp := (rewrite_fixed_point W self D).

Lemma result_bind_Ok {A B} (m : result A) (f : A → result B) b :
  m ≫= f = Ok b ↔ ∃ a, m = Ok a ∧ f a = Ok b.
Proof.
  unfold mbind, result_bind. destruct m as [a|e].
  - split; [by exists a|]. by intros (? & [= <-] & ?).
  - split; [done|]. by intros (? & ? & _).
Qed.

Lemma mapM_result_fixed rs : Forall fp rs → mapM_result pure rs = Ok rs.
Proof.
  induction 1 as [|r rs [_ Hr] _ IH]; simpl; [done|]. by rewrite Hr, IH.
Qed.

Lemma mapM_result_fp l rs :
  list_all annotation (λ a, plain a → ∀ r, pure a = Ok r → fp r) l →
  all_of plain l →
  mapM_result pure l = Ok rs → Forall fp rs.
Proof.
  intros Hall. revert rs. induction Hall as [|x Hx l Hl IH]; intros rs Hp; simpl.
  - intros [= <-]. apply Forall_nil_2.
  - destruct Hp as [Hpx Hpl].
    intros (y & Hy & (ys & Hys & [= <-])%result_bind_Ok)%result_bind_Ok.
    apply Forall_cons. split; [by apply Hx|by apply IH].
Qed.

#[local] Abbreviation fixed_dict := (fixed_dict W self D).

Lemma dict_set_keys k v d :
  (dict_set k v d).*1 = if decide (k ∈ d.*1) then d.*1 else d.*1 ++ [k].
Proof.
  induction d as [|[k' v'] d IH]; [done|]. cbn [dict_set].
  destruct (decide (k' = k)) as [->|Hne]; rewrite !fmap_cons; cbn [fst].
  - rewrite decide_True by left. done.
  - rewrite IH. destruct (decide (k ∈ d.*1)) as [Hin|Hnin].
    + rewrite decide_True by (by right). done.
    + rewrite decide_False; [done|].
      intros [->|?]%elem_of_cons; done.
Qed.

Lemma dict_set_fresh k v d : k ∉ d.*1 → dict_set k v d = d ++ [(k, v)].
Proof.
  induction d as [|[k' v'] d IH]; simpl; [done|]. intros Hnin.
  rewrite decide_False by (intros ->; apply Hnin; left).
  rewrite IH; [done|]. intros ?. apply Hnin. by right.
Qed.

Lemma dict_set_entries (P : annotation * annotation → Prop) k v d :
  Forall P d → P (k, v) → (∀ k' v', P (k', v') → P (k', v)) → Forall P (dict_set k v d).
Proof.
  intros Hd Hkv Hrepl. induction Hd as [|[k' v'] d Hx Hd IH]; simpl.
  - by apply Forall_singleton.
  - destruct (decide (k' = k)) as [->|Hne].
    + apply Forall_cons. split; [by eapply Hrepl|done].
    + apply Forall_cons. split; [done|apply IH].
Qed.

Lemma dict_set_fixed k v d : fixed_dict d → fp k → fp v → fixed_dict (dict_set k v d).
Proof.
  intros [Hd Hnd] Hk Hv. split.
  - apply dict_set_entries; [done|done|]. intros k' v' [Hk' _]. done.
  - rewrite dict_set_keys. case_decide as Hin; [done|].
    apply NoDup_app. split_and!; [done| |apply NoDup_singleton].
    intros x Hx ->%list_elem_of_singleton. done.
Qed.

Lemma dict_comprehension_result_fp items :
  list_all (annotation * annotation)
    (prod_all annotation (λ a, plain a → ∀ r, pure a = Ok r → fp r)
              annotation (λ a, plain a → ∀ r, pure a = Ok r → fp r)) items →
  all_of (λ kv, plain kv.1 ∧ plain kv.2) items →
  ∀ acc d, fixed_dict acc → dict_comprehension_result pure items acc = Ok d →
           fixed_dict d.
Proof.
  induction 1 as [|[k v] Hkv l Hl IH]; intros Hp acc d Hacc; simpl.
  - by intros [= <-].
  - destruct Hp as [[Hpk Hpv] Hpl]. inversion Hkv as [? Pk ? Pv]; subst.
    intros (k' & Hk' & (v' & Hv' & Hrest)%result_bind_Ok)%result_bind_Ok.
    apply (IH Hpl (dict_set k' v' acc)); [|done].
    apply dict_set_fixed; [done|by apply Pk|by apply Pv].
Qed.

Lemma dict_comprehension_result_fixed d acc :
  fixed_dict (acc ++ d) → dict_comprehension_result pure d acc = Ok (acc ++ d).
Proof.
  revert acc. induction d as [|[k v] d IH]; intros acc Hf; simpl.
  - by rewrite app_nil_r.
  - destruct Hf as [Hall Hnd].
    pose proof Hall as Hall'. rewrite Forall_app, Forall_cons in Hall'.
    destruct Hall' as (_ & [[_ Hk] [_ Hv]] & _). simpl in Hk, Hv.
    rewrite Hk, Hv. cbn [mbind result_bind].
    rewrite dict_set_fresh.
    + rewrite IH; rewrite <- app_assoc; [done|]. by split.
    + rewrite fmap_app in Hnd. apply NoDup_app in Hnd as (_ & Hdisj & _).
      intros Hin. apply (Hdisj k Hin). simpl. left.
Qed.

Lemma plain_fixed_dict d : fixed_dict d → all_of (λ kv, plain kv.1 ∧ plain kv.2) d.
Proof.
  intros [Hall _]. apply all_of_Forall. eapply Forall_impl; [done|].
  intros [k v] [[Hk _] [Hv _]]. done.
Qed.

Lemma _change_version_of_type_is_a_type c r :
  _change_version_of_type W self c D = Ok r → ∃ c', r = AType c'.
Proof.
  unfold _change_version_of_type. destruct (cls_is_schema c).
  - intros (_ & _ & (c' & _ & [= <-])%result_bind_Ok)%result_bind_Ok. by exists c'.
  - intros [= <-]. by exists c.
Qed.

Lemma consistent_types_idempotent :
  version_dir_consistent W self D → type_rewriting_idempotent W self D.
Proof.
  intros Hdir c c' Hfirst. pose proof Hfirst as Hsame. revert Hfirst.
  unfold _change_version_of_type.
  destruct (cls_is_schema c) eqn:Hc; [|intros [= <-]; by rewrite Hc].
  intros (_ & _ & (c1 & Hget & [= ->])%result_bind_Ok)%result_bind_Ok.
  destruct (cls_is_schema c') eqn:Hc'; [|done].
  revert Hget. unfold get_another_version_of_cls.
  destruct (get_another_version_of_module W (cls_module c) D (version_dirs self))
    as [module|] eqn:Hmodule.
  2:{ intros [= <-]. revert Hsame. unfold _change_version_of_type.
      by rewrite Hc'. }
  destruct (module_getattr W module (cls_name c)) as [found|] eqn:Hfound; [|done].
  intros [= ->].
  destruct (Hdir (cls_module c) module (cls_name c) c' Hmodule Hfound Hc')
    as [Hagain Hfile].
  assert (get_another_version_of_cls W self c' D = Ok c') as Hget.
  { unfold get_another_version_of_cls.
    destruct (get_another_version_of_module W (cls_module c') D (version_dirs self))
      as [module'|] eqn:Hmodule'; [|done].
    by rewrite (Hagain module' eq_refl). }
  unfold get_another_version_of_cls in Hget. rewrite Hget.
  destruct (decide (D = latest_version_dir self)) as [HD|HD]; [|done].
  destruct (cls_source_file c') as [source_file|] eqn:Hsource; [|done].
  rewrite _validate_source_file_raises.
  by rewrite decide_False by (by apply Hfile).
Qed.

Lemma stateless_rewrite_fixed_point a :
  type_rewriting_idempotent W self D →
  plain a → ∀ r, pure a = Ok r → fp r.
Proof.
  intros Htype.
  induction a as [items IH|items IH|items IH|origin args IH|oid dep IH uc|args IH
                 | | |c|f IH| |]; intros Hp r; try done;
    cbn [stateless_rewrite].
  - intros (d & Hd & [= <-])%result_bind_Ok.
    assert (fixed_dict d) as Hfd.
    { eapply dict_comprehension_result_fp; [done|done| |done].
      split; [apply Forall_nil_2|apply NoDup_nil_2]. }
    split; [by apply plain_fixed_dict|].
    cbn [stateless_rewrite].
    by rewrite (dict_comprehension_result_fixed d []).
  - intros (rs & Hrs & [= <-])%result_bind_Ok.
    pose proof (mapM_result_fp _ _ IH Hp Hrs) as Hfp.
    split.
    + apply all_of_Forall. eapply Forall_impl; [done|]. by intros ? [? _].
    + cbn [stateless_rewrite]. by rewrite mapM_result_fixed.
  - intros (rs & Hrs & [= <-])%result_bind_Ok.
    pose proof (mapM_result_fp _ _ IH Hp Hrs) as Hfp.
    split.
    + apply all_of_Forall. eapply Forall_impl; [done|]. by intros ? [? _].
    + cbn [stateless_rewrite]. by rewrite mapM_result_fixed.
  - intros (rs & Hrs & [= <-])%result_bind_Ok.
    pose proof (mapM_result_fp _ _ IH Hp Hrs) as Hfp.
    split.
    + apply all_of_Forall. eapply Forall_impl; [done|]. by intros ? [? _].
    + cbn [stateless_rewrite]. by rewrite mapM_result_fixed.
  - intros (rs & Hrs & [= <-])%result_bind_Ok.
    pose proof (mapM_result_fp _ _ IH Hp Hrs) as Hfp.
    split.
    + apply all_of_Forall. eapply Forall_impl; [done|]. by intros ? [? _].
    + cbn [stateless_rewrite]. by rewrite mapM_result_fixed.
  - by intros [= <-].
  - by intros [= <-].
  - intros Hc. destruct (_change_version_of_type_is_a_type c r Hc) as [c' ->].
    split; [done|]. cbn [stateless_rewrite]. by apply (Htype c c').
  - by intros [= <-].
  - by intros [= <-].
Qed.
End plain_annotations.


(** ** The bookkeeping of routes that never existed *)

Lemma routes_remove_other m r l :
  m ∈ l → route_eqb m r = false → m ∈ routes_remove r l.
Proof.
  induction l as [|y l IH]; simpl; [done|]. intros Hin Hne.
  destruct (route_eqb y r) eqn:Hy.
  - apply elem_of_cons in Hin as [->|Hin]; [congruence|done].
  - apply elem_of_cons in Hin as [->|Hin]; [left|right; by apply IH].
Qed.

Lemma route_eqb_true a b :
  route_eqb a b = true → path a = path b ∧ endpoint a = endpoint b ∧ methods a = methods b.
Proof.
  unfold route_eqb. rewrite !andb_true_iff, !bool_decide_eq_true. tauto.
Qed.

Lemma restore_route_keeps vc ins m acc st i d acc' st' :
  kind ins = EndpointExistedInstruction →
  locator_match (endpoint_path ins) (endpoint_methods ins) (endpoint_func_name ins) true d →
  ¬ restorable_by ins m →
  m ∈ st_never_existed st →
  restore_route vc (acc, st) (i, d) = Ok (acc', st') →
  m ∈ st_never_existed st'.
Proof.
  intros Hk (Hp & Hm & _ & Hn) Hnr Hin. unfold restore_route.
  destruct (set_ior acc (methods d)) as [applied|]; [|done]. cbn [mbind result_bind].
  set (d' := set_tags (list_remove_first _DELETED_ROUTE_TAG (tags d)) d).
  assert (path d' = path d ∧ methods d' = methods d ∧ endpoint d' = endpoint d)
    as (Hp' & Hm' & He') by (by destruct d).
  destruct (_get_routes _ _ _ _ _) as [|r [|r2 rest]] eqn:Hfound; [| |done].
  - by intros [= _ <-].
  - intros [= _ <-]. simpl. apply routes_remove_other; [done|].
    destruct (route_eqb m r) eqn:Heq; [|done]. exfalso. apply Hnr.
    apply route_eqb_true in Heq as (Hmp & Hme & Hmm).
    assert (r ∈ [r]) as Hr by left. rewrite <- Hfound in Hr.
    apply elem_of__get_routes in Hr as [_ (Hrp & Hrm & _ & Hrn)].
    specialize (Hrn _ eq_refl).
    split_and!; [done|congruence| |].
    + rewrite Hmm. etrans; [done|]. by rewrite Hm'.
    + intros n Hsome. rewrite Hme, Hrn, He'. by apply Hn.
Qed.

Lemma restore_loop_keeps vc ins m refs acc st acc' st' :
  kind ins = EndpointExistedInstruction →
  Forall (λ ref, locator_match (endpoint_path ins) (endpoint_methods ins)
                   (endpoint_func_name ins) true ref.2) refs →
  ¬ restorable_by ins m →
  m ∈ st_never_existed st →
  foldlM (restore_route vc) (acc, st) refs = Ok (acc', st') →
  m ∈ st_never_existed st'.
Proof.
  intros Hk Hall Hnr. revert acc st.
  induction Hall as [|[i d] refs Hd Hall IH]; intros acc st Hin; cbn [foldlM].
  - by intros [= _ <-].
  - destruct (restore_route vc (acc, st) (i, d)) as [[acc1 st1]|e] eqn:Hr; [|done].
    apply IH. by eapply restore_route_keeps.
Qed.

Lemma _get_routes_refs_match routes p ms n d :
  Forall (λ ref, locator_match p ms n d ref.2) (_get_routes_refs routes p ms n d).
Proof.
  apply Forall_forall. intros [i r] Hin. simpl.
  assert (r ∈ (_get_routes_refs routes p ms n d).*2) as Hr.
  { apply list_elem_of_fmap. by exists (i, r). }
  rewrite _get_routes_refs_values in Hr. by apply elem_of__get_routes in Hr as [_ ?].
Qed.

Lemma foldlM_Ok_inv {S B} (body : S → B → result S) (P : S → Prop) l s s' :
  (∀ s x s', x ∈ l → P s → body s x = Ok s' → P s') →
  P s → foldlM body s l = Ok s' → P s'.
Proof.
  revert s. induction l as [|x l IH]; intros s Hbody HP; simpl.
  - by intros [= <-].
  - destruct (body s x) as [s1|e] eqn:Hb; [|done].
    apply IH; [intros; eapply Hbody; [by right|done..]|].
    eapply Hbody; [left|done..].
Qed.

Lemma process_instruction_keeps vc ins m st applied st' err :
  ¬ restorable_by ins m →
  m ∈ st_never_existed st →
  process_instruction vc st ins = Ok (applied, st', err) →
  m ∈ st_never_existed st'.
Proof.
  intros Hnr Hin. unfold process_instruction.
  destruct (kind ins) as [| |attributes] eqn:Hk.
  - case_bool_decide; [by destruct (method_union _)|].
    destruct (foldlM _ _ _) as [[a r]|e]; [|done]. by intros [= _ <- _].
  - case_bool_decide; [by destruct (method_union _)|].
    destruct (match _validate_no_repetitions_in_routes _ with
              | Ok _ => _ | Raise _ => _ end) as [[]|e]; [|done].
    cbn [mbind result_bind].
    destruct (foldlM _ _ _) as [[a st1]|e] eqn:Hl; [|done]. intros [= _ <- _].
    eapply restore_loop_keeps; [done|apply _get_routes_refs_match|done|done|done].
  - destruct (foldlM _ _ _) as [[a r]|e]; [|done]. by intros [= _ <- _].
Qed.

Lemma apply_instruction_keeps vc ins m st st' :
  ¬ restorable_by ins m →
  m ∈ st_never_existed st →
  apply_instruction vc st ins = Ok st' →
  m ∈ st_never_existed st'.
Proof.
  intros Hnr Hin. unfold apply_instruction.
  destruct (process_instruction vc st ins) as [[[applied st1] err]|e] eqn:Hp; [|done].
  cbn [mbind result_bind]. destruct (check_method_diff _ _ _ _); [|done].
  intros [= <-]. by eapply process_instruction_keeps.
Qed.

Lemma _apply_endpoint_changes_to_router_keeps m st version st' :
  (∀ vc ins, (vc, ins) ∈ instructions_of [version] → ¬ restorable_by ins m) →
  m ∈ st_never_existed st →
  _apply_endpoint_changes_to_router st version = Ok st' →
  m ∈ st_never_existed st'.
Proof.
  intros Hnr. unfold _apply_endpoint_changes_to_router.
  apply (foldlM_Ok_inv _ (λ st, m ∈ st_never_existed st)).
  intros st1 vc st2 Hvc Hin. unfold apply_version_change.
  apply (foldlM_Ok_inv _ (λ st, m ∈ st_never_existed st)); [|done].
  intros st3 ins st4 Hins Hin3. apply apply_instruction_keeps; [|done].
  apply (Hnr (vc_name vc)). unfold instructions_of.
  apply list_elem_of_bind. exists version. split; [|left].
  apply list_elem_of_bind. exists vc. split; [|done].
  apply list_elem_of_fmap. by exists ins.
Qed.

Lemma forM_Ok_inv {S B} (body : S → B → M S) (P : S → Prop) l s t s' t' :
  (∀ s x t s' t', x ∈ l → P s → body s x t = Ok (s', t') → P s') →
  P s → forM body s l t = Ok (s', t') → P s'.
Proof.
  revert s t. induction l as [|x l IH]; intros s t Hbody HP; simpl.
  - by intros [<- _]%ret_Ok.
  - intros (s1 & t1 & Hb & Hrest)%bind_Ok.
    eapply IH; [intros; eapply Hbody; [by right|done..]| |done].
    eapply Hbody; [left|done..].
Qed.

Lemma version_step_keeps W self m ls version t ls' t' :
  (∀ vc ins, (vc, ins) ∈ instructions_of [version] → ¬ restorable_by ins m) →
  m ∈ ls_routes_that_never_existed ls →
  version_step W self ls version t = Ok (ls', t') →
  m ∈ ls_routes_that_never_existed ls'.
Proof.
  intros Hnr Hin. unfold version_step.
  intros (rtr & t1 & _ & (st & t2 & [Hap _]%lift_Ok & [<- _]%ret_Ok)%bind_Ok)%bind_Ok.
  cbn [ls_routes_that_never_existed].
  eapply _apply_endpoint_changes_to_router_keeps; [exact Hnr| |exact Hap]. done.
Qed.

Lemma instructions_of_version versions version vc ins :
  version ∈ versions → (vc, ins) ∈ instructions_of [version] →
  (vc, ins) ∈ instructions_of versions.
Proof.
  intros Hv. unfold instructions_of. rewrite bind_singleton.
  intros Hin. apply list_elem_of_bind. by exists version.
Qed.

Lemma transform_after_loop W self s ls s1 :
  forM (version_step W self) (initial_loop_state self) (versions self) s = Ok (ls, s1) →
  ls_routes_that_never_existed ls ≠ [] →
  transform W self s
  = Raise (Generation (NeverRestored (ls_routes_that_never_existed ls))).
Proof.
  intros Hloop Hne. unfold transform. fold (initial_loop_state self).
  unfold mbind at 1, M_bind at 1. rewrite Hloop.
  by rewrite bool_decide_eq_true_2.
Qed.

Lemma transform_loop_raises W self s e :
  forM (version_step W self) (initial_loop_state self) (versions self) s = Raise e →
  transform W self s = Raise e.
Proof.
  intros Hloop. unfold transform. fold (initial_loop_state self).
  unfold mbind at 1, M_bind at 1. by rewrite Hloop.
Qed.

(** C6: when the loop over the versions is through and the list of routes
    marked as existing only in older versions still has entries, [transform]
    raises the configuration error that carries all of them, and returns
    no mapping.  A marked route that no endpoint-existed instruction of the
    bundle names (by its path, a superset of its methods and, if given, its
    handler name) is still on that list: with such a route [transform]
    never returns a mapping. *)
Theorem never_restored_routes_are_fatal
    (W : World) (self : _EndpointTransformer) (s : tstate) :
  (∀ ls s1,
     forM (version_step W self) (initial_loop_state self) (versions self) s = Ok (ls, s1) →
     ls_routes_that_never_existed ls ≠ [] →
     transform W self s
     = Raise (Generation (NeverRestored (ls_routes_that_never_existed ls))))
  ∧ (∀ m,
       m ∈ routes_that_never_existed self →
       (∀ vc ins, (vc, ins) ∈ instructions_of (versions self) → ¬ restorable_by ins m) →
       (∀ ls s1,
          forM (version_step W self) (initial_loop_state self) (versions self) s
          = Ok (ls, s1) →
          m ∈ ls_routes_that_never_existed ls)
       ∧ ∃ e, transform W self s = Raise e).
Proof.
  split; [apply transform_after_loop|].
  intros m Hm Hnr.
  assert (∀ ls s1,
            forM (version_step W self) (initial_loop_state self) (versions self) s
            = Ok (ls, s1) →
            m ∈ ls_routes_that_never_existed ls) as Hkept.
  { intros ls s1.
    apply (forM_Ok_inv _ (λ ls, m ∈ ls_routes_that_never_existed ls)); [|done].
    intros ls0 version t ls1 t1 Hv Hin. apply version_step_keeps; [|done].
    intros vc ins Hins. apply (Hnr vc). by eapply instructions_of_version. }
  split; [done|].
  destruct (forM (version_step W self) (initial_loop_state self) (versions self) s)
    as [[ls s1]|e] eqn:Hloop.
  - eexists. apply (transform_after_loop W self s ls s1 Hloop).
    intros Hnil. specialize (Hkept ls s1 eq_refl). rewrite Hnil in Hkept.
    by apply elem_of_nil in Hkept.
  - exists e. by apply transform_loop_raises.
Qed.

(** ** What [transform] returns *)

Lemma transform_Ok W self s mapping self' s' :
  transform W self s = Ok (mapping, self', s') →
  ∃ ls s1 parent_routes router_infos,
    forM (version_step W self) (initial_loop_state self) (versions self) s = Ok (ls, s1)
    ∧ ls_routes_that_never_existed ls = []
    ∧ forM (latest_route_step W self)
        (routes (parent_router self), ls_router_infos ls)
        (seq 0 (length (routes (parent_router self)))) s1
      = Ok (parent_routes, router_infos, s')
    ∧ mapping
      = (λ '(version, router_info),
           (version, mk_APIRouter (strip_deleted (routes (router router_info)))))
          <$> router_infos
    ∧ self'
      = mk_EndpointTransformer (mk_APIRouter parent_routes) (versions self)
          (annotation_transformer self) (ls_routes_that_never_existed ls).
Proof.
  unfold transform. fold (initial_loop_state self).
  intros (ls & s1 & Hloop & Hrest)%bind_Ok.
  case_bool_decide as Hne; [done|].
  apply bind_Ok in Hrest as ([parent_routes router_infos] & s2 & Hlatest
                              & [[= <- <-] <-]%ret_Ok).
  exists ls, s1, parent_routes, router_infos. split_and!; try done.
  rewrite <- list_fmap_compose. apply list_fmap_ext. by intros i [v info] _.
Qed.

Lemma elem_of_strip_deleted route routes :
  route ∈ strip_deleted routes →
  route ∈ routes ∧ ∀ r, route = IsAPIRoute r → _DELETED_ROUTE_TAG ∉ tags r.
Proof.
  unfold strip_deleted. rewrite list_elem_of_In, filter_In, <- list_elem_of_In.
  intros [Hin Hkeep]. split; [done|]. intros r ->.
  apply negb_true_iff in Hkeep. unfold is_deleted_route in Hkeep.
  by apply bool_decide_eq_false in Hkeep.
Qed.

(** C1: in every collection of the mapping [transform] returns, no route
    carries the deleted-route marker.  In particular, for the bundle with
    versions 2000-01-01 and 2021-01-01 whose version change at 2021-01-01
    says that [GET /users] didn't exist, generation succeeds, the
    collection of 2021-01-01 contains [/users] and the collection of
    2000-01-01 does not. *)
Theorem no_deleted_route_in_generated_routers :
  (∀ (W : World) (self : _EndpointTransformer) (s s' : tstate)
     (mapping : list (VersionDate * APIRouter)) (self' : _EndpointTransformer),
     transform W self s = Ok (mapping, self', s') →
     ∀ version generated r,
       (version, generated) ∈ mapping →
       IsAPIRoute r ∈ routes generated →
       _DELETED_ROUTE_TAG ∉ tags r)
  ∧ (∃ generated_2021 generated_2000 parent,
       generate_versioned_routers tutorial_world users_router users_bundle
         latest_module 10
       = Ok ([(v2021, generated_2021); (v2000, generated_2000)], parent)
       ∧ (∃ r, IsAPIRoute r ∈ routes generated_2021
               ∧ path r = "/users" ∧ methods r = SetOfMethods {["GET"]})
       ∧ (∀ r, IsAPIRoute r ∈ routes generated_2000 → path r ≠ "/users")).
Proof.
  split.
  - intros W self s s' mapping self'.
    intros (ls & s1 & parent_routes & router_infos & _ & _ & _ & -> & _)%transform_Ok.
    intros version generated r Hin Hr.
    apply list_elem_of_fmap in Hin as ([v info] & [= -> ->] & _).
    apply elem_of_strip_deleted in Hr as [_ Hr]. by apply Hr.
  - eexists _, (mk_APIRouter []), _. split; [by vm_compute|]. split.
    + eexists. split; [left|]. split; reflexivity.
    + intros r Hr. by apply elem_of_nil in Hr.
Qed.

(** ** What [transform] does to the router it was given *)

Lemma _add_request_and_response_params_spec r :
  _add_request_and_response_params r = with_hidden_param_names r.
Proof.
  unfold _add_request_and_response_params, with_hidden_param_names.
  destruct r as [? ? ? ? ? ? ? ? ? ? ? [req resp bp deps] ? ?].
  cbn [dependant request_param_name response_param_name body_params
       dependant_dependencies].
  destruct (truthy req) eqn:Hreq;
    cbn [negb set_dependant set_request_param_name dependant request_param_name
         response_param_name body_params dependant_dependencies];
    destruct (truthy resp) eqn:Hresp;
    cbn [negb set_dependant set_response_param_name dependant request_param_name
         response_param_name body_params dependant_dependencies];
    reflexivity.
Qed.

Lemma latest_route_step_parent W self pr infos k s pr' infos' s' :
  latest_route_step W self (pr, infos) k s = Ok (pr', infos', s') →
  pr' = match pr !! k with
        | Some route => <[k := with_hidden_param_names_in route]> pr
        | None => pr
        end.
Proof.
  unfold latest_route_step.
  destruct (pr !! k) as [[r|o]|] eqn:Hk.
  - intros (infos1 & s1 & _ & [[= <- _] _]%ret_Ok)%bind_Ok.
    by rewrite _add_request_and_response_params_spec.
  - intros [[= <- _] _]%ret_Ok. simpl. by rewrite list_insert_id.
  - by intros [[= <- _] _]%ret_Ok.
Qed.

Lemma latest_loop_parent W self n : ∀ k pr infos s pr' infos' s',
  forM (latest_route_step W self) (pr, infos) (seq k n) s = Ok (pr', infos', s') →
  k + n = length pr →
  pr' = take k pr ++ (with_hidden_param_names_in <$> drop k pr).
Proof.
  induction n as [|n IH]; intros k pr infos s pr' infos' s'; simpl.
  - intros [[= <- _] _]%ret_Ok Hlen.
    rewrite drop_ge by lia. rewrite take_ge by lia. by rewrite app_nil_r.
  - intros ([pr1 infos1] & s1 & Hstep & Hrest)%bind_Ok Hlen.
    apply latest_route_step_parent in Hstep.
    destruct (lookup_lt_is_Some_2 pr k) as [route Hroute]; [lia|].
    rewrite Hroute in Hstep. subst pr1.
    apply IH in Hrest; [|rewrite length_insert; lia]. rewrite Hrest.
    rewrite (take_S_r _ _ (with_hidden_param_names_in route))
      by (apply list_lookup_insert_eq; lia).
    rewrite take_insert_ge by lia. rewrite drop_insert_lt by lia.
    rewrite (drop_S pr route k Hroute). rewrite fmap_cons.
    by rewrite <- app_assoc.
Qed.

Lemma truthy_hidden_names :
  truthy (Some _CADWYN_REQUEST_PARAM_NAME) = true
  ∧ truthy (Some _CADWYN_RESPONSE_PARAM_NAME) = true.
Proof. by vm_compute. Qed.

Lemma with_hidden_param_names_changes r :
  truthy (request_param_name (dependant r)) = false
  ∨ truthy (response_param_name (dependant r)) = false →
  with_hidden_param_names r ≠ r.
Proof.
  unfold with_hidden_param_names.
  destruct r as [? ? ? ? ? ? ? ? ? ? ? [req resp bp deps] ? ?].
  cbn [dependant request_param_name response_param_name body_params
       dependant_dependencies set_dependant].
  destruct truthy_hidden_names as [Hq Hp].
  intros [H|H]; rewrite H; intros [= Heq]; rewrite <- ?Heq in H; congruence.
Qed.

(** C10: [transform] writes to the router it was given.  When it returns,
    every API route of that router is the route it was before with the
    hidden request and response parameter names assigned on its dependant
    wherever the dependant had none, every other route is untouched; so
    the router differs from what it was as soon as one API route lacked
    one of the two names. *)
Theorem transform_assigns_hidden_param_names_on_the_input_router
    (W : World) (self : _EndpointTransformer) (s s' : tstate)
    (mapping : list (VersionDate * APIRouter)) (self' : _EndpointTransformer) :
  transform W self s = Ok (mapping, self', s') →
  routes (parent_router self')
  = with_hidden_param_names_in <$> routes (parent_router self)
  ∧ (∀ r, IsAPIRoute r ∈ routes (parent_router self) →
          truthy (request_param_name (dependant r)) = false
          ∨ truthy (response_param_name (dependant r)) = false →
          parent_router self' ≠ parent_router self).
Proof.
  intros (ls & s1 & parent_routes & router_infos & _ & _ & Hlatest & _ & ->)%transform_Ok.
  apply latest_loop_parent in Hlatest; [|done].
  rewrite take_0, drop_0 in Hlatest. simpl in Hlatest. subst parent_routes.
  split; [done|]. intros r Hin Hmissing Heq. simpl in Heq.
  apply (f_equal routes) in Heq. simpl in Heq.
  apply list_elem_of_lookup in Hin as [i Hi].
  apply (f_equal (λ l, l !! i)) in Heq. cbv beta in Heq.
  unfold BaseRoute in *. rewrite list_lookup_fmap, Hi in Heq.
  cbn [fmap option_fmap option_map with_hidden_param_names_in] in Heq.
  injection Heq as Heq.
  by apply with_hidden_param_names_changes in Hmissing.
Qed.

(** * Further properties *)

(** ** The route of a function *)

Lemma _get_route_from_func_at_Some routes : ∀ k e i r,
  _get_route_from_func_at k routes e = Some (i, r)
  ↔ k ≤ i ∧ routes !! (i - k) = Some (IsAPIRoute r) ∧ endpoint r = e
    ∧ ∀ j r', j < i - k → routes !! j = Some (IsAPIRoute r') → endpoint r' ≠ e.
Proof.
  induction routes as [|route routes IH]; intros k e i r.
  - simpl. split; [done|]. by intros (_ & ? & _).
  - assert (_get_route_from_func_at (S k) routes e = Some (i, r)
            ↔ k < i ∧ (route :: routes) !! (i - k) = Some (IsAPIRoute r) ∧ endpoint r = e
              ∧ ∀ j r', S j < i - k → (route :: routes) !! S j = Some (IsAPIRoute r') →
                        endpoint r' ≠ e) as Hrest.
    { rewrite IH. split.
      - intros (Hle & Hl & He & Hfirst). split; [lia|].
        replace (i - k) with (S (i - S k)) by lia. split_and!; [done|done|].
        intros j r' Hj. apply Hfirst. lia.
      - intros (Hlt & Hl & He & Hfirst). split; [lia|].
        replace (i - k) with (S (i - S k)) in Hl by lia. split_and!; [done|done|].
        intros j r' Hj. apply Hfirst. lia. }
    destruct route as [r0|o]; cbn [_get_route_from_func_at].
    + case_bool_decide as He0.
      * split.
        -- intros [= <- <-]. rewrite Nat.sub_diag. split_and!; [done|done|done|]. lia.
        -- intros (Hle & Hl & He & Hfirst).
           destruct (decide (i = k)) as [->|Hne].
           ++ rewrite Nat.sub_diag in Hl. by injection Hl as <-.
           ++ exfalso. apply (Hfirst 0 r0); [lia|done|done].
      * rewrite Hrest. split.
        -- intros (Hlt & Hl & He & Hfirst). split_and!; [lia|done|done|].
           intros [|j] r' Hj; [by intros [= <-]|by apply Hfirst].
        -- intros (Hle & Hl & He & Hfirst).
           assert (k < i) as Hlt.
           { destruct (decide (i = k)) as [->|]; [|lia].
             rewrite Nat.sub_diag in Hl. injection Hl as <-. done. }
           split_and!; [done|done|done|]. intros j r' Hj. apply Hfirst. lia.
    + rewrite Hrest. split.
      * intros (Hlt & Hl & He & Hfirst). split_and!; [lia|done|done|].
        intros [|j] r' Hj; [done|by apply Hfirst].
      * intros (Hle & Hl & He & Hfirst).
        assert (k < i) as Hlt.
        { destruct (decide (i = k)) as [->|]; [|lia]. by rewrite Nat.sub_diag in Hl. }
        split_and!; [done|done|done|]. intros j r' Hj. apply Hfirst. lia.
Qed.

Lemma _get_route_from_func_at_None routes : ∀ k e,
  _get_route_from_func_at k routes e = None
  ↔ ∀ r, IsAPIRoute r ∈ routes → endpoint r ≠ e.
Proof.
  induction routes as [|route routes IH]; intros k e.
  - split; [|done]. intros _ r Hin. by apply elem_of_nil in Hin.
  - destruct route as [r0|o]; cbn [_get_route_from_func_at].
    + case_bool_decide as He0.
      * split; [done|]. intros H. exfalso. apply (H r0); [left|done].
      * rewrite IH. split.
        -- intros H r [[= ->]|Hin]%elem_of_cons; [done|by apply H].
        -- intros H r Hin. apply H. by right.
    + rewrite IH. split.
      * intros H r [?|Hin]%elem_of_cons; [done|by apply H].
      * intros H r Hin. apply H. by right.
Qed.

(** X1: [_get_route_from_func] returns the first API route of the list whose
    endpoint is the function, with its position, and nothing when no API
    route has that endpoint. *)
Theorem get_route_from_func_finds_the_first_route_of_the_function
    (routes : list BaseRoute) (endpoint_ : func) :
  (∀ i r,
     _get_route_from_func routes endpoint_ = Some (i, r)
     ↔ routes !! i = Some (IsAPIRoute r) ∧ endpoint r = endpoint_
       ∧ ∀ j r', j < i → routes !! j = Some (IsAPIRoute r') → endpoint r' ≠ endpoint_)
  ∧ (_get_route_from_func routes endpoint_ = None
     ↔ ∀ r, IsAPIRoute r ∈ routes → endpoint r ≠ endpoint_).
Proof.
  unfold _get_route_from_func. split; [|apply _get_route_from_func_at_None].
  intros i r. rewrite _get_route_from_func_at_Some, Nat.sub_0_r.
  split; [by intros (_ & ?)|]. intros ?. split; [lia|done].
Qed.

(** ** Marking a route as existing only in older versions *)

Lemma mark_deleted_is_deleted r : is_deleted_route (mark_deleted r) = true.
Proof.
  unfold is_deleted_route. apply bool_decide_eq_true.
  destruct (mark_deleted_fields r) as (_ & _ & _ & ->).
  apply elem_of_app. right. apply list_elem_of_singleton. done.
Qed.

Lemma only_exists_in_older_versions_Ok self e self' :
  only_exists_in_older_versions self e = Ok self' →
  ∃ i r, routes self !! i = Some (IsAPIRoute r) ∧ endpoint r = e
         ∧ (_DELETED_ROUTE_TAG ∉ tags r)
         ∧ (∀ j r', j < i → routes self !! j = Some (IsAPIRoute r') → endpoint r' ≠ e)
         ∧ routes self' = store i (mark_deleted r) (routes self).
Proof.
  unfold only_exists_in_older_versions.
  destruct (_get_route_from_func (routes self) e) as [[i r]|] eqn:Hf; [|done].
  unfold _get_route_from_func in Hf.
  apply _get_route_from_func_at_Some in Hf as (_ & Hl & He & Hfirst).
  rewrite Nat.sub_0_r in Hl, Hfirst.
  destruct (is_deleted_route r) eqn:Hd; [done|]. intros [= <-].
  exists i, r. split_and!; try done.
  unfold is_deleted_route in Hd. by apply bool_decide_eq_false in Hd.
Qed.

(** X2: The marker fails with the lookup error exactly when no API route of
    the router has the function as its endpoint.  When it succeeds, it
    has appended the deleted-route tag to the first route of the function,
    which did not carry the tag, and to no other route; applied to the same
    function again, it fails because the route is deleted already. *)
Theorem only_exists_in_older_versions_marks_one_route_once
    (self : APIRouter) (endpoint_ : func) :
  (only_exists_in_older_versions self endpoint_ = Raise (LookupError (f_name endpoint_))
   ↔ ∀ r, IsAPIRoute r ∈ routes self → endpoint r ≠ endpoint_)
  ∧ (∀ self',
       only_exists_in_older_versions self endpoint_ = Ok self' →
       ∃ i r,
         routes self !! i = Some (IsAPIRoute r) ∧ endpoint r = endpoint_
         ∧ (_DELETED_ROUTE_TAG ∉ tags r)
         ∧ routes self'
           = store i (set_tags (tags r ++ [_DELETED_ROUTE_TAG]) r) (routes self)
         ∧ only_exists_in_older_versions self' endpoint_
           = Raise (CadwynError_already_deleted (f_name endpoint_))).
Proof.
  split.
  - unfold only_exists_in_older_versions.
    destruct (_get_route_from_func (routes self) endpoint_) as [[i r]|] eqn:Hf.
    + split.
      * by destruct (is_deleted_route r).
      * intros Hnone. apply (proj2 (_get_route_from_func_at_None _ 0 _)) in Hnone.
        unfold _get_route_from_func in Hf. congruence.
    + split; [|done]. intros _. unfold _get_route_from_func in Hf.
      exact (proj1 (_get_route_from_func_at_None _ _ _) Hf).
  - intros self' Hok.
    destruct (only_exists_in_older_versions_Ok self endpoint_ self' Hok)
      as (i & r & Hl & He & Ht & Hfirst & Hr).
    exists i, r. split_and!; try done.
    assert (_get_route_from_func (routes self') endpoint_ = Some (i, mark_deleted r)) as Hf.
    { unfold _get_route_from_func. apply _get_route_from_func_at_Some.
      rewrite Nat.sub_0_r, Hr. unfold store. split_and!.
      - lia.
      - apply list_lookup_insert_eq. by eapply lookup_lt_Some.
      - by destruct (mark_deleted_fields r) as (_ & _ & -> & _).
      - intros j r' Hj. rewrite list_lookup_insert_ne by lia. by apply Hfirst. }
    unfold only_exists_in_older_versions. rewrite Hf.
    by rewrite mark_deleted_is_deleted.
Qed.

(** ** The routes the generator expects to be restored *)

Lemma elem_of_api_routes r routes : r ∈ api_routes routes ↔ IsAPIRoute r ∈ routes.
Proof.
  unfold api_routes. rewrite list_elem_of_omap. split.
  - intros ([r'|o] & Hin & [= <-]). done.
  - intros Hin. by exists (IsAPIRoute r).
Qed.

Lemma _EndpointTransformer__init__Ok W parent versions_ module self :
  _EndpointTransformer__init__ W parent versions_ module = Ok self →
  parent_router self = parent ∧ versions self = versions_
  ∧ _AnnotationTransformer__init__ W module versions_ = Ok (annotation_transformer self)
  ∧ routes_that_never_existed self
    = List.filter is_deleted_route (api_routes (routes parent)).
Proof.
  unfold _EndpointTransformer__init__.
  destruct (_AnnotationTransformer__init__ W module versions_) as [t|e]; [|done].
  by intros [= <-].
Qed.

(** X3: The constructor of the generator records, in the order of the router,
    exactly the API routes that carry the deleted-route tag; a route marked
    with [only_exists_in_older_versions] is among them. *)
Theorem routes_marked_for_older_versions_are_recorded
    (W : World) (router_ marked : APIRouter) (endpoint_ : func)
    (versions_ : VersionBundle) (latest_schemas_module : ModuleType)
    (self : _EndpointTransformer) :
  only_exists_in_older_versions router_ endpoint_ = Ok marked →
  _EndpointTransformer__init__ W marked versions_ latest_schemas_module = Ok self →
  (∀ r, r ∈ routes_that_never_existed self
        ↔ IsAPIRoute r ∈ routes marked ∧ _DELETED_ROUTE_TAG ∈ tags r)
  ∧ ∃ r, r ∈ routes_that_never_existed self ∧ endpoint r = endpoint_.
Proof.
  intros Hmark Hinit.
  apply _EndpointTransformer__init__Ok in Hinit as (_ & _ & _ & Hrec).
  assert (∀ r, r ∈ routes_that_never_existed self
               ↔ IsAPIRoute r ∈ routes marked ∧ _DELETED_ROUTE_TAG ∈ tags r) as Hiff.
  { intros r. rewrite Hrec, list_elem_of_In, filter_In, <- list_elem_of_In.
    rewrite elem_of_api_routes. unfold is_deleted_route.
    by rewrite bool_decide_eq_true. }
  split; [done|].
  apply only_exists_in_older_versions_Ok in Hmark
    as (i & r & Hl & He & _ & _ & Hr).
  exists (mark_deleted r). split.
  - apply Hiff. split.
    + rewrite Hr. unfold store. apply list_elem_of_lookup. exists i.
      apply list_lookup_insert_eq. by eapply lookup_lt_Some.
    + pose proof (mark_deleted_is_deleted r) as Hd.
      unfold is_deleted_route in Hd. by apply bool_decide_eq_true in Hd.
  - by destruct (mark_deleted_fields r) as (_ & _ & -> & _).
Qed.

(** ** Routes that repeat a path and a set of methods *)

Lemma validate_loop (pre rs : list APIRoute) (m : gmap (string * gset string) APIRoute) :
  NoDup (_EndpointInfo <$> pre) →
  (∀ k r, m !! k = Some r ↔ r ∈ pre ∧ _EndpointInfo r = k) →
  match foldlM
          (λ (route_map : gmap (string * gset string) APIRoute) route,
             let route_info := (path route, set_ (methods route)) in
             match route_map !! route_info with
             | Some other => Raise (RouteAlreadyExistsError route other)
             | None => Ok (<[route_info := route]> route_map)
             end) m rs with
  | Ok _ => NoDup (_EndpointInfo <$> (pre ++ rs))
  | Raise e =>
      ∃ mid post r1 r2,
        rs = mid ++ r1 :: post ∧ e = RouteAlreadyExistsError r1 r2
        ∧ r2 ∈ pre ++ mid ∧ _EndpointInfo r2 = _EndpointInfo r1
        ∧ NoDup (_EndpointInfo <$> (pre ++ mid))
  end.
Proof.
  revert pre m. induction rs as [|r rs IH]; intros pre m Hnd Hm; cbn [foldlM].
  - by rewrite app_nil_r.
  - change (path r, set_ (methods r)) with (_EndpointInfo r).
    destruct (m !! _EndpointInfo r) as [other|] eqn:Hl.
    + apply Hm in Hl as [Hin Hkey].
      exists [], rs, r, other. rewrite app_nil_r. done.
    + assert (NoDup (_EndpointInfo <$> (pre ++ [r]))) as Hnd'.
      { rewrite fmap_app. apply NoDup_app. split_and!; [done| |apply NoDup_singleton].
        intros k Hk ->%list_elem_of_singleton.
        apply list_elem_of_fmap in Hk as (r' & Hkey & Hin).
        assert (m !! _EndpointInfo r = Some r') as Hsome by (by apply Hm).
        congruence. }
      specialize (IH (pre ++ [r]) (<[_EndpointInfo r := r]> m) Hnd').
      rewrite <- (app_assoc pre [r] rs) in IH. cbn [app] in IH.
      destruct (foldlM _ _ rs) as [m'|e].
      * apply IH. intros k r'. rewrite elem_of_app, list_elem_of_singleton.
        destruct (decide (k = _EndpointInfo r)) as [->|Hne].
        -- rewrite lookup_insert_eq. split.
           ++ intros [= <-]. split; [by right|done].
           ++ intros [[Hin| ->] Hkey]; [|done].
              assert (m !! _EndpointInfo r = Some r') as Hsome by (by apply Hm).
              congruence.
        -- rewrite lookup_insert_ne by done. rewrite Hm. split.
           ++ intros [? ?]. split; [by left|done].
           ++ intros [[Hin| ->] Hkey]; [done|congruence].
      * destruct IH as (mid & post & r1 & r2 & -> & -> & Hin & Hkey & Hnd2).
        { intros k r'. rewrite elem_of_app, list_elem_of_singleton.
          destruct (decide (k = _EndpointInfo r)) as [->|Hne].
          -- rewrite lookup_insert_eq. split.
             ++ intros [= <-]. split; [by right|done].
             ++ intros [[Hin| ->] Hkey]; [|done].
                assert (m !! _EndpointInfo r = Some r') as Hsome by (by apply Hm).
                congruence.
          -- rewrite lookup_insert_ne by done. rewrite Hm. split.
             ++ intros [? ?]. split; [by left|done].
             ++ intros [[Hin| ->] Hkey]; [done|congruence]. }
        exists (r :: mid), post, r1, r2.
        rewrite <- (app_assoc pre [r] mid) in Hin, Hnd2. done.
Qed.

Lemma _validate_no_repetitions_in_routes_outcome rs :
  match _validate_no_repetitions_in_routes rs with
  | Ok _ => NoDup (_EndpointInfo <$> rs)
  | Raise e =>
      ∃ mid post r1 r2,
        rs = mid ++ r1 :: post ∧ e = RouteAlreadyExistsError r1 r2
        ∧ r2 ∈ mid ∧ _EndpointInfo r2 = _EndpointInfo r1
        ∧ NoDup (_EndpointInfo <$> mid)
  end.
Proof.
  unfold _validate_no_repetitions_in_routes.
  pose proof (validate_loop [] rs ∅ (NoDup_nil_2)) as H. cbn [app] in H.
  destruct (foldlM _ ∅ rs) as [m|e]; cbn [mbind result_bind]; apply H.
  - intros k r. rewrite lookup_empty. split; [done|]. intros [Hin _].
    by apply elem_of_nil in Hin.
  - intros k r. rewrite lookup_empty. split; [done|]. intros [Hin _].
    by apply elem_of_nil in Hin.
Qed.

(** X4: [_validate_no_repetitions_in_routes] accepts a list of routes exactly
    when no two of them have the same path and the same set of methods.
    Otherwise it raises at the first route that repeats an earlier one; the
    error carries that route and the earlier route it repeats. *)
Theorem validate_no_repetitions_accepts_exactly_distinct_routes (routes : list APIRoute) :
  (_validate_no_repetitions_in_routes routes = Ok ()
   ↔ NoDup ((λ r, (path r, set_ (methods r))) <$> routes))
  ∧ (∀ e,
       _validate_no_repetitions_in_routes routes = Raise e →
       ∃ before after route earlier,
         routes = before ++ route :: after
         ∧ e = RouteAlreadyExistsError route earlier
         ∧ earlier ∈ before
         ∧ path earlier = path route
         ∧ set_ (methods earlier) = set_ (methods route)
         ∧ NoDup ((λ r, (path r, set_ (methods r))) <$> before)).
Proof.
  pose proof (_validate_no_repetitions_in_routes_outcome routes) as H.
  change (λ r, (path r, set_ (methods r))) with _EndpointInfo.
  destruct (_validate_no_repetitions_in_routes routes) as [[]|e].
  - split; [done|]. intros e [=].
  - destruct H as (mid & post & r1 & r2 & -> & -> & Hin & Hkey & Hnd).
    split.
    + split; [done|]. rewrite fmap_app, fmap_cons. intros Hnd'.
      apply NoDup_app in Hnd' as (_ & Hdisj & _). exfalso.
      apply (Hdisj (_EndpointInfo r2)); [by apply list_elem_of_fmap_2|].
      rewrite Hkey. left.
    + intros e [= <-]. exists mid, post, r1, r2.
      injection Hkey as Hp Hm. done.
Qed.

(** ** Endpoint-existed instructions *)

Lemma restore_loop_raises vc refs acc st e :
  foldlM (restore_route vc) (acc, st) refs = Raise e →
  (∃ ms p names, e = Generation (SeveralNeverExistedRoutes ms p vc names))
  ∨ (e = TypeError ∧ Exists has_method_list refs.*2).
Proof.
  revert acc st. induction refs as [|[i r] refs IH]; intros acc st; [done|].
  cbn [foldlM fmap list_fmap snd].
  destruct (restore_route vc (acc, st) (i, r)) as [[acc1 st1]|e1] eqn:Hr.
  - intros [?|[-> ?]]%IH; [by left|right]. split; [done|by apply Exists_cons_tl].
  - intros [= <-]. unfold restore_route in Hr.
    destruct (decide (has_method_set r)) as [Hs|Hs].
    + rewrite set_ior_set in Hr by done. cbn [mbind result_bind] in Hr.
      match type of Hr with
      | context [match ?found with [] => _ | _ => _ end] =>
          destruct found as [|r1 [|r2 rest]]
      end; [done|done|]. injection Hr as <-. left. by eexists _, _, _.
    + rewrite set_ior_list in Hr by done. injection Hr as <-. right.
      split; [done|]. apply Exists_cons_hd. by apply not_has_method_set.
Qed.

Lemma restore_loop_routes vc refs acc st acc' st' :
  foldlM (restore_route vc) (acc, st) refs = Ok (acc', st') →
  st_routes st'
  = fold_left (λ routes '(i, r), store i (unmark_deleted r) routes) refs (st_routes st).
Proof.
  revert acc st. induction refs as [|[i r] refs IH]; intros acc st; cbn [foldlM].
  - by intros [= _ <-].
  - pose proof (restore_route_spec vc acc st i r) as H.
    destruct (restore_route vc (acc, st) (i, r)) as [[acc1 st1]|e]; [|done].
    destruct H as (_ & _ & H). intros Hrest. rewrite (IH _ _ Hrest), H. done.
Qed.

Lemma same_path_NoDup (rs : list APIRoute) p :
  Forall (λ r, path r = p) rs →
  NoDup (_EndpointInfo <$> rs) ↔ NoDup ((λ r, set_ (methods r)) <$> rs).
Proof.
  intros Hall.
  assert (_EndpointInfo <$> rs = (p,.) <$> ((λ r, set_ (methods r)) <$> rs)) as ->.
  { rewrite <- list_fmap_compose. apply Forall_fmap_ext_1.
    eapply Forall_impl; [done|]. intros r <-. done. }
  split; [|apply NoDup_fmap_2; by intros ? ? [=]].
  apply NoDup_fmap_1.
Qed.

Lemma _get_routes_same_path routes p ms n d :
  Forall (λ r, path r = p) (_get_routes routes p ms n d).
Proof.
  apply Forall_forall. intros r Hr. by apply elem_of__get_routes in Hr as [_ [? _]].
Qed.

Section existed.
Context (vc : string) (st : applier_state) (ins : instruction).
Context (Hkind : kind ins = EndpointExistedInstruction).

#[local] Abbreviation found d :=
  (_get_routes (st_routes st) (endpoint_path ins) (endpoint_methods ins)
     (endpoint_func_name ins) d).

Lemma apply_existed_active :
  found false ≠ [] →
  apply_instruction vc st ins
  = if decide (Forall has_method_set (found false)) then
      Raise (Generation (AlreadyExisted (method_union_of (found false))
               (endpoint_path ins) vc ((λ r, f_name (endpoint r)) <$> found false)))
    else Raise TypeError.
Proof using Hkind.
  intros Hne. unfold apply_instruction, process_instruction. rewrite Hkind.
  rewrite bool_decide_eq_true_2.
  - rewrite _get_routes_refs_values, method_union_outcome. by destruct (decide _).
  - intros Hnil. apply Hne. by rewrite <- _get_routes_refs_values, Hnil.
Qed.

(** What remains of the instruction when no active route matches. *)
Lemma apply_existed_no_active :
  found false = [] →
  apply_instruction vc st ins
  = match _validate_no_repetitions_in_routes (found true) with
    | Raise (RouteAlreadyExistsError r1 r2) =>
        Raise (Generation (SeveralApplicableRoutes (endpoint_methods ins)
                 (endpoint_path ins) vc [f_name (endpoint r1); f_name (endpoint r2)]))
    | Raise e => Raise e
    | Ok _ =>
        match foldlM (restore_route vc) (∅, st)
                (_get_routes_refs (st_routes st) (endpoint_path ins)
                   (endpoint_methods ins) (endpoint_func_name ins) true) with
        | Ok (applied, st') =>
            if bool_decide (endpoint_methods ins ∖ applied ≠ ∅) then
              Raise (Generation (RestoredWasntDeleted (endpoint_methods ins ∖ applied)
                       (endpoint_path ins) vc))
            else Ok st'
        | Raise e => Raise e
        end
    end.
Proof using Hkind.
  intros Hnil. unfold apply_instruction, process_instruction. rewrite Hkind.
  rewrite bool_decide_eq_false_2.
  2:{ intros Hne. apply Hne. rewrite <- _get_routes_refs_values in Hnil.
      by destruct (_get_routes_refs _ _ _ _ _). }
  rewrite _get_routes_refs_values.
  destruct (_validate_no_repetitions_in_routes (found true)) as [[]|e] eqn:Hv.
  - cbn [mbind result_bind].
    destruct (foldlM _ _ _) as [[applied st']|e]; [|done].
    cbn [mbind result_bind]. unfold check_method_diff. by case_bool_decide.
  - apply _validate_no_repetitions_in_routes_raises in Hv as (r1 & r2 & ->). done.
Qed.
End existed.

(** X5: An endpoint-existed instruction that matches a route which is still
    active raises the double-restoration error, which carries the methods
    and handler names of the active matches, the path and the name of the
    version change; if an endpoint-had instruction has replaced the methods
    of an active match by a list, the union of the methods fails first,
    with a [TypeError]; without an active match the instruction never
    raises the double-restoration error. *)
Theorem existed_on_active_route_raises
    (version_change : string) (st : applier_state) (ins : instruction) :
  kind ins = EndpointExistedInstruction →
  let active :=
    _get_routes (st_routes st) (endpoint_path ins) (endpoint_methods ins)
      (endpoint_func_name ins) false in
  (active ≠ [] →
   apply_instruction version_change st ins
   = if decide (Forall has_method_set active) then
       Raise (Generation (AlreadyExisted (method_union_of active) (endpoint_path ins)
                version_change ((λ r, f_name (endpoint r)) <$> active)))
     else Raise TypeError)
  ∧ (active = [] →
     ∀ mu p vc names,
       apply_instruction version_change st ins
       ≠ Raise (Generation (AlreadyExisted mu p vc names))).
Proof.
  intros Hk active. split; [by apply apply_existed_active|].
  intros Hnil mu p vc names. rewrite apply_existed_no_active by done.
  destruct (_validate_no_repetitions_in_routes _) as [[]|e] eqn:Hv.
  - destruct (foldlM _ _ _) as [[applied st']|e] eqn:Hl.
    + by case_bool_decide.
    + apply restore_loop_raises in Hl as [(? & ? & ? & ->)|[-> _]]; done.
  - apply _validate_no_repetitions_in_routes_raises in Hv as (r1 & r2 & ->). done.
Qed.

(** X6: An endpoint-existed instruction with no active match fails with the
    ambiguous-restoration error exactly when two of the deleted routes it
    matches have the same set of methods; the error names the handlers of
    such a pair, the later route first. *)
Theorem existed_with_two_candidates_raises
    (version_change : string) (st : applier_state) (ins : instruction) :
  kind ins = EndpointExistedInstruction →
  _get_routes (st_routes st) (endpoint_path ins) (endpoint_methods ins)
    (endpoint_func_name ins) false = [] →
  let deleted :=
    _get_routes (st_routes st) (endpoint_path ins) (endpoint_methods ins)
      (endpoint_func_name ins) true in
  (¬ NoDup ((λ r, set_ (methods r)) <$> deleted) →
   ∃ before after route earlier,
     deleted = before ++ route :: after ∧ earlier ∈ before
     ∧ set_ (methods earlier) = set_ (methods route)
     ∧ apply_instruction version_change st ins
       = Raise (Generation (SeveralApplicableRoutes (endpoint_methods ins)
                  (endpoint_path ins) version_change
                  [f_name (endpoint route); f_name (endpoint earlier)])))
  ∧ (NoDup ((λ r, set_ (methods r)) <$> deleted) →
     ∀ ms p vc names,
       apply_instruction version_change st ins
       ≠ Raise (Generation (SeveralApplicableRoutes ms p vc names))).
Proof.
  intros Hk Hnil deleted.
  pose proof (_validate_no_repetitions_in_routes_outcome deleted) as Hv.
  pose proof (same_path_NoDup deleted (endpoint_path ins)
                (_get_routes_same_path _ _ _ _ _)) as Hnd.
  rewrite apply_existed_no_active by done. fold deleted.
  destruct (_validate_no_repetitions_in_routes deleted) as [[]|e].
  - split; [intros Hdup; exfalso; by apply Hdup, Hnd|].
    intros _ ms p vc names.
    destruct (foldlM _ _ _) as [[applied st']|e] eqn:Hl.
    + by case_bool_decide.
    + apply restore_loop_raises in Hl as [(? & ? & ? & ->)|[-> _]]; done.
  - destruct Hv as (mid & post & r1 & r2 & Hd & -> & Hin & Hkey & _).
    split.
    + intros _. exists mid, post, r1, r2. injection Hkey as _ Hm. done.
    + intros Hnodup. exfalso. apply Hnd in Hnodup. rewrite Hd in Hnodup.
      rewrite fmap_app, fmap_cons in Hnodup.
      apply NoDup_app in Hnodup as (_ & Hdisj & _).
      apply (Hdisj (_EndpointInfo r2)); [by apply list_elem_of_fmap_2|].
      rewrite Hkey. left.
Qed.

(** ** Deleting and restoring *)

Lemma list_remove_first_app_singleton {A} `{EqDecision A} (x : A) (l : list A) :
  x ∉ l → list_remove_first x (l ++ [x]) = l.
Proof.
  induction l as [|y l IH]; simpl; intros Hnin.
  - by rewrite decide_True.
  - rewrite decide_False by (intros ->; apply Hnin; left).
    rewrite IH; [done|]. intros ?. apply Hnin. by right.
Qed.

Lemma unmark_mark_deleted r :
  _DELETED_ROUTE_TAG ∉ tags r → unmark_deleted (mark_deleted r) = r.
Proof.
  intros Hnin. unfold unmark_deleted.
  destruct (mark_deleted_fields r) as (_ & _ & _ & ->).
  rewrite list_remove_first_app_singleton by done. by destruct r.
Qed.

Lemma apply_didnt_exist_Ok vc st ins st' :
  kind ins = EndpointDidntExistInstruction →
  apply_instruction vc st ins = Ok st' →
  _get_routes (st_routes st) (endpoint_path ins) (endpoint_methods ins)
    (endpoint_func_name ins) true = []
  ∧ st_routes st' = routes_after_delete ins (st_routes st)
  ∧ st_never_existed st' = st_never_existed st.
Proof.
  intros Hk Hok.
  assert (_get_routes (st_routes st) (endpoint_path ins) (endpoint_methods ins)
            (endpoint_func_name ins) true = []) as Hnil.
  { destruct (_get_routes _ _ _ _ true) eqn:Hd; [done|].
    unfold apply_instruction, process_instruction in Hok.
    rewrite Hk, Hd in Hok. rewrite bool_decide_eq_true_2 in Hok by done.
    by destruct (method_union _). }
  split; [done|]. rewrite apply_didnt_exist in Hok by done. cbn zeta in Hok.
  destruct (decide _); [|done].
  case_bool_decide; [done|]. by injection Hok as <-.
Qed.

Lemma apply_existed_Ok vc st ins st' :
  kind ins = EndpointExistedInstruction →
  apply_instruction vc st ins = Ok st' →
  st_routes st' = routes_after_restore ins (st_routes st).
Proof.
  intros Hk Hok.
  destruct (_get_routes (st_routes st) (endpoint_path ins) (endpoint_methods ins)
              (endpoint_func_name ins) false) eqn:Hactive.
  2:{ rewrite apply_existed_active in Hok; [by destruct (decide _)|done|].
      by rewrite Hactive. }
  rewrite apply_existed_no_active in Hok by done.
  destruct (_validate_no_repetitions_in_routes _) as [[]|e] eqn:Hv.
  2:{ apply _validate_no_repetitions_in_routes_raises in Hv as (r1 & r2 & ->). done. }
  destruct (foldlM _ _ _) as [[applied st1]|e] eqn:Hl; [|done].
  case_bool_decide; [done|]. injection Hok as <-.
  rewrite (restore_loop_routes _ _ _ _ _ _ Hl). apply store_through_refs.
Qed.

Lemma restore_after_delete del res routes :
  endpoint_path res = endpoint_path del →
  endpoint_methods res = endpoint_methods del →
  endpoint_func_name res = endpoint_func_name del →
  _get_routes routes (endpoint_path del) (endpoint_methods del)
    (endpoint_func_name del) true = [] →
  routes_after_restore res (routes_after_delete del routes) = routes.
Proof.
  intros Hp Hm Hn Hnil. unfold routes_after_restore, routes_after_delete.
  rewrite Hp, Hm, Hn. clear Hp Hm Hn.
  rewrite <- list_fmap_compose. rewrite <- (list_fmap_id routes) at 2.
  apply list_fmap_ext. intros i route Hi. cbn [compose id].
  destruct (route_matches _ _ _ false route) as [r|] eqn:Hm.
  - apply route_matches_Some in Hm as [-> Hm].
    rewrite (proj2 (route_matches_Some _ _ _ _ _ _)
               (conj eq_refl (mark_deleted_matches _ _ _ _ Hm))).
    rewrite unmark_mark_deleted; [done|].
    destruct Hm as (_ & _ & Hd & _). intros Hin. by apply Hd in Hin.
  - destruct (route_matches _ _ _ true route) as [r|] eqn:Hd; [|done].
    exfalso. assert (r ∈ _get_routes routes (endpoint_path del) (endpoint_methods del)
                           (endpoint_func_name del) true) as Hin.
    { rewrite _get_routes_omap. apply list_elem_of_omap. exists route.
      split; [|done]. by eapply list_elem_of_lookup_2. }
    rewrite Hnil in Hin. by apply elem_of_nil in Hin.
Qed.

(** X7: Restoring undoes deleting: when an endpoint-didn't-exist instruction
    and then an endpoint-existed instruction for the same path, methods and
    handler name both go through, the routes are what they were before the
    two, every attribute of every route included. *)
Theorem restoring_a_deleted_endpoint_gives_back_the_routes
    (vc vc' : string) (st st1 st2 : applier_state) (del res : instruction) :
  kind del = EndpointDidntExistInstruction →
  kind res = EndpointExistedInstruction →
  endpoint_path res = endpoint_path del →
  endpoint_methods res = endpoint_methods del →
  endpoint_func_name res = endpoint_func_name del →
  apply_instruction vc st del = Ok st1 →
  apply_instruction vc' st1 res = Ok st2 →
  st_routes st2 = st_routes st.
Proof.
  intros Hkd Hkr Hp Hm Hn Hdel Hres.
  apply apply_didnt_exist_Ok in Hdel as (Hnil & Hr1 & _); [|done].
  apply apply_existed_Ok in Hres; [|done].
  rewrite Hres, Hr1. by apply restore_after_delete.
Qed.

(** ** The list of routes to restore *)

Lemma routes_remove_sublist x l : routes_remove x l `sublist_of` l.
Proof.
  induction l as [|y l IH]; simpl; [done|].
  destruct (route_eqb y x); [by apply sublist_cons|by apply sublist_skip].
Qed.

Lemma restore_route_shrinks vc acc st ref acc' st' :
  restore_route vc (acc, st) ref = Ok (acc', st') →
  st_never_existed st' `sublist_of` st_never_existed st.
Proof.
  destruct ref as [i d]. unfold restore_route.
  destruct (set_ior acc (methods d)) as [applied|]; [|done]. cbn [mbind result_bind].
  destruct (_get_routes _ _ _ _ _) as [|r [|r2 rest]]; [| |done].
  - by intros [= _ <-].
  - intros [= _ <-]. apply routes_remove_sublist.
Qed.

Lemma restore_loop_shrinks vc refs acc st acc' st' :
  foldlM (restore_route vc) (acc, st) refs = Ok (acc', st') →
  st_never_existed st' `sublist_of` st_never_existed st.
Proof.
  revert acc st. induction refs as [|ref refs IH]; intros acc st; cbn [foldlM].
  - by intros [= _ <-].
  - destruct (restore_route vc (acc, st) ref) as [[acc1 st1]|e] eqn:Hr; [|done].
    intros Hrest. etrans; [by eapply IH|by eapply restore_route_shrinks].
Qed.

Lemma process_instruction_shrinks vc st ins applied st' err :
  process_instruction vc st ins = Ok (applied, st', err) →
  st_never_existed st' `sublist_of` st_never_existed st
  ∧ (kind ins ≠ EndpointExistedInstruction → st_never_existed st' = st_never_existed st).
Proof.
  unfold process_instruction. destruct (kind ins) as [| |attributes] eqn:Hk.
  - case_bool_decide; [by destruct (method_union _)|].
    destruct (foldlM _ _ _) as [[a r]|e]; [|done]. by intros [= _ <- _].
  - case_bool_decide; [by destruct (method_union _)|].
    destruct (match _validate_no_repetitions_in_routes _ with
              | Ok _ => _ | Raise _ => _ end) as [[]|e]; [|done].
    cbn [mbind result_bind].
    destruct (foldlM _ _ _) as [[a st1]|e] eqn:Hl; [|done]. intros [= _ <- _].
    split; [by eapply restore_loop_shrinks|done].
  - destruct (foldlM _ _ _) as [[a r]|e]; [|done]. by intros [= _ <- _].
Qed.

Lemma apply_instruction_shrinks vc st ins st' :
  apply_instruction vc st ins = Ok st' →
  st_never_existed st' `sublist_of` st_never_existed st
  ∧ (kind ins ≠ EndpointExistedInstruction → st_never_existed st' = st_never_existed st).
Proof.
  unfold apply_instruction.
  destruct (process_instruction vc st ins) as [[[applied st1] err]|e] eqn:Hp; [|done].
  cbn [mbind result_bind]. destruct (check_method_diff _ _ _ _); [|done].
  intros [= <-]. by eapply process_instruction_shrinks.
Qed.

(** X8: The structural instructions of a version never add a route to the
    list of routes that have yet to be restored, and never reorder it; only
    an endpoint-existed instruction takes routes off the list. *)
Theorem endpoint_changes_only_shrink_the_routes_to_restore
    (st st' : applier_state) (version : Version) :
  _apply_endpoint_changes_to_router st version = Ok st' →
  st_never_existed st' `sublist_of` st_never_existed st
  ∧ ((∀ vc ins, (vc, ins) ∈ instructions_of [version] →
                kind ins ≠ EndpointExistedInstruction) →
     st_never_existed st' = st_never_existed st).
Proof.
  intros Hok. split.
  - revert Hok. unfold _apply_endpoint_changes_to_router.
    apply (foldlM_Ok_inv _ (λ s, st_never_existed s `sublist_of` st_never_existed st));
      [|done].
    intros st1 vc st2 _ H1. unfold apply_version_change.
    apply (foldlM_Ok_inv _ (λ s, st_never_existed s `sublist_of` st_never_existed st));
      [|done].
    intros st3 ins st4 _ H3 Hins. etrans; [|done].
    by apply apply_instruction_shrinks in Hins as [? _].
  - intros Hnone. revert Hok. unfold _apply_endpoint_changes_to_router.
    apply (foldlM_Ok_inv _ (λ s, st_never_existed s = st_never_existed st)); [|done].
    intros st1 vc st2 Hvc H1. unfold apply_version_change.
    apply (foldlM_Ok_inv _ (λ s, st_never_existed s = st_never_existed st)); [|done].
    intros st3 ins st4 Hin H3 Hins. rewrite <- H3.
    apply apply_instruction_shrinks in Hins as [_ Heq]. apply Heq.
    apply (Hnone (vc_name vc)). unfold instructions_of.
    apply list_elem_of_bind. exists version. split; [|left].
    apply list_elem_of_bind. exists vc. split; [|done].
    apply list_elem_of_fmap. by exists ins.
Qed.

(** ** Routes stay in their places *)

Lemma corresponds_refl same : (∀ r, same r r) → ∀ route, corresponds same route route.
Proof. intros H [r|o]; simpl; done. Qed.

Lemma corresponds_trans same :
  (∀ a b c, same a b → same b c → same a c) →
  ∀ a b c, corresponds same a b → corresponds same b c → corresponds same a c.
Proof.
  intros H [r1|o1] [r2|o2] [r3|o3]; simpl; try done; [apply H|congruence].
Qed.

Lemma Forall2_corresponds_refl same l :
  (∀ r, same r r) → Forall2 (corresponds same) l l.
Proof. intros H. apply Forall_Forall2_diag, Forall_forall. intros. by apply corresponds_refl. Qed.

Lemma Forall2_corresponds_trans same l1 l2 l3 :
  (∀ a b c, same a b → same b c → same a c) →
  Forall2 (corresponds same) l1 l2 → Forall2 (corresponds same) l2 l3 →
  Forall2 (corresponds same) l1 l3.
Proof.
  intros H H12 H23. eapply Forall2_trans; [|done|done].
  intros a b c. by apply corresponds_trans.
Qed.

Lemma same_endpoint_trans a b c : same_endpoint a b → same_endpoint b c → same_endpoint a c.
Proof. unfold same_endpoint. intros [-> ->] [-> ->]. done. Qed.

Lemma _get_routes_refs_lookup routes p ms n d i r :
  (i, r) ∈ _get_routes_refs routes p ms n d → routes !! i = Some (IsAPIRoute r).
Proof.
  rewrite _get_routes_refs_omap, list_elem_of_omap.
  intros ([j route] & Hin & Hm).
  apply elem_of_lookup_imap in Hin as (j' & route' & [= -> ->] & Hl).
  destruct (route_matches p ms n d route') as [r'|] eqn:Hr; [|done].
  injection Hm as -> ->. by apply route_matches_Some in Hr as [-> _].
Qed.

Lemma map_matches_corresponds (h : BaseRoute → option APIRoute) (g : APIRoute → APIRoute)
    routes :
  (∀ route r, h route = Some r → route = IsAPIRoute r) →
  (∀ r, same_endpoint r (g r)) →
  Forall2 (corresponds same_endpoint) routes
    ((λ route, match h route with Some r => IsAPIRoute (g r) | None => route end)
       <$> routes).
Proof.
  intros Hh Hg. apply Forall2_fmap_r, Forall_Forall2_diag, Forall_forall.
  intros route _. cbn [compose]. destruct (h route) as [r|] eqn:Hr.
  - apply Hh in Hr as ->. simpl. apply Hg.
  - by apply corresponds_refl.
Qed.

Lemma _apply_endpoint_had_instruction_endpoint vc attributes r r' :
  _apply_endpoint_had_instruction vc attributes r = Ok r' → same_endpoint r r'.
Proof.
  intros Hok.
  apply (had_preserves vc attributes (same_endpoint r) __dataclass_fields__ r r');
    [|done|done].
  intros fld v x Hin [Hx Hu]. unfold same_endpoint. rewrite <- Hx, <- Hu.
  unfold __dataclass_fields__ in Hin.
  repeat (apply elem_of_cons in Hin as [->|Hin]; [by destruct x|]).
  by apply elem_of_nil in Hin.
Qed.

Lemma had_loop_corresponds vc attributes routes0 refs acc routes acc' routes' :
  (∀ i r, (i, r) ∈ refs → routes0 !! i = Some (IsAPIRoute r)) →
  Forall2 (corresponds same_endpoint) routes0 routes →
  foldlM
    (λ '(applied, routes) '(i, original_route),
       applied ← set_ior applied (methods original_route);
       r' ← _apply_endpoint_had_instruction vc attributes original_route;
       Ok (applied, store i r' routes))
    (acc, routes) refs = Ok (acc', routes') →
  Forall2 (corresponds same_endpoint) routes0 routes'.
Proof.
  revert acc routes. induction refs as [|[i r] refs IH]; intros acc routes Hrefs Hcor;
    cbn [foldlM].
  - by intros [= _ <-].
  - destruct (set_ior acc (methods r)) as [applied|]; [|done]. cbn [mbind result_bind].
    destruct (_apply_endpoint_had_instruction vc attributes r) as [r1|e] eqn:Hh; [|done].
    cbn [mbind result_bind]. apply IH.
    + intros j x Hin. apply Hrefs. by right.
    + unfold store. rewrite <- (list_insert_id routes0 i (IsAPIRoute r))
        by (apply Hrefs; left).
      apply Forall2_insert; [done|].
      simpl. by eapply _apply_endpoint_had_instruction_endpoint.
Qed.

Lemma process_instruction_corresponds vc st ins applied st' err :
  process_instruction vc st ins = Ok (applied, st', err) →
  Forall2 (corresponds same_endpoint) (st_routes st) (st_routes st').
Proof.
  unfold process_instruction. destruct (kind ins) as [| |attributes] eqn:Hk.
  - case_bool_decide; [by destruct (method_union _)|].
    rewrite delete_loop. destruct (decide _); [|done]. cbn [mbind result_bind].
    rewrite store_through_refs.
    intros [= _ <- _]. cbn [st_routes]. apply map_matches_corresponds.
    + intros route r Hr. by apply route_matches_Some in Hr as [-> _].
    + intros r. by destruct r.
  - case_bool_decide; [by destruct (method_union _)|].
    destruct (match _validate_no_repetitions_in_routes _ with
              | Ok _ => _ | Raise _ => _ end) as [[]|e]; [|done].
    cbn [mbind result_bind].
    destruct (foldlM _ _ _) as [[a st1]|e] eqn:Hl; [|done]. intros [= _ <- _].
    rewrite (restore_loop_routes _ _ _ _ _ _ Hl), store_through_refs.
    apply map_matches_corresponds.
    + intros route r Hr. by apply route_matches_Some in Hr as [-> _].
    + intros r. by destruct r.
  - destruct (foldlM _ _ _) as [[a r]|e] eqn:Hl; [|done]. intros [= _ <- _].
    cbn [st_routes]. eapply had_loop_corresponds; [|  |exact Hl].
    + intros i x. apply _get_routes_refs_lookup.
    + apply Forall2_corresponds_refl. by intros ?.
Qed.

Lemma apply_instruction_corresponds vc st ins st' :
  apply_instruction vc st ins = Ok st' →
  Forall2 (corresponds same_endpoint) (st_routes st) (st_routes st').
Proof.
  unfold apply_instruction.
  destruct (process_instruction vc st ins) as [[[applied st1] err]|e] eqn:Hp; [|done].
  cbn [mbind result_bind]. destruct (check_method_diff _ _ _ _); [|done].
  intros [= <-]. by eapply process_instruction_corresponds.
Qed.

Lemma _apply_endpoint_changes_to_router_corresponds st version st' :
  _apply_endpoint_changes_to_router st version = Ok st' →
  Forall2 (corresponds same_endpoint) (st_routes st) (st_routes st').
Proof.
  unfold _apply_endpoint_changes_to_router.
  apply (foldlM_Ok_inv _ (λ s, Forall2 (corresponds same_endpoint) (st_routes st)
                                 (st_routes s))).
  - intros st1 vc st2 _ H1. unfold apply_version_change.
    apply (foldlM_Ok_inv _ (λ s, Forall2 (corresponds same_endpoint) (st_routes st)
                                   (st_routes s))); [|done].
    intros st3 ins st4 _ H3 Hins.
    eapply Forall2_corresponds_trans; [apply same_endpoint_trans|done|].
    by apply apply_instruction_corresponds in Hins.
  - apply Forall2_corresponds_refl. by intros ?.
Qed.

(** X9: The structural instructions of a version never add, remove or reorder
    routes: afterwards the route list has the length it had, a route that
    is no API route is untouched, and an API route is still an API route
    with the same handler function and the same identifier at the same
    position. *)
Theorem endpoint_changes_keep_every_route_in_its_place
    (st st' : applier_state) (version : Version) :
  _apply_endpoint_changes_to_router st version = Ok st' →
  length (st_routes st') = length (st_routes st)
  ∧ ∀ i route,
      st_routes st !! i = Some route →
      match route with
      | IsAPIRoute r =>
          ∃ r', st_routes st' !! i = Some (IsAPIRoute r')
                ∧ endpoint r' = endpoint r ∧ unique_id r' = unique_id r
      | OtherRoute o => st_routes st' !! i = Some (OtherRoute o)
      end.
Proof.
  intros Hcor. apply _apply_endpoint_changes_to_router_corresponds in Hcor.
  split; [symmetry; by eapply Forall2_length|].
  intros i route Hi.
  destruct (Forall2_lookup_l _ _ _ _ _ Hcor Hi) as (route' & Hi' & Hc).
  destruct route as [r|o], route' as [r'|o']; simpl in Hc; try done.
  - exists r'. by destruct Hc.
  - by subst.
Qed.

(** ** The signature of a rebuilt callable *)

Section signature.
Context (new_defaults : list annotation) (new_annotations : list (annotation * annotation)).

#[local] Abbreviation body :=
  (λ '(parameters, default_counter) (param : Param_ annotation),
     '(default, default_counter) ←
       match p_default param with
       | Some _ =>
           match new_defaults !! default_counter with
           | Some d => Ok (Some d, S default_counter)
           | None => Raise IndexError
           end
       | None => Ok (None, default_counter)
       end;
     Ok (parameters ++
           [mk_Param (p_name param) (p_kind param) default
              (dict_get (AStr (p_name param)) new_annotations)],
         default_counter)).

Lemma signature_loop_Ok (old_params : list (Param_ annotation)) : ∀ acc k,
  k + length (omap p_default old_params) ≤ length new_defaults →
  ∃ built,
    foldlM body (acc, k) old_params
    = Ok (acc ++ built, k + length (omap p_default old_params))
    ∧ p_name <$> built = p_name <$> old_params
    ∧ p_kind <$> built = p_kind <$> old_params
    ∧ p_annotation <$> built
      = (λ p, dict_get (AStr (p_name p)) new_annotations) <$> old_params
    ∧ omap p_default built
      = take (length (omap p_default old_params)) (drop k new_defaults)
    ∧ Forall2 (λ old new, is_Some (p_default new) ↔ is_Some (p_default old))
        old_params built.
Proof.
  induction old_params as [|p ps IH]; intros acc k Hlen.
  - exists []. rewrite app_nil_r. cbn. rewrite Nat.add_0_r. by split_and!.
  - cbn [foldlM]. destruct (p_default p) as [d|] eqn:Hd.
    + assert (omap p_default (p :: ps) = d :: omap p_default ps) as Hom
        by (cbn; by rewrite Hd).
      rewrite Hom in Hlen |- *. cbn [length] in Hlen |- *.
      destruct (lookup_lt_is_Some_2 new_defaults k) as [d' Hd']; [lia|].
      rewrite Hd'. cbn [mbind result_bind].
      destruct (IH (acc ++ [mk_Param (p_name p) (p_kind p) (Some d')
                              (dict_get (AStr (p_name p)) new_annotations)]) (S k))
        as (built & Hloop & Hn & Hk & Ha & Hdef & Hsome); [lia|].
      eexists (_ :: built). split_and!.
      * rewrite Hloop, <- app_assoc. cbn [app]. do 2 f_equal. lia.
      * by rewrite !fmap_cons, Hn.
      * by rewrite !fmap_cons, Hk.
      * by rewrite !fmap_cons, Ha.
      * cbn. rewrite Hdef. by rewrite (drop_S _ _ _ Hd').
      * apply Forall2_cons. split; [|done]. cbn. by rewrite Hd.
    + assert (omap p_default (p :: ps) = omap p_default ps) as Hom
        by (cbn; by rewrite Hd).
      rewrite Hom in Hlen |- *. cbn [mbind result_bind].
      destruct (IH (acc ++ [mk_Param (p_name p) (p_kind p) None
                              (dict_get (AStr (p_name p)) new_annotations)]) k)
        as (built & Hloop & Hn & Hk & Ha & Hdef & Hsome); [lia|].
      eexists (_ :: built). split_and!.
      * by rewrite Hloop, <- app_assoc.
      * by rewrite !fmap_cons, Hn.
      * by rewrite !fmap_cons, Hk.
      * by rewrite !fmap_cons, Ha.
      * cbn. by rewrite Hdef.
      * apply Forall2_cons. split; [|done]. cbn. by rewrite Hd.
Qed.

Lemma signature_loop_Raise (old_params : list (Param_ annotation)) : ∀ acc k,
  k ≤ length new_defaults →
  length new_defaults < k + length (omap p_default old_params) →
  foldlM body (acc, k) old_params = Raise IndexError.
Proof.
  induction old_params as [|p ps IH]; intros acc k Hk Hlen.
  - cbn in Hlen. lia.
  - cbn [foldlM]. destruct (p_default p) as [d|] eqn:Hd.
    + assert (omap p_default (p :: ps) = d :: omap p_default ps) as Hom
        by (cbn; by rewrite Hd).
      rewrite Hom in Hlen. cbn [length] in Hlen.
      destruct (new_defaults !! k) as [d'|] eqn:Hd'; [|done].
      cbn [mbind result_bind]. apply IH; [|lia].
      apply lookup_lt_Some in Hd'. lia.
    + assert (omap p_default (p :: ps) = omap p_default ps) as Hom
        by (cbn; by rewrite Hd).
      rewrite Hom in Hlen. cbn [mbind result_bind]. by apply IH.
Qed.
End signature.

Lemma _generate_signature_Ok (new_defaults : list annotation)
    (new_annotations : list (annotation * annotation)) (old_params : list Param) :
  length (omap p_default old_params) ≤ length new_defaults →
  ∃ parameters,
    _generate_signature new_defaults new_annotations old_params
    = Ok (parameters, dict_get (AStr "return") new_annotations)
    ∧ p_name <$> parameters = p_name <$> old_params
    ∧ p_kind <$> parameters = p_kind <$> old_params
    ∧ p_annotation <$> parameters
      = (λ p, dict_get (AStr (p_name p)) new_annotations) <$> old_params
    ∧ omap p_default parameters
      = take (length (omap p_default old_params)) new_defaults
    ∧ Forall2 (λ old new, is_Some (p_default new) ↔ is_Some (p_default old))
        old_params parameters.
Proof.
  intros Hlen. unfold _generate_signature.
  destruct (signature_loop_Ok new_defaults new_annotations old_params [] 0)
    as (built & Hloop & Hrest); [done|].
  exists built. rewrite Hloop. by rewrite drop_0 in Hrest.
Qed.

(** X10: [_generate_signature] rebuilds the parameters of the old signature in
    their order, each with its name and kind; a parameter has a default
    exactly when the old one had, the new defaults are consumed from the
    front, one per such parameter, and the annotation of a parameter is
    what the new annotations hold under its name.  It fails, with an index
    error, exactly when there are fewer new defaults than parameters with a
    default. *)
Theorem generate_signature_keeps_names_kinds_and_order
    (new_defaults : list annotation) (new_annotations : list (annotation * annotation))
    (old_params : list Param) :
  let with_default := length (omap p_default old_params) in
  (with_default ≤ length new_defaults →
   ∃ parameters,
     _generate_signature new_defaults new_annotations old_params
     = Ok (parameters, dict_get (AStr "return") new_annotations)
     ∧ p_name <$> parameters = p_name <$> old_params
     ∧ p_kind <$> parameters = p_kind <$> old_params
     ∧ p_annotation <$> parameters
       = (λ p, dict_get (AStr (p_name p)) new_annotations) <$> old_params
     ∧ omap p_default parameters = take with_default new_defaults
     ∧ Forall2 (λ old new, is_Some (p_default new) ↔ is_Some (p_default old))
         old_params parameters)
  ∧ (length new_defaults < with_default →
     _generate_signature new_defaults new_annotations old_params = Raise IndexError).
Proof.
  intros with_default. split; [apply _generate_signature_Ok|].
  unfold _generate_signature.
  - intros Hlen.
    rewrite (signature_loop_Raise new_defaults new_annotations old_params [] 0);
      [done|lia|done].
Qed.

(** ** The routes whose requests are migrated by path *)

Lemma fold_left_collects {S B} (f : S → B → S) (P : S → Prop) (Q : B → Prop) (l : list B) :
  (∀ s x, P (f s x) ↔ P s ∨ Q x) →
  ∀ s, P (fold_left f l s) ↔ P s ∨ ∃ x, x ∈ l ∧ Q x.
Proof.
  intros Hf. induction l as [|x l IH]; intros s; simpl.
  - split; [by left|]. intros [?|(x & Hin & _)]; [done|]. by apply elem_of_nil in Hin.
  - rewrite IH, Hf. split.
    + intros [[?|?]|(y & Hin & Hy)]; [by left|right; exists x; split; [left|done]|].
      right. exists y. split; [by right|done].
    + intros [?|(y & [->|Hin]%elem_of_cons & Hy)]; [by left; left|by left; right|].
      right. by exists y.
Qed.

(** X11: [_get_migrated_routes_by_path] maps a path to the union of the
    methods of all by-path request instructions that the version changes
    of the version hold for that path, and has no entry for a path without
    such an instruction. *)
Theorem migrated_routes_by_path_unites_the_methods (version : Version) (path_ : string) :
  (∀ method,
     method ∈ default ∅ (_get_migrated_routes_by_path version !! path_)
     ↔ ∃ change instruction_list instruction_methods,
         change ∈ version_changes version
         ∧ (path_, instruction_list) ∈ alter_request_by_path_instructions change
         ∧ instruction_methods ∈ instruction_list
         ∧ method ∈ instruction_methods)
  ∧ (is_Some (_get_migrated_routes_by_path version !! path_)
     ↔ ∃ change instruction_list,
         change ∈ version_changes version
         ∧ (path_, instruction_list) ∈ alter_request_by_path_instructions change
         ∧ instruction_list ≠ []).
Proof.
  unfold _get_migrated_routes_by_path. split.
  - intros method.
    rewrite (fold_left_collects _
               (λ mr : gmap string (gset string), method ∈ default ∅ (mr !! path_))
               (λ instruction_dict : list (string * list (gset string)),
                  ∃ instruction_list instruction_methods,
                    (path_, instruction_list) ∈ instruction_dict
                    ∧ instruction_methods ∈ instruction_list
                    ∧ method ∈ instruction_methods)).
    + rewrite lookup_empty. split.
      * intros [Hin|(d & Hd & l & ms & H)]; [by apply elem_of_empty in Hin|].
        apply list_elem_of_fmap in Hd as (change & -> & Hchange).
        by exists change, l, ms.
      * intros (change & l & ms & Hchange & H). right.
        exists (alter_request_by_path_instructions change).
        split; [by apply list_elem_of_fmap_2|]. by exists l, ms.
    + intros mr d.
      rewrite (fold_left_collects _
                 (λ mr : gmap string (gset string), method ∈ default ∅ (mr !! path_))
                 (λ entry : string * list (gset string),
                    entry.1 = path_
                    ∧ ∃ instruction_methods,
                        instruction_methods ∈ entry.2 ∧ method ∈ instruction_methods)).
      * split.
        -- intros [?|([p l] & Hin & Hp & ms & Hms)]; [by left|]. simpl in *. subst p.
           right. by exists l, ms.
        -- intros [?|(l & ms & Hin & Hms)]; [by left|]. right. exists (path_, l).
           split; [done|]. split; [done|]. by exists ms.
      * intros mr' [p l]. cbn [fst snd].
        rewrite (fold_left_collects _
                   (λ mr : gmap string (gset string), method ∈ default ∅ (mr !! path_))
                   (λ ms : gset string, p = path_ ∧ method ∈ ms)).
        -- split.
           ++ intros [?|(ms & Hin & -> & Hm)]; [by left|]. right. split; [done|].
              by exists ms.
           ++ intros [?|(-> & ms & Hin & Hm)]; [by left|]. right. by exists ms.
        -- intros mr'' ms. destruct (decide (p = path_)) as [->|Hne].
           ++ rewrite lookup_insert_eq. simpl. rewrite elem_of_union. tauto.
           ++ rewrite lookup_insert_ne by done. tauto.
  - rewrite (fold_left_collects _
               (λ mr : gmap string (gset string), is_Some (mr !! path_))
               (λ instruction_dict : list (string * list (gset string)),
                  ∃ instruction_list,
                    (path_, instruction_list) ∈ instruction_dict
                    ∧ instruction_list ≠ [])).
    + rewrite lookup_empty. split.
      * intros [Hin|(d & Hd & l & H)]; [by destruct Hin|].
        apply list_elem_of_fmap in Hd as (change & -> & Hchange).
        by exists change, l.
      * intros (change & l & Hchange & H). right.
        exists (alter_request_by_path_instructions change).
        split; [by apply list_elem_of_fmap_2|]. by exists l.
    + intros mr d.
      rewrite (fold_left_collects _
                 (λ mr : gmap string (gset string), is_Some (mr !! path_))
                 (λ entry : string * list (gset string),
                    entry.1 = path_ ∧ entry.2 ≠ [])).
      * split.
        -- intros [?|([p l] & Hin & Hp & Hne)]; [by left|]. simpl in *. subst p.
           right. by exists l.
        -- intros [?|(l & Hin & Hne)]; [by left|]. right. by exists (path_, l).
      * intros mr' [p l]. cbn [fst snd].
        rewrite (fold_left_collects _
                   (λ mr : gmap string (gset string), is_Some (mr !! path_))
                   (λ ms : gset string, p = path_)).
        -- split.
           ++ intros [?|(ms & Hin & ->)]; [by left|]. right. split; [done|].
              intros ->. by apply elem_of_nil in Hin.
           ++ intros [?|(-> & Hne)]; [by left|]. right.
              destruct l as [|ms l]; [done|]. exists ms. split; [left|done].
        -- intros mr'' ms. destruct (decide (p = path_)) as [->|Hne].
           ++ rewrite lookup_insert_eq. split; [by right|]. by intros _.
           ++ rewrite lookup_insert_ne by done. tauto.
Qed.

(** ** The latest schemas module *)

Lemma endswith_suffix s suf : endswith s suf = true ↔ ∃ pre, s = pre +:+ suf.
Proof.
  induction s as [|a s IH].
  - cbn [endswith]. case_decide as Heq.
    + split; [|done]. intros _. exists "". by subst.
    + split; [done|]. intros ([|b pre] & Hpre); [|done].
      change ("" +:+ suf) with suf in Hpre. congruence.
  - cbn [endswith]. case_decide as Heq.
    + split; [|done]. intros _. exists "". by subst.
    + rewrite IH. split.
      * intros (pre & ->). by exists (String a pre).
      * intros ([|b pre] & Hpre).
        -- change ("" +:+ suf) with suf in Hpre. congruence.
        -- change (String b pre +:+ suf) with (String b (pre +:+ suf)) in Hpre.
           injection Hpre as -> ->. by exists pre.
Qed.

(** X12: Generation starts with the latest schemas module: a module that is no
    package is refused, whatever its name; a package is refused when its
    name does not end in [.latest]; when generation returns, the module was
    a package with such a name. *)
Theorem generation_requires_a_package_named_latest
    (W : World) (router_ : APIRouter) (versions_ : VersionBundle)
    (latest_schemas_module : ModuleType) (fresh : nat) :
  (module_is_package latest_schemas_module = false →
   generate_versioned_routers W router_ versions_ latest_schemas_module fresh
   = Raise (Generation (NotAPackage (module_name latest_schemas_module))))
  ∧ (module_is_package latest_schemas_module = true →
     (∀ pre, module_name latest_schemas_module ≠ pre +:+ ".latest") →
     generate_versioned_routers W router_ versions_ latest_schemas_module fresh
     = Raise (Generation (LatestModuleMisnamed (module_name latest_schemas_module))))
  ∧ (∀ generated,
       generate_versioned_routers W router_ versions_ latest_schemas_module fresh
       = Ok generated →
       module_is_package latest_schemas_module = true
       ∧ ∃ pre, module_name latest_schemas_module = pre +:+ ".latest").
Proof.
  unfold generate_versioned_routers, _EndpointTransformer__init__,
    _AnnotationTransformer__init__.
  destruct (module_is_package latest_schemas_module) eqn:Hp; cbn [negb].
  - destruct (endswith (module_name latest_schemas_module) ".latest") eqn:He; cbn [negb].
    + split_and!; [done| |].
      * intros _ Hno. apply endswith_suffix in He as (pre & He). by destruct (Hno pre).
      * intros generated _. split; [done|]. by apply endswith_suffix.
    + by split_and!.
  - by split_and!.
Qed.

(** ** How the rewriter fails *)

Lemma bind_Raise {A B} (m : M A) (f : A → M B) s e :
  (m ≫= f) s = Raise e ↔ m s = Raise e ∨ ∃ a s1, m s = Ok (a, s1) ∧ f a s1 = Raise e.
Proof.
  unfold mbind, M_bind. destruct (m s) as [[a s1]|e1].
  - split; [intros ?; right; by exists a, s1|].
    intros [?|(? & ? & [= <- <-] & ?)]; done.
  - split; [intros [= ->]; by left|]. by intros [[= ->]|(? & ? & ? & _)].
Qed.

Lemma map_defaults_length (f : annotation → M annotation) params : ∀ s ds s',
  map_defaults f params s = Ok (ds, s') → length ds = length (omap p_default params).
Proof.
  induction params as [|p ps IH]; intros s ds s'; cbn [map_defaults].
  - by intros [<- _]%ret_Ok.
  - destruct (p_default p) as [d|] eqn:Hd.
    + intros (d' & s1 & _ & (ds' & s2 & Hds & [<- _]%ret_Ok)%bind_Ok)%bind_Ok.
      cbn. rewrite Hd. cbn. f_equal. by eapply IH.
    + intros H. cbn. rewrite Hd. by eapply IH.
Qed.

Section failures.
Context (W : World) (self : _AnnotationTransformer) (D : Path).

#[local] Abbreviation fails_well m := (∀ s e, m s = Raise e → rewriter_error W self D e).

Lemma mapM__fails (f : annotation → M annotation) l :
  list_all annotation (λ a, fails_well (f a)) l → fails_well (mapM_ f l).
Proof.
  induction 1 as [|x Hx l Hl IH]; intros s e; cbn [mapM_]; [done|].
  intros [H|(y & s1 & _ & [H|(ys & s2 & _ & H)]%bind_Raise)]%bind_Raise;
    [by eapply Hx|by eapply IH|done].
Qed.

Lemma dict_comprehension_fails (f : annotation → M annotation) items :
  list_all (annotation * annotation)
    (prod_all annotation (λ a, fails_well (f a)) annotation (λ a, fails_well (f a)))
    items →
  ∀ acc, fails_well (dict_comprehension f items acc).
Proof.
  induction 1 as [|[k v] Hkv l Hl IH]; intros acc s e; cbn [dict_comprehension]; [done|].
  inversion Hkv as [? Pk ? Pv]; subst.
  intros [H|(k' & s1 & _ & [H|(v' & s2 & _ & H)]%bind_Raise)]%bind_Raise;
    [by eapply Pk|by eapply Pv|by eapply IH].
Qed.

Lemma map_defaults_fails (f : annotation → M annotation) params :
  list_all (Param_ annotation) (Param__all annotation (λ a, fails_well (f a))) params →
  fails_well (map_defaults f params).
Proof.
  induction 1 as [|p Hp l Hl IH]; intros s e; cbn [map_defaults]; [done|].
  destruct Hp as [name kind default Hdefault ann Hann]. cbn [p_default].
  destruct Hdefault as [d Hd|]; [|apply IH].
  intros [H|(d' & s1 & _ & [H|(ds & s2 & _ & H)]%bind_Raise)]%bind_Raise;
    [by eapply Hd|by eapply IH|done].
Qed.

Lemma functools_cache_fails a compute :
  fails_well compute → fails_well (functools_cache a D compute).
Proof.
  intros Hc s e. unfold functools_cache.
  destruct (cache_lookup (a, D) (cache s)); [done|].
  destruct (compute s) as [[r s1]|e1] eqn:Hcomp; [done|]. intros [= <-]. by eapply Hc.
Qed.

Lemma _change_version_of_type_fails c e :
  _change_version_of_type W self c D = Raise e → rewriter_error W self D e.
Proof.
  unfold _change_version_of_type. destruct (cls_is_schema c) eqn:Hs; [|done].
  assert (∀ e, get_another_version_of_cls W self c D = Raise e → rewriter_error W self D e)
    as Hget.
  { intros e'. unfold get_another_version_of_cls.
    destruct (get_another_version_of_module _ _ _ _) as [module|] eqn:Hm; [|done].
    destruct (module_getattr _ _ _) eqn:Hg; [done|]. intros [= <-]. right.
    by exists c, module. }
  destruct (decide (D = latest_version_dir self)) as [HD|HD].
  - destruct (cls_source_file c) as [f|] eqn:Hf.
    + rewrite _validate_source_file_raises.
      destruct (decide (outside_template_dir self f)).
      * cbn [mbind result_bind]. intros [= <-]. left. by exists c, f.
      * cbn [mbind result_bind].
        destruct (get_another_version_of_cls W self c D) eqn:Hg; [done|].
        intros [= <-]. by apply Hget.
    + cbn [mbind result_bind].
      destruct (get_another_version_of_cls W self c D) eqn:Hg; [done|].
      intros [= <-]. by apply Hget.
  - cbn [mbind result_bind].
    destruct (get_another_version_of_cls W self c D) eqn:Hg; [done|].
    intros [= <-]. by apply Hget.
Qed.

Lemma _change_version_of_annotations_fails a :
  fails_well (_change_version_of_annotations W self a D).
Proof.
  set (rw := λ a, _change_version_of_annotations W self a D).
  induction a as [items IH|items IH|items IH|origin args IH|oid dep IH uc|args IH
                 | | |c|f IH| |]; intros st e;
    cbn [_change_version_of_annotations]; fold rw.
  - intros [H|(? & ? & _ & ?)]%bind_Raise; [|done].
    exact (dict_comprehension_fails rw items IH _ _ _ H).
  - intros [H|(? & ? & _ & ?)]%bind_Raise; [|done].
    exact (mapM__fails rw items IH _ _ H).
  - intros [H|(? & ? & _ & ?)]%bind_Raise; [|done].
    exact (mapM__fails rw items IH _ _ H).
  - apply functools_cache_fails. clear st e. intros st e. cbn [non_container_branch].
    intros [H|(? & ? & _ & ?)]%bind_Raise; [|done].
    exact (mapM__fails rw args IH _ _ H).
  - apply functools_cache_fails. clear st e. intros st e. cbn [non_container_branch].
    intros [H|(? & ? & _ & [?|(? & ? & _ & ?)]%bind_Raise)]%bind_Raise; [|done|done].
    by eapply IH.
  - apply functools_cache_fails. clear st e. intros st e. cbn [non_container_branch].
    intros [H|(? & ? & _ & ?)]%bind_Raise; [|done].
    exact (mapM__fails rw args IH _ _ H).
  - apply functools_cache_fails. by intros ? ?.
  - apply functools_cache_fails. by intros ? ?.
  - apply functools_cache_fails. clear st e. intros st e. cbn [non_container_branch].
    unfold lift. destruct (_change_version_of_type W self c D) eqn:Ht; [done|].
    intros [= <-]. by eapply _change_version_of_type_fails.
  - apply functools_cache_fails. clear st e. intros st e. cbn [non_container_branch].
    destruct IH as [oid name co anns Hanns params Hparams ret Hret].
    cbn [f_annotations f_params f_name is_coroutine].
    intros [?|(o & s1 & _ & [H|(anns' & s2 & _ & [H|(ds & s3 & Hds & H)]%bind_Raise
             )]%bind_Raise)]%bind_Raise; [done| | |].
    + exact (dict_comprehension_fails rw anns Hanns _ _ _ H).
    + exact (map_defaults_fails rw params Hparams _ _ H).
    + exfalso. apply map_defaults_length in Hds.
      destruct (_generate_signature_Ok ds anns' params)
        as (parameters & Hsig & _); [by rewrite Hds|].
      apply bind_Raise in H as [H|([ps rt] & s4 & _ & H)]; [|done].
      unfold lift in H. by rewrite Hsig in H.
  - apply functools_cache_fails. by intros ? ?.
  - apply functools_cache_fails. by intros ? ?.
Qed.
End failures.

(** X13: The errors of the annotation rewriter and their causes.  The
    rewriter never fails with an [IndexError]: where it regenerates the
    signature of a callable, there is a rewritten default for every
    parameter that has one.  When it fails with the source-location
    error, the target is [latest_version_dir] and the error names a schema
    class whose source file lies in a version directory, outside the
    template directory.  When it fails with the [AttributeError] of a
    module, that module is the one a schema class is looked up in for the
    target directory, and it holds nothing under the name of the class. *)
Theorem rewriter_errors_and_their_causes
    (W : World) (self : _AnnotationTransformer) (a : annotation) (D : Path)
    (s : tstate) (e : exn) :
  _change_version_of_annotations W self a D s = Raise e →
  e ≠ IndexError
  ∧ (∀ c template_dir source_file,
       e = Generation (NotDefinedInTemplateDir c template_dir source_file) →
       D = latest_version_dir self ∧ template_dir = template_version_dir self
       ∧ cls_is_schema c = true ∧ cls_source_file c = Some source_file
       ∧ outside_template_dir self source_file)
  ∧ (∀ module name,
       e = AttributeError (ModuleObject module) name →
       ∃ c, cls_name c = name ∧ cls_is_schema c = true
            ∧ get_another_version_of_module W (cls_module c) D (version_dirs self)
              = Some module
            ∧ module_getattr W module name = None).
Proof.
  intros Hr. apply _change_version_of_annotations_fails in Hr.
  destruct Hr as [(c & f & -> & HD & Hs & Hf & Ho)|(c & m & -> & Hs & Hm & Hg)].
  - split_and!; [done| |done]. by intros c' t f' [= <- <- <-].
  - split_and!; [done|done|]. intros m' n [= <- <-]. by exists c.
Qed.

(** ** The shape of a rewritten annotation *)

Section shapes.
Context (W : World) (self : _AnnotationTransformer) (D : Path).

#[local] Abbreviation keeps m Q :=
  (∀ s a s', m s = Ok (a, s') → cache_keeps_shapes s → cache_keeps_shapes s' ∧ Q a).

Lemma mapM__keeps (f : annotation → M annotation) l :
  list_all annotation (λ a, keeps (f a) (same_shape a)) l →
  keeps (mapM_ f l) (λ rs, length rs = length l).
Proof.
  induction 1 as [|x Hx l Hl IH]; intros s rs s'; cbn [mapM_].
  - by intros [<- <-]%ret_Ok.
  - intros (y & s1 & Hy & (ys & s2 & Hys & [<- <-]%ret_Ok)%bind_Ok)%bind_Ok Hs.
    destruct (Hx _ _ _ Hy Hs) as [Hs1 _].
    destruct (IH _ _ _ Hys Hs1) as [Hs2 Hlen]. split; [done|]. cbn. by rewrite Hlen.
Qed.

Lemma dict_comprehension_keeps (f : annotation → M annotation) items :
  list_all (annotation * annotation)
    (prod_all annotation (λ a, keeps (f a) (same_shape a))
              annotation (λ a, keeps (f a) (same_shape a))) items →
  ∀ acc, keeps (dict_comprehension f items acc) (λ _, True).
Proof.
  induction 1 as [|[k v] Hkv l Hl IH]; intros acc s rs s'; cbn [dict_comprehension].
  - by intros [<- <-]%ret_Ok.
  - inversion Hkv as [? Pk ? Pv]; subst.
    intros (k' & s1 & Hk & (v' & s2 & Hv & Hrest)%bind_Ok)%bind_Ok Hs.
    destruct (Pk _ _ _ Hk Hs) as [Hs1 _]. destruct (Pv _ _ _ Hv Hs1) as [Hs2 _].
    by eapply IH.
Qed.

Lemma map_defaults_keeps (f : annotation → M annotation) params :
  list_all (Param_ annotation) (Param__all annotation (λ a, keeps (f a) (same_shape a)))
    params →
  keeps (map_defaults f params) (λ _, True).
Proof.
  induction 1 as [|p Hp l Hl IH]; intros s rs s'; cbn [map_defaults].
  - by intros [<- <-]%ret_Ok.
  - destruct Hp as [name kind default Hdefault ann Hann]. cbn [p_default].
    destruct Hdefault as [d Hd|]; [|apply IH].
    intros (d' & s1 & Hd' & (ds & s2 & Hds & [<- <-]%ret_Ok)%bind_Ok)%bind_Ok Hs.
    destruct (Hd _ _ _ Hd' Hs) as [Hs1 _]. destruct (IH _ _ _ Hds Hs1) as [Hs2 _]. done.
Qed.

Lemma functools_cache_keeps a compute :
  keeps compute (same_shape a) → keeps (functools_cache a D compute) (same_shape a).
Proof.
  intros Hc s r s'. unfold functools_cache.
  destruct (cache_lookup (a, D) (cache s)) as [hit|] eqn:Hl.
  - intros [= <- <-] Hs. split; [done|]. by eapply Hs.
  - destruct (compute s) as [[r1 s1]|e] eqn:Hcomp; [|done]. intros [= <- <-] Hs.
    destruct (Hc _ _ _ Hcomp Hs) as [Hs1 Hshape]. split; [|done].
    intros a' D' r'. cbn [cache cache_lookup]. case_decide as Hkey.
    + injection Hkey as -> ->. by intros [= <-].
    + apply Hs1.
Qed.

Lemma new_object_keeps s o s' :
  new_object s = Ok (o, s') → cache_keeps_shapes s → cache_keeps_shapes s'.
Proof. unfold new_object. by intros [= _ <-]. Qed.

Lemma _change_version_of_annotations_keeps a :
  keeps (_change_version_of_annotations W self a D) (same_shape a).
Proof.
  set (rw := λ a, _change_version_of_annotations W self a D).
  induction a as [items IH|items IH|items IH|origin args IH|oid dep IH uc|args IH
                 | | |c|f IH| |]; intros st r st';
    cbn [_change_version_of_annotations]; fold rw.
  - intros (items' & s1 & Hi & [<- <-]%ret_Ok)%bind_Ok Hs.
    destruct (dict_comprehension_keeps rw items IH _ _ _ _ Hi Hs) as [Hs1 _].
    split; [done|]. by eexists.
  - intros (items' & s1 & Hi & [<- <-]%ret_Ok)%bind_Ok Hs.
    destruct (mapM__keeps rw items IH _ _ _ Hi Hs) as [Hs1 Hlen].
    split; [done|]. by eexists.
  - intros (items' & s1 & Hi & [<- <-]%ret_Ok)%bind_Ok Hs.
    destruct (mapM__keeps rw items IH _ _ _ Hi Hs) as [Hs1 Hlen].
    split; [done|]. by eexists.
  - apply functools_cache_keeps. clear st r st'. intros st r st'.
    cbn [non_container_branch].
    intros (items' & s1 & Hi & [<- <-]%ret_Ok)%bind_Ok Hs.
    by destruct (mapM__keeps rw args IH _ _ _ Hi Hs) as [Hs1 Hlen].
  - apply functools_cache_keeps. clear st r st'. intros st r st'.
    cbn [non_container_branch].
    intros (d' & s1 & Hd & (o & s2 & Ho & [<- <-]%ret_Ok)%bind_Ok)%bind_Ok Hs.
    destruct (IH _ _ _ Hd Hs) as [Hs1 _].
    split; [by eapply new_object_keeps|]. by eexists _, _.
  - apply functools_cache_keeps. clear st r st'. intros st r st'.
    cbn [non_container_branch].
    intros (items' & s1 & Hi & [<- <-]%ret_Ok)%bind_Ok Hs.
    by destruct (mapM__keeps rw args IH _ _ _ Hi Hs) as [Hs1 Hlen].
  - apply functools_cache_keeps. by intros ? ? ? [<- <-]%ret_Ok.
  - apply functools_cache_keeps. by intros ? ? ? [<- <-]%ret_Ok.
  - apply functools_cache_keeps. clear st r st'. intros st r st'.
    cbn [non_container_branch]. by intros [Ht <-]%lift_Ok Hs.
  - apply functools_cache_keeps. clear st r st'. intros st r st'.
    cbn [non_container_branch].
    destruct IH as [oid name co anns Hanns params Hparams ret Hret].
    cbn [f_annotations f_params f_name is_coroutine].
    intros (o & s1 & Ho & (anns' & s2 & Ha & (ds & s3 & Hd
              & ([ps rt] & s4 & [Hsig <-]%lift_Ok & [<- <-]%ret_Ok)%bind_Ok
            )%bind_Ok)%bind_Ok)%bind_Ok Hs.
    pose proof (new_object_keeps _ _ _ Ho Hs) as Hs1.
    destruct (dict_comprehension_keeps rw anns Hanns _ _ _ _ Ha Hs1) as [Hs2 _].
    destruct (map_defaults_keeps rw params Hparams _ _ _ Hd Hs2) as [Hs3 _].
    split; [done|].
    apply map_defaults_length in Hd.
    destruct (_generate_signature_Ok ds anns' params)
      as (parameters & Hsig' & Hn & Hk & _ & _ & Hsome); [by rewrite Hd|].
    rewrite Hsig in Hsig'. injection Hsig' as <- _.
    eexists. split; [done|]. cbn [f_name is_coroutine f_params]. by split_and!.
  - apply functools_cache_keeps. by intros ? ? ? [<- <-]%ret_Ok.
  - apply functools_cache_keeps. by intros ? ? ? [<- <-]%ret_Ok.
Qed.
End shapes.

(** X14: What the rewriter returns has the shape of what it was given, as
    far as the rewriter itself decides it: a dict stays a dict, a list a
    list and a tuple a tuple, the latter two with as many items; a
    dependency wrapper keeps its caching flag; a callable becomes a
    callable with the same name and the same sync/async-ness whose
    parameters have the names, kinds and order of the original and a
    default where the original had one.  This holds for a transformer
    whose cache holds such results only, and its cache is such a cache
    again afterwards. *)
Theorem rewriting_keeps_the_shape_of_an_annotation
    (W : World) (self : _AnnotationTransformer) (a r : annotation) (D : Path)
    (s s' : tstate) :
  cache_keeps_shapes s →
  _change_version_of_annotations W self a D s = Ok (r, s') →
  same_shape a r ∧ cache_keeps_shapes s'.
Proof.
  intros Hs Hrw.
  by destruct (_change_version_of_annotations_keeps W self D a s r s' Hrw Hs).
Qed.

(** ** The dependant of a route *)

Section remake.
Context (W : World).

Lemma insert_sub_dependants (l : list annotation) : ∀ route,
  fold_left
    (λ route depends,
       set_dependant
         (set_dependant_dependencies
            (get_parameterless_sub_dependant W depends (path_format route)
               :: dependant_dependencies (dependant route))
            (dependant route))
         route)
    (rev l) route
  = set_dependant
      (set_dependant_dependencies
         (((λ depends, get_parameterless_sub_dependant W depends (path_format route))
             <$> l)
          ++ dependant_dependencies (dependant route))
         (dependant route))
      route.
Proof.
  induction l as [|x l IH]; intros route.
  - cbn. by destruct route as [p pf m e t rm sc ds su dp cb [rq rs bp dd] bf u ap].
  - cbn [rev]. rewrite fold_left_app, IH. cbn [fold_left].
    by destruct route as [p pf m e t rm sc ds su dp cb [rq rs bp dd] bf u ap].
Qed.

Lemma with_hidden_param_names_truthy r :
  truthy (request_param_name (dependant (with_hidden_param_names r))) = true
  ∧ truthy (response_param_name (dependant (with_hidden_param_names r))) = true.
Proof.
  unfold with_hidden_param_names.
  destruct r as [? ? ? ? ? ? ? ? ? ? ? [req resp bp deps] ? ?].
  cbn [dependant request_param_name response_param_name body_params
       dependant_dependencies set_dependant].
  destruct truthy_hidden_names as [Hq Hp].
  split; [by destruct (truthy req) eqn:H|by destruct (truthy resp) eqn:H].
Qed.

Lemma _remake_endpoint_dependencies_spec route :
  let made := get_dependant W (path_format route) (endpoint route) in
  let named := dependant (with_hidden_param_names (set_dependant made route)) in
  let remade :=
    set_dependant
      (set_dependant_dependencies
         (((λ depends, get_parameterless_sub_dependant W depends (path_format route))
             <$> dependencies route)
          ++ dependant_dependencies made)
         named)
      (set_body_field (get_body_field W named (unique_id route)) route) in
  _remake_endpoint_dependencies W route
  = set_app (request_response W (get_route_handler W remade)) remade.
Proof.
  intros made named remade. unfold _remake_endpoint_dependencies.
  rewrite insert_sub_dependants, _add_request_and_response_params_spec.
  unfold remade. fold made. unfold named. unfold with_hidden_param_names.
  destruct route as [p pf m e t rm sc ds su dp cb dt bf u ap].
  cbn [set_dependant set_body_field dependant dependencies path_format unique_id
       dependant_dependencies set_dependant_dependencies request_param_name
       response_param_name body_params].
  reflexivity.
Qed.
End remake.

(** X15: [_remake_endpoint_dependencies] gives the route a dependant made from
    its endpoint, in which the dependencies of the route come first, in
    the order of [route.dependencies], before those of the endpoint; the
    hidden request and response parameters of the dependant are named; the
    body field is made from that dependant, before the dependencies of
    the route are inserted; the ASGI application is made last, from the
    handler of the route with its new dependant and body field; no other
    attribute of the route changes. *)
Theorem remake_endpoint_dependencies_puts_route_dependencies_first
    (W : World) (route : APIRoute) :
  let made := get_dependant W (path_format route) (endpoint route) in
  let route' := _remake_endpoint_dependencies W route in
  dependant_dependencies (dependant route')
  = ((λ depends, get_parameterless_sub_dependant W depends (path_format route))
       <$> dependencies route)
    ++ dependant_dependencies made
  ∧ body_params (dependant route') = body_params made
  ∧ request_param_name (dependant route')
    = (if truthy (request_param_name made) then request_param_name made
       else Some _CADWYN_REQUEST_PARAM_NAME)
  ∧ response_param_name (dependant route')
    = (if truthy (response_param_name made) then response_param_name made
       else Some _CADWYN_RESPONSE_PARAM_NAME)
  ∧ truthy (request_param_name (dependant route')) = true
  ∧ truthy (response_param_name (dependant route')) = true
  ∧ body_field route'
    = get_body_field W
        (set_dependant_dependencies (dependant_dependencies made) (dependant route'))
        (unique_id route)
  ∧ app route' = request_response W (get_route_handler W (set_app (app route) route'))
  ∧ route'
    = set_app (app route')
        (set_dependant (dependant route') (set_body_field (body_field route') route)).
Proof.
  intros made route'. unfold route'. rewrite _remake_endpoint_dependencies_spec.
  fold made.
  pose proof (with_hidden_param_names_truthy (set_dependant made route)) as [Hq Hp].
  revert Hq Hp. unfold with_hidden_param_names.
  destruct route as [p pf m e t rm sc ds su dp cb dt bf u ap], made as [req resp bp deps].
  cbn [set_dependant set_body_field dependant dependencies path_format unique_id
       dependant_dependencies set_dependant_dependencies request_param_name
       response_param_name body_params body_field set_app app].
  intros Hq Hp. by split_and!.
Qed.

(** ** Migrating a route to a version *)

Lemma _remake_endpoint_dependencies_fields W r :
  let r' := _remake_endpoint_dependencies W r in
  path r' = path r ∧ path_format r' = path_format r ∧ methods r' = methods r
  ∧ endpoint r' = endpoint r ∧ tags r' = tags r ∧ response_model r' = response_model r
  ∧ status_code r' = status_code r ∧ dependencies r' = dependencies r
  ∧ summary r' = summary r ∧ deprecated r' = deprecated r
  ∧ callbacks r' = callbacks r ∧ unique_id r' = unique_id r
  ∧ truthy (request_param_name (dependant r')) = true
  ∧ truthy (response_param_name (dependant r')) = true.
Proof.
  intros r'. unfold r'. rewrite _remake_endpoint_dependencies_spec.
  pose proof (with_hidden_param_names_truthy
                (set_dependant (get_dependant W (path_format r) (endpoint r)) r))
    as [Hq Hp].
  revert Hq Hp. unfold with_hidden_param_names.
  destruct r as [p pf m e t rm sc ds su dp cb dt bf u ap].
  destruct (get_dependant W _ _) as [req resp bp deps].
  cbn [set_dependant set_body_field dependant dependencies path_format unique_id
       dependant_dependencies set_dependant_dependencies request_param_name
       response_param_name body_params body_field path methods endpoint tags
       response_model status_code summary deprecated callbacks set_app].
  intros Hq Hp. by split_and!.
Qed.

Lemma mapM__length {A B} (f : A → M B) l : ∀ s rs s',
  mapM_ f l s = Ok (rs, s') → length rs = length l.
Proof.
  induction l as [|x l IH]; intros s rs s'; cbn [mapM_].
  - by intros [<- _]%ret_Ok.
  - intros (y & s1 & _ & (ys & s2 & Hys & [<- _]%ret_Ok)%bind_Ok)%bind_Ok.
    cbn. f_equal. by eapply IH.
Qed.

(** ** Outcomes of computations of the transformer *)

(** From a state in [P], the computation ends in [Q] or raises an
    exception in [E]. *)
#[local] Abbreviation hoare P m Q E :=
  (∀ s, P s → match m s with Ok (a, s') => Q a s' | Raise e => E e end).

Lemma hoare_bind {A B} (m : M A) (f : A → M B) (P : tstate → Prop)
    (Q : A → tstate → Prop) (R : B → tstate → Prop) (E : exn → Prop) :
  hoare P m Q E → (∀ a, hoare (Q a) (f a) R E) → hoare P (m ≫= f) R E.
Proof.
  intros Hm Hf s Hs. specialize (Hm s Hs). unfold mbind, M_bind.
  destruct (m s) as [[a s1]|e]; [by apply Hf|done].
Qed.

Lemma hoare_ret {A} (a : A) (P : tstate → Prop) (Q : A → tstate → Prop) (E : exn → Prop) :
  (∀ s, P s → Q a s) → hoare P (mret a : M A) Q E.
Proof. intros H s Hs. by apply H. Qed.

Lemma hoare_lift {A} (r : result A) (P : tstate → Prop) (Q : A → tstate → Prop)
    (E : exn → Prop) :
  match r with Ok a => ∀ s, P s → Q a s | Raise e => E e end → hoare P (lift r) Q E.
Proof. intros H s Hs. unfold lift. destruct r; [by apply H|done]. Qed.

Lemma hoare_mapM {A B} (f : B → M A) (I : tstate → Prop) (R : B → A → Prop)
    (E : exn → Prop) (l : list B) :
  list_all B (λ x, hoare I (f x) (λ y s, I s ∧ R x y) E) l →
  hoare I (mapM_ f l) (λ ys s, I s ∧ Forall2 R l ys) E.
Proof.
  induction 1 as [|x Hx l Hl IH]; cbn [mapM_].
  - apply hoare_ret. intros s Hs. split; [done|apply Forall2_nil_2].
  - intros s Hs. specialize (Hx s Hs). unfold mbind at 1, M_bind at 1.
    destruct (f x s) as [[y s1]|e]; [|done]. destruct Hx as [Hs1 Hy].
    specialize (IH s1 Hs1). unfold mbind, M_bind.
    destruct (mapM_ f l s1) as [[ys s2]|e]; [|done]. destruct IH as [Hs2 Hys].
    split; [done|]. by apply Forall2_cons.
Qed.
Lemma list_all_impl {B} (P : B → Type) (Q : B → Prop) (l : list B) :
  (∀ x, P x → Q x) → list_all B P l → list_all B Q l.
Proof. intros H. induction 1; constructor; auto. Qed.

Lemma list_all_intro {B} (P : B → Prop) (l : list B) : (∀ x, P x) → list_all B P l.
Proof. intros H. induction l; constructor; auto. Qed.

Section migrate.
Context (W : World) (self : _AnnotationTransformer) (D : Path) (ignore : bool).

Lemma _change_version_of_annotations_hoare a :
  hoare cache_keeps_shapes (_change_version_of_annotations W self a D)
    (λ r s', cache_keeps_shapes s' ∧ same_shape a r) (rewriter_error W self D).
Proof.
  intros s Hs.
  destruct (_change_version_of_annotations W self a D s) as [[r s']|e] eqn:Hrw.
  - by eapply _change_version_of_annotations_keeps.
  - by eapply _change_version_of_annotations_fails.
Qed.

#[local] Abbreviation migrates route :=
  (hoare cache_keeps_shapes (migrate_route_to_version W self route D ignore)
     (λ route' s',
        cache_keeps_shapes s'
        ∧ (migrated_from route route'
           ∧ (ignore = true → response_model route' = response_model route)))
     (rewriter_error W self D)).

Lemma migrate_route_to_version_hoare route : migrates route.
Proof.
  induction route as [p pf m e t rm sc ds su dp cb IH dt bf u ap].
  cbn [migrate_route_to_version].
  set (route := mk_APIRoute p pf m e t rm sc ds su dp cb dt bf u ap).
  eapply (hoare_bind _ _ _
            (λ r1 s1, cache_keeps_shapes s1
                      ∧ (is_Some (response_model r1) ↔ is_Some rm)
                      ∧ (ignore = true → response_model r1 = rm)
                      ∧ ∃ rm1, r1 = set_response_model rm1 route)).
  { cbn [response_model route]. destruct rm as [a|].
    - destruct ignore.
      + apply hoare_ret. intros s Hs. split_and!; [done|done|done|]. by exists (Some a).
      + eapply hoare_bind; [apply _change_version_of_annotations_hoare|].
        intros a'. apply hoare_ret. intros s [Hs _].
        split_and!; [done| |done|by eexists]. cbn. split; by eexists.
    - apply hoare_ret. intros s Hs. split_and!; [done|done|done|]. by exists None. }
  intros r1 s1 (Hs1 & Hrm & Hign & rm1 & ->). revert s1 Hs1.
  cbn [set_response_model route dependencies response_model] in Hrm, Hign |- *.
  eapply hoare_bind; [apply _change_version_of_annotations_hoare|].
  intros deps s2 (Hs2 & deps1 & -> & Hlen). revert s2 Hs2.
  eapply (hoare_bind _ _ _ (λ l s, cache_keeps_shapes s ∧ l = deps1));
    [apply hoare_lift; by intros|].
  intros ? s3 [Hs3 ->]. revert s3 Hs3.
  cbn [set_dependencies endpoint].
  eapply hoare_bind; [apply _change_version_of_annotations_hoare|].
  intros e1 s4 (Hs4 & f' & -> & Hname & Hco & _). revert s4 Hs4.
  eapply (hoare_bind _ _ _ (λ g s, cache_keeps_shapes s ∧ g = f'));
    [apply hoare_lift; by intros|].
  intros ? s5 [Hs5 ->]. revert s5 Hs5.
  eapply (hoare_bind _ _ _
            (λ cbs s, cache_keeps_shapes s ∧ Forall2 (λ _ _, True) cb cbs)).
  { cbn [callbacks]. apply hoare_mapM.
    eapply list_all_impl; [|exact IH]. intros callback Hcb.
    destruct Hcb as [c Hc|o].
    - eapply hoare_bind; [exact Hc|]. intros c'. apply hoare_ret. by intros s [Hs _].
    - apply hoare_ret. by intros s Hs. }
  intros cbs. apply hoare_ret. intros s6 [Hs6 Hcbs].
  apply Forall2_length in Hcbs.
  split; [done|].
  match goal with
  | |- context [_remake_endpoint_dependencies W ?x] =>
      destruct (_remake_endpoint_dependencies_fields W x)
        as (Hp & Hpf & Hm & Hend & Ht & Hr & Hsc & Hd & Hsu & Hdp & Hcb & Hu & Hq & Hrs)
  end.
  unfold migrated_from. rewrite Hp, Hpf, Hm, Hend, Ht, Hr, Hsc, Hd, Hsu, Hdp, Hcb, Hu.
  cbn [set_callbacks set_endpoint set_dependencies set_response_model route path
       path_format methods endpoint tags response_model status_code dependencies
       summary deprecated callbacks unique_id].
  by split_and!.
Qed.
End migrate.

(** X16: Migrating a route to a version changes neither its path, methods,
    tags, status code, summary, deprecation flag nor its identifier, keeps
    the number of its dependencies and callbacks, leaves a route without a
    response model without one and, when told to ignore the response
    model, leaves the response model alone; the endpoint keeps its name
    and its sync/async-ness, and the hidden request and response
    parameters of the new dependant are named. *)
Theorem migrating_a_route_keeps_what_identifies_it
    (W : World) (self : _AnnotationTransformer) (route route' : APIRoute)
    (version_dir : Path) (ignore_response_model : bool) (s s' : tstate) :
  cache_keeps_shapes s →
  migrate_route_to_version W self route version_dir ignore_response_model s
  = Ok (route', s') →
  cache_keeps_shapes s'
  ∧ path route' = path route ∧ path_format route' = path_format route
  ∧ methods route' = methods route ∧ tags route' = tags route
  ∧ status_code route' = status_code route ∧ summary route' = summary route
  ∧ deprecated route' = deprecated route ∧ unique_id route' = unique_id route
  ∧ f_name (endpoint route') = f_name (endpoint route)
  ∧ is_coroutine (endpoint route') = is_coroutine (endpoint route)
  ∧ length (dependencies route') = length (dependencies route)
  ∧ length (callbacks route') = length (callbacks route)
  ∧ (is_Some (response_model route') ↔ is_Some (response_model route))
  ∧ (ignore_response_model = true → response_model route' = response_model route)
  ∧ truthy (request_param_name (dependant route')) = true
  ∧ truthy (response_param_name (dependant route')) = true.
Proof.
  intros Hs Hm.
  pose proof (migrate_route_to_version_hoare W self version_dir ignore_response_model
                route s Hs) as H.
  rewrite Hm in H. destruct H as (Hs' & Hfrom & Hign).
  destruct Hfrom as (? & ? & ? & ? & ? & ? & ? & ? & ? & ? & ? & ? & ? & ? & ?).
  by split_and!.
Qed.

(** ** The loop over the versions *)

Lemma rewriter_error_generation W self D e :
  rewriter_error W self D e → generation_error e.
Proof. by intros [(c & f & -> & _)|(c & m & -> & _)]. Qed.

Lemma hoare_weaken {A} (m : M A) (P : tstate → Prop) (Q Q' : A → tstate → Prop)
    (E E' : exn → Prop) :
  hoare P m Q E → (∀ a s, Q a s → Q' a s) → (∀ e, E e → E' e) → hoare P m Q' E'.
Proof.
  intros Hm HQ HE s Hs. specialize (Hm s Hs).
  destruct (m s) as [[a s']|e]; [by apply HQ|by apply HE].
Qed.

Lemma foldlM_hoare {S B} (body : S → B → result S) (P : S → Prop) (E : exn → Prop) l :
  (∀ s x, x ∈ l → P s → match body s x with Ok s' => P s' | Raise e => E e end) →
  ∀ s, P s → match foldlM body s l with Ok s' => P s' | Raise e => E e end.
Proof.
  induction l as [|x l IH]; intros Hbody s Hs; cbn [foldlM]; [done|].
  pose proof (Hbody s x ltac:(left) Hs) as Hx.
  destruct (body s x) as [s1|e]; [|done].
  apply IH; [|done]. intros s2 y Hy. apply Hbody. by right.
Qed.

Lemma forM_hoare_from {S B} (body : S → B → M S) (P : list B → S → tstate → Prop)
    (E : exn → Prop) l :
  (∀ pre x post s, l = pre ++ x :: post → hoare (P pre s) (body s x) (P (pre ++ [x])) E) →
  ∀ rest pre s, l = pre ++ rest → hoare (P pre s) (forM body s rest) (P l) E.
Proof.
  intros Hbody. induction rest as [|x rest IH]; intros pre s Hl t Ht; cbn [forM].
  - rewrite app_nil_r in Hl. by subst.
  - unfold mbind, M_bind. specialize (Hbody pre x rest s Hl t Ht).
    destruct (body s x t) as [[s1 t1]|e]; [|done].
    apply (IH (pre ++ [x])); [by rewrite <- app_assoc|done].
Qed.

Lemma forM_hoare {S B} (body : S → B → M S) (P : list B → S → tstate → Prop)
    (E : exn → Prop) l :
  (∀ pre x post s, l = pre ++ x :: post → hoare (P pre s) (body s x) (P (pre ++ [x])) E) →
  ∀ s, hoare (P [] s) (forM body s l) (P l) E.
Proof. intros Hbody s. by apply (forM_hoare_from body P E l Hbody l []). Qed.

Lemma structural_conflict_generation e : structural_conflict e → generation_error e.
Proof. by destruct e. Qed.

Lemma apply_instruction_hoare vc st ins :
  match apply_instruction vc st ins with
  | Ok st' => Forall2 (corresponds same_endpoint) (st_routes st) (st_routes st')
  | Raise e => generation_error e
  end.
Proof.
  destruct (apply_instruction vc st ins) as [st'|e] eqn:Ha.
  - by apply apply_instruction_corresponds in Ha.
  - destruct (apply_instruction_outcome vc st ins)
      as [(e' & He & [Hs|[-> _]])|[[_ He]|[_ [st' He]]]]; [| | |congruence].
    + rewrite Ha in He. injection He as <-. by apply structural_conflict_generation.
    + rewrite Ha in He. by injection He as ->.
    + rewrite Ha in He. by injection He as ->.
Qed.

Lemma _apply_endpoint_changes_to_router_hoare st version :
  match _apply_endpoint_changes_to_router st version with
  | Ok st' => Forall2 (corresponds same_endpoint) (st_routes st) (st_routes st')
  | Raise e => generation_error e
  end.
Proof.
  unfold _apply_endpoint_changes_to_router.
  apply (foldlM_hoare _ (λ s, Forall2 (corresponds same_endpoint) (st_routes st)
                                (st_routes s))).
  - intros st1 vc _ H1. unfold apply_version_change.
    apply (foldlM_hoare _ (λ s, Forall2 (corresponds same_endpoint) (st_routes st)
                                  (st_routes s))); [|done].
    intros st3 ins _ H3. pose proof (apply_instruction_hoare (vc_name vc) st3 ins) as H.
    destruct (apply_instruction (vc_name vc) st3 ins) as [st4|e]; [|done].
    eapply Forall2_corresponds_trans; [apply same_endpoint_trans|done|done].
  - apply Forall2_corresponds_refl. by intros ?.
Qed.

Lemma corresponds_compose (R1 R2 R3 : APIRoute → APIRoute → Prop) l1 l2 l3 :
  (∀ x y z, R1 x y → R2 y z → R3 x z) →
  Forall2 (corresponds R1) l1 l2 → Forall2 (corresponds R2) l2 l3 →
  Forall2 (corresponds R3) l1 l3.
Proof.
  intros H H12 H23. eapply Forall2_trans; [|done|done].
  intros [r1|o1] [r2|o2] [r3|o3]; simpl; try done; [apply H|congruence].
Qed.

Lemma corresponds_impl (R1 R2 : APIRoute → APIRoute → Prop) l1 l2 :
  (∀ x y, R1 x y → R2 x y) →
  Forall2 (corresponds R1) l1 l2 → Forall2 (corresponds R2) l1 l2.
Proof.
  intros H H12. eapply Forall2_impl; [done|].
  intros [r1|o1] [r2|o2]; simpl; try done. apply H.
Qed.

Lemma infos_set_keys {V} k (v : V) d :
  (infos_set k v d).*1 = if decide (k ∈ d.*1) then d.*1 else d.*1 ++ [k].
Proof.
  induction d as [|[k' v'] d IH]; [done|]. cbn [infos_set].
  destruct (decide (k' = k)) as [->|Hne]; rewrite !fmap_cons; cbn [fst].
  - rewrite decide_True by left. done.
  - rewrite IH. destruct (decide (k ∈ d.*1)) as [Hin|Hnin].
    + rewrite decide_True by (by right). done.
    + rewrite decide_False; [done|].
      intros [->|?]%elem_of_cons; done.
Qed.

Lemma infos_set_Forall {V} (P : VersionDate * V → Prop) k (v : V) d :
  Forall P d → P (k, v) → Forall P (infos_set k v d).
Proof.
  intros Hd Hkv. induction Hd as [|[k' v'] d Hx Hd IH]; cbn [infos_set].
  - by apply Forall_singleton.
  - destruct (decide (k' = k)) as [->|Hne]; apply Forall_cons; by split.
Qed.

Section version_loop.
Context (W : World) (self : _EndpointTransformer).

#[local] Abbreviation AT := (annotation_transformer self).

Lemma migrate_router_to_version_hoare router_ version :
  hoare cache_keeps_shapes (migrate_router_to_version W AT router_ version)
    (λ router' s',
       cache_keeps_shapes s'
       ∧ Forall2 (corresponds migrated_from) (routes router_) (routes router')
       ∧ is_dir W (_get_version_dir_path W (latest_schemas_module AT) (value version))
         = true)
    generation_error.
Proof.
  unfold migrate_router_to_version.
  destruct (is_dir W _) eqn:Hdir; cbn [negb].
  2:{ by intros s _. }
  eapply hoare_bind.
  - apply (hoare_mapM _ cache_keeps_shapes (corresponds migrated_from) generation_error).
    apply list_all_intro. intros [r|o].
    + eapply hoare_bind.
      * eapply hoare_weaken; [apply migrate_route_to_version_hoare| |].
        -- intros r' s H. exact H.
        -- apply rewriter_error_generation.
      * intros r'. apply hoare_ret. by intros s (Hs & Hfrom & _).
    + apply hoare_ret. by intros s Hs.
  - intros routes'. apply hoare_ret. by intros s [Hs Hall].
Qed.

Lemma migrated_from_recorded r1 r2 r3 : tracked r1 r2 → migrated_from r2 r3 → recorded r1 r3.
Proof.
  unfold tracked, migrated_from, recorded, tracked.
  intros (Hn & Hc & Hu) (_ & _ & _ & _ & _ & _ & _ & Hu' & Hn' & Hc' & _ & _ & _ & Hq & Hr).
  split_and!; congruence.
Qed.

Lemma version_step_hoare processed version ls :
  hoare (version_loop_invariant W self processed ls) (version_step W self ls version)
    (version_loop_invariant W self (processed ++ [version])) generation_error.
Proof.
  intros t (Ht & Hcur & Hinfos & Hnd & Hkeys & Hord & Hdirs). revert t Ht.
  unfold version_step.
  eapply hoare_bind; [apply migrate_router_to_version_hoare|].
  intros migrated t1 (Ht1 & Hmig & Hdir). revert t1 Ht1.
  eapply (hoare_bind _ _ _
            (λ st t, cache_keeps_shapes t
                     ∧ Forall2 (corresponds same_endpoint) (routes migrated)
                         (st_routes st))).
  { apply hoare_lift.
    pose proof (_apply_endpoint_changes_to_router_hoare
                  (mk_applier_state (routes (deepcopy migrated))
                     (ls_routes_that_never_existed ls)) version) as H.
    destruct (_apply_endpoint_changes_to_router _ version) as [st|e].
    - by intros t Ht.
    - done. }
  intros st. apply hoare_ret. intros t2 [Ht2 Hst].
  assert (Forall2 (corresponds recorded) (routes (parent_router self)) (routes migrated))
    as Hrec.
  { eapply corresponds_compose; [apply migrated_from_recorded|done|done]. }
  unfold version_loop_invariant.
  cbn [ls_router ls_router_infos routes]. split_and!.
  - done.
  - eapply corresponds_compose; [|exact Hrec|exact Hst].
    intros x y z [(Hn & Hc & Hu) _] [He Hu']. unfold tracked. rewrite He, Hu'. done.
  - by apply infos_set_Forall.
  - rewrite infos_set_keys. case_decide as Hin; [done|].
    apply NoDup_app. split_and!; [done| |apply NoDup_singleton].
    intros x Hx ->%list_elem_of_singleton. done.
  - intros d. rewrite infos_set_keys, fmap_app, elem_of_app, <- Hkeys.
    cbn. rewrite list_elem_of_singleton. case_decide as Hin.
    + split; [by left|]. intros [?| ->]; done.
    + by rewrite elem_of_app, list_elem_of_singleton.
  - rewrite fmap_app. cbn. intros Hnd'. apply NoDup_app in Hnd' as (Hnd1 & Hdisj & _).
    rewrite infos_set_keys, (Hord Hnd1), decide_False; [done|].
    intros Hin. apply (Hdisj _ Hin). left.
  - apply Forall_app. split; [done|]. by apply Forall_singleton.
Qed.

Lemma initial_invariant t :
  cache_keeps_shapes t → version_loop_invariant W self [] (initial_loop_state self) t.
Proof.
  intros Ht. unfold version_loop_invariant, initial_loop_state, deepcopy.
  cbn [ls_router ls_router_infos]. split_and!; try done.
  - apply Forall2_corresponds_refl. by intros ?.
  - apply NoDup_nil_2.
Qed.

Lemma version_loop_hoare :
  hoare cache_keeps_shapes
    (forM (version_step W self) (initial_loop_state self) (versions self))
    (version_loop_invariant W self (versions self)) generation_error.
Proof.
  intros t Ht.
  apply (forM_hoare (version_step W self) (version_loop_invariant W self)
           generation_error (versions self)
           (λ pre x post s _, version_step_hoare pre x s)
           (initial_loop_state self) t).
  by apply initial_invariant.
Qed.
End version_loop.

(** ** The loop over the routes of the latest version *)

Lemma list_all_Forall {B} (P : B → Prop) (Q : B → Prop) (l : list B) :
  Forall P l → (∀ x, P x → Q x) → list_all B Q l.
Proof.
  intros Hall H. induction l as [|x l IH]; [constructor|].
  apply Forall_cons in Hall as [Hx Hall]. constructor; auto.
Qed.

Lemma truthy_Some o : truthy o = true → ∃ name, o = Some name.
Proof. destruct o as [name|]; [by exists name|done]. Qed.

Section route_loop.
Context (W : World) (self : _EndpointTransformer).

#[local] Abbreviation AT := (annotation_transformer self).
#[local] Abbreviation base := (routes (parent_router self)).

Lemma _add_data_migrations_to_route_recorded r0 older tmpl alias copy resp :
  recorded r0 older →
  match _add_data_migrations_to_route W older tmpl alias copy resp with
  | Ok older' =>
      unique_id older' = unique_id older ∧ tags older' = tags older
      ∧ is_coroutine (endpoint r0) = true
  | Raise e => generation_error e
  end.
Proof.
  intros [(_ & Hco & _) [Hq Hp]]. unfold _add_data_migrations_to_route, is_async_callable.
  rewrite Hco. destruct (is_coroutine (endpoint r0)); cbn [negb]; [|done].
  destruct (truthy_Some _ Hq) as [req Hreq]. destruct (truthy_Some _ Hp) as [rsp Hrsp].
  rewrite Hreq in Hq |- *. rewrite Hrsp in Hp |- *. rewrite Hq, Hp. cbn [andb].
  by destruct older.
Qed.

Lemma migrate_older_route_hoare latest copy k r0 entry :
  base !! k = Some (IsAPIRoute r0) →
  snapshot_from base k (routes (router entry.2)) →
  hoare cache_keeps_shapes (migrate_older_route W self latest copy k entry)
    (λ entry' t,
       cache_keeps_shapes t
       ∧ (entry'.1 = entry.1
          ∧ snapshot_from base (S k) (routes (router entry'.2))
          ∧ is_coroutine (endpoint r0) = true))
    generation_error.
Proof.
  destruct entry as [version info]. cbn [fst snd]. intros Hk [Hall Hrec].
  unfold migrate_older_route.
  destruct (Forall2_lookup_l _ _ _ _ _ Hall Hk) as (route' & Hk' & Hc).
  unfold BaseRoute in *. rewrite Hk'.
  destruct route' as [older|o]; [|done]. cbn [corresponds] in Hc.
  pose proof (Hrec k r0 older (le_n k) Hk Hk') as Hold.
  eapply (hoare_bind _ _ _ (λ _ t, cache_keeps_shapes t)).
  { destruct (body_field older) as [obf|]; [|apply hoare_ret; by intros].
    case_bool_decide; [|apply hoare_ret; by intros].
    eapply hoare_bind.
    - eapply hoare_weaken; [apply _change_version_of_annotations_hoare| |].
      + intros a s Ha. exact Ha.
      + apply rewriter_error_generation.
    - intros a. apply hoare_ret. by intros s [Hs _]. }
  intros tmpl.
  eapply (hoare_bind _ _ _
            (λ older' t, cache_keeps_shapes t
                         ∧ unique_id older' = unique_id older
                         ∧ is_coroutine (endpoint r0) = true)).
  { apply hoare_lift.
    pose proof (_add_data_migrations_to_route_recorded r0 older tmpl
                  (mf_alias <$> body_field older) copy (response_model latest) Hold) as H.
    destruct (_add_data_migrations_to_route W older _ _ _ _) as [older'|e].
    - intros s Hs. by destruct H as (? & _ & ?).
    - done. }
  intros older'. apply hoare_ret. intros s (Hs & Hu & Hco). cbn [fst snd router routes].
  split_and!; [done|done| |done]. split.
  - rewrite <- (list_insert_id base k (IsAPIRoute r0)) by done.
    apply Forall2_insert; [done|]. cbn [corresponds]. congruence.
  - intros i r r' Hi Hb. rewrite list_lookup_insert_ne by lia. apply Hrec; [lia|done].
Qed.

Lemma latest_route_step_hoare keys pre post acc :
  seq 0 (length base) = pre ++ length pre :: post →
  hoare (route_loop_invariant self keys pre acc) (latest_route_step W self acc (length pre))
    (route_loop_invariant self keys (pre ++ [length pre])) generation_error.
Proof.
  intros Hseq. destruct acc as [pr infos].
  intros t (Ht & Hpr & Hkeys & Hinfos & Hasync). revert t Ht.
  cbn [fst snd] in Hpr, Hkeys, Hinfos, Hasync.
  unfold latest_route_step, route_loop_invariant.
  rewrite length_app. cbn [length]. rewrite Nat.add_1_r. cbn [fst snd].
  set (k := length pre) in *. unfold BaseRoute in *.
  destruct (pr !! k) as [[latest|o]|] eqn:Hk.
  - destruct (Forall2_lookup_r _ _ _ _ _ Hpr Hk) as (route0 & Hk0 & Hc).
    destruct route0 as [r0|o]; [|done]. cbn [corresponds] in Hc.
    eapply hoare_bind.
    + apply (hoare_mapM _ cache_keeps_shapes
               (λ entry entry',
                  entry'.1 = entry.1
                  ∧ snapshot_from base (S k) (routes (router entry'.2))
                  ∧ is_coroutine (endpoint r0) = true) generation_error).
      eapply list_all_Forall; [exact Hinfos|]. intros entry Hentry.
      by apply migrate_older_route_hoare.
    + intros infos'. apply hoare_ret. intros t [Ht Hall]. cbn [fst snd].
      split_and!.
      * done.
      * rewrite <- (list_insert_id base k (IsAPIRoute r0)) by done.
        apply Forall2_insert; [done|]. cbn [corresponds].
        rewrite _add_request_and_response_params_spec.
        destruct Hc as [He Hu]. unfold same_endpoint. rewrite <- He, <- Hu.
        by destruct latest.
      * rewrite <- Hkeys. symmetry. apply list_eq_Forall2.
        apply Forall2_fmap. eapply Forall2_impl; [done|]. by intros ? ? [? _].
      * apply (Forall2_Forall_r _ _ _ _ Hall). apply Forall_forall. by intros ? _ ? (_ & ? & _).
      * intros Hne i r Hi Hb. destruct (decide (i = k)) as [->|Hik].
        -- rewrite Hk0 in Hb. injection Hb as <-.
           destruct Hall as [|e1 e1' ? ? (_ & _ & ?) _]; done.
        -- apply (Hasync ltac:(intros ->; by inversion Hall) i r); [lia|done].
  - apply hoare_ret. intros t Ht. cbn [fst snd]. split_and!; try done.
    + eapply Forall_impl; [done|]. intros entry [H1 H2]. split; [done|].
      intros i r r' Hi. apply H2. lia.
    + intros Hne i r Hi Hb. destruct (decide (i = k)) as [->|Hik].
      * destruct (Forall2_lookup_l _ _ _ _ _ Hpr Hb) as (route' & Hk' & Hc).
        rewrite Hk in Hk'. by injection Hk' as <-.
      * apply (Hasync Hne i r); [lia|done].
  - apply hoare_ret. intros t Ht. cbn [fst snd]. split_and!; try done.
    + eapply Forall_impl; [done|]. intros entry [H1 H2]. split; [done|].
      intros i r r' Hi. apply H2. lia.
    + intros Hne i r Hi Hb. destruct (decide (i = k)) as [->|Hik].
      * destruct (Forall2_lookup_l _ _ _ _ _ Hpr Hb) as (route' & Hk' & Hc). congruence.
      * apply (Hasync Hne i r); [lia|done].
Qed.

Lemma route_loop_hoare keys infos :
  hoare (route_loop_invariant self keys [] (base, infos))
    (forM (latest_route_step W self) (base, infos) (seq 0 (length base)))
    (route_loop_invariant self keys (seq 0 (length base))) generation_error.
Proof.
  apply (forM_hoare (latest_route_step W self) (route_loop_invariant self keys)
           generation_error (seq 0 (length base))).
  intros pre x post acc Hseq.
  assert (x = length pre) as ->.
  { assert (seq 0 (length base) !! length pre = Some x) as Hl.
    { rewrite Hseq. by apply list_lookup_middle. }
    apply lookup_seq in Hl as [-> _]. done. }
  by eapply latest_route_step_hoare.
Qed.
End route_loop.

(** ** Generation as a whole *)

Lemma hoare_pre {A} (m : M A) (P P' : tstate → Prop) (Q : A → tstate → Prop)
    (E : exn → Prop) :
  (∀ s, P s → P' s) → hoare P' m Q E → hoare P m Q E.
Proof. intros HP Hm s Hs. by apply Hm, HP. Qed.

Lemma transform_hoare W self :
  hoare cache_keeps_shapes (transform W self)
    (λ out _,
       generation_outcome W (parent_router self) (versions self)
         (latest_schemas_module (annotation_transformer self)) out.1)
    generation_error.
Proof.
  unfold transform. fold (initial_loop_state self).
  eapply hoare_bind; [apply version_loop_hoare|].
  intros ls t (Ht & Hcur & Hinfos & Hnd & Hkeys & Hord & Hdirs). revert t Ht.
  case_bool_decide as Hnever.
  { by intros t _. }
  eapply hoare_bind.
  { eapply hoare_pre; [|apply (route_loop_hoare W self (ls_router_infos ls).*1)].
    intros t Ht. unfold route_loop_invariant. cbn [fst snd length]. split_and!.
    - done.
    - apply Forall2_corresponds_refl. by intros ?.
    - done.
    - eapply Forall_impl; [exact Hinfos|]. intros entry Hentry. split.
      + eapply corresponds_impl; [|exact Hentry]. by intros x y [(_ & _ & ?) _].
      + intros i r r' _ Hb Hs.
        destruct (Forall2_lookup_l _ _ _ _ _ Hentry Hb) as (route' & Hs' & Hc).
        unfold BaseRoute in *. rewrite Hs in Hs'. by injection Hs' as <-.
    - intros _ i r Hi. lia. }
  intros [pr infos]. apply hoare_ret.
  intros t (Ht & Hpr & Hk & Hsnap & Hasync). cbn [fst snd] in *.
  rewrite length_seq in Hsnap, Hasync.
  rewrite <- list_fmap_compose.
  match goal with
  | |- generation_outcome _ _ _ _ (?h <$> infos) =>
      assert ((h <$> infos).*1 = (ls_router_infos ls).*1) as Hkeys'
  end.
  { rewrite <- Hk, <- list_fmap_compose. apply list_fmap_ext. by intros i [v info] _. }
  assert (versions self ≠ [] → infos ≠ []) as Hnonempty.
  { intros Hne ->. cbn in Hk. destruct (versions self) as [|v vs]; [done|].
    specialize (Hkeys (value v)). rewrite <- Hk in Hkeys.
    apply (elem_of_nil (value v)), Hkeys. left. }
  unfold generation_outcome. rewrite Hkeys'. split_and!; try done.
  - intros Hne r Hr. apply list_elem_of_lookup in Hr as [i Hi].
    apply (Hasync (Hnonempty Hne) i r); [|done]. by eapply lookup_lt_Some.
  - apply Forall_fmap, Forall_forall. intros [v info] Hin. cbn.
    rewrite Forall_forall in Hsnap. destruct (Hsnap _ Hin) as [Hall _].
    by exists (routes (router info)).
Qed.

Lemma new_tstate_keeps_shapes fresh : cache_keeps_shapes (new_tstate fresh).
Proof. by intros a D r. Qed.

Lemma _AnnotationTransformer__init__module W module versions_ built :
  _AnnotationTransformer__init__ W module versions_ = Ok built →
  latest_schemas_module built = module.
Proof.
  unfold _AnnotationTransformer__init__.
  destruct (negb (module_is_package module)); [done|].
  destruct (negb (endswith _ _)); [done|]. by intros [= <-].
Qed.

Lemma _EndpointTransformer__init__Raise W parent versions_ module e :
  _EndpointTransformer__init__ W parent versions_ module = Raise e → generation_error e.
Proof.
  unfold _EndpointTransformer__init__, _AnnotationTransformer__init__.
  destruct (negb (module_is_package module)); [by intros [= <-]|].
  destruct (negb (endswith _ _)); [by intros [= <-]|]. done.
Qed.

Lemma generate_versioned_routers_outcome W router_ versions_ module fresh :
  match generate_versioned_routers W router_ versions_ module fresh with
  | Ok (mapping, _) => generation_outcome W router_ versions_ module mapping
  | Raise e => generation_error e
  end.
Proof.
  unfold generate_versioned_routers.
  destruct (_EndpointTransformer__init__ W router_ versions_ module) as [self|e] eqn:Hinit.
  - cbn [mbind result_bind].
    pose proof (transform_hoare W self (new_tstate fresh) (new_tstate_keeps_shapes fresh))
      as H.
    apply _EndpointTransformer__init__Ok in Hinit as (Hp & Hv & Hat & _).
    apply _AnnotationTransformer__init__module in Hat.
    rewrite Hp, Hv, Hat in H.
    by destruct (transform W self (new_tstate fresh)) as [[[mapping self'] t]|e].
  - cbn [mbind result_bind]. by eapply _EndpointTransformer__init__Raise.
Qed.

(** ** What generation guarantees *)

(** X17: The bookkeeping of generation does not fail: when generation
    raises, the error is not the [IndexError] of the positional lookup of
    a route in the snapshot of a version, not the [AttributeError] of
    reading [body_field] from a route of a snapshot that is no API route,
    and not the internal error about the hidden request and response
    parameters of a route. *)
Theorem generation_raises_no_bookkeeping_error
    (W : World) (router_ : APIRouter) (versions_ : VersionBundle)
    (latest_schemas_module : ModuleType) (fresh : nat) (e : exn) :
  generate_versioned_routers W router_ versions_ latest_schemas_module fresh = Raise e →
  e ≠ IndexError
  ∧ (∀ oid, e ≠ AttributeError (RouteObject oid) "body_field")
  ∧ ∀ req resp ms p, e ≠ CadwynError_missing_param_names req resp ms p.
Proof.
  intros Hgen.
  pose proof (generate_versioned_routers_outcome W router_ versions_
                latest_schemas_module fresh) as H.
  rewrite Hgen in H.
  destruct e as [g| | | | |[module|oid] name| |]; try done; split_and!; intros; discriminate.
Qed.

(** X18: When generation returns for a bundle with at least one version, the
    endpoint of every API route of the router is a coroutine function. *)
Theorem generation_requires_asynchronous_endpoints
    (W : World) (router_ : APIRouter) (versions_ : VersionBundle)
    (latest_schemas_module : ModuleType) (fresh : nat)
    (generated : list (VersionDate * APIRouter) * APIRouter) :
  generate_versioned_routers W router_ versions_ latest_schemas_module fresh
  = Ok generated →
  versions_ ≠ [] →
  ∀ r, IsAPIRoute r ∈ routes router_ → is_coroutine (endpoint r) = true.
Proof.
  intros Hgen.
  pose proof (generate_versioned_routers_outcome W router_ versions_
                latest_schemas_module fresh) as H.
  rewrite Hgen in H. destruct generated as [mapping parent].
  by destruct H as (_ & _ & _ & _ & H & _).
Qed.

(** X19: The mapping generation returns has one entry for every version date
    of the bundle and no other entry; when no two versions of the bundle
    have the same date, its dates are those of the versions, in the order
    of the bundle. *)
Theorem generated_mapping_has_the_version_dates_of_the_bundle
    (W : World) (router_ : APIRouter) (versions_ : VersionBundle)
    (latest_schemas_module : ModuleType) (fresh : nat)
    (mapping : list (VersionDate * APIRouter)) (parent : APIRouter) :
  generate_versioned_routers W router_ versions_ latest_schemas_module fresh
  = Ok (mapping, parent) →
  NoDup mapping.*1
  ∧ (∀ d, d ∈ mapping.*1 ↔ ∃ version, version ∈ versions_ ∧ value version = d)
  ∧ (NoDup (value <$> versions_) → mapping.*1 = value <$> versions_).
Proof.
  intros Hgen.
  pose proof (generate_versioned_routers_outcome W router_ versions_
                latest_schemas_module fresh) as H.
  rewrite Hgen in H. destruct H as (Hnd & Hkeys & Hord & _).
  split_and!; [done| |done].
  intros d. rewrite Hkeys, list_elem_of_fmap. split.
  - intros (v & -> & Hv). by exists v.
  - intros (v & Hv & <-). by exists v.
Qed.

(** X20: Generation returns only if the schema directory of every version of
    the bundle exists; and when the directory of the first (newest)
    version does not exist, generation fails with the error that names the
    directory, whatever the routes and the instructions are. *)
Theorem generation_requires_the_directory_of_every_version
    (W : World) (router_ : APIRouter) (versions_ : VersionBundle)
    (latest_schemas_module : ModuleType) (fresh : nat) :
  (∀ generated,
     generate_versioned_routers W router_ versions_ latest_schemas_module fresh
     = Ok generated →
     ∀ version, version ∈ versions_ →
       is_dir W (_get_version_dir_path W latest_schemas_module (value version)) = true)
  ∧ (∀ self version rest,
       _EndpointTransformer__init__ W router_ versions_ latest_schemas_module = Ok self →
       versions_ = version :: rest →
       is_dir W (_get_version_dir_path W latest_schemas_module (value version)) = false →
       generate_versioned_routers W router_ versions_ latest_schemas_module fresh
       = Raise (Generation (VersionDirDoesNotExist
                  (_get_version_dir_path W latest_schemas_module (value version))))).
Proof.
  split.
  - intros [mapping parent] Hgen.
    pose proof (generate_versioned_routers_outcome W router_ versions_
                  latest_schemas_module fresh) as H.
    rewrite Hgen in H. destruct H as (_ & _ & _ & Hdirs & _).
    by apply Forall_forall.
  - intros self version rest Hinit -> Hdir. unfold generate_versioned_routers.
    rewrite Hinit. cbn [mbind result_bind].
    apply _EndpointTransformer__init__Ok in Hinit as (Hp & Hv & Hat & _).
    apply _AnnotationTransformer__init__module in Hat.
    assert (∀ ls t,
              version_step W self ls version t
              = Raise (Generation (VersionDirDoesNotExist
                         (_get_version_dir_path W latest_schemas_module (value version)))))
      as Hstep.
    { intros ls t. unfold version_step, migrate_router_to_version.
      rewrite Hat, Hdir. reflexivity. }
    rewrite (transform_loop_raises W self (new_tstate fresh)
               (Generation (VersionDirDoesNotExist
                  (_get_version_dir_path W latest_schemas_module (value version)))));
      [done|].
    rewrite Hv. cbn [forM]. unfold mbind, M_bind. by rewrite Hstep.
Qed.

(** ** Routes are neither reordered nor invented *)

Lemma strip_deleted_cons route routes :
  strip_deleted (route :: routes)
  = if match route with IsAPIRoute r => is_deleted_route r | OtherRoute _ => false end
    then strip_deleted routes else route :: strip_deleted routes.
Proof.
  unfold strip_deleted. cbn [List.filter].
  destruct route as [r|o]; [by destruct (is_deleted_route r)|done].
Qed.

Lemma snapshot_routes base snapshot :
  Forall2 (corresponds (λ r r', unique_id r' = unique_id r)) base snapshot →
  other_routes (strip_deleted snapshot) = other_routes base
  ∧ unique_id <$> api_routes (strip_deleted snapshot)
    `sublist_of` unique_id <$> api_routes base.
Proof.
  induction 1 as [|route route' base snapshot Hc Hall [IHo IHa]]; [done|].
  rewrite strip_deleted_cons.
  destruct route as [r|o], route' as [r'|o']; cbn [corresponds] in Hc; try done.
  - unfold other_routes, api_routes in *. cbn [omap list_omap fmap list_fmap].
    destruct (is_deleted_route r').
    + split; [done|]. by apply sublist_cons.
    + cbn [omap list_omap fmap list_fmap]. split; [done|]. rewrite Hc.
      by apply sublist_skip.
  - subst o'. unfold other_routes, api_routes in *. cbn [omap list_omap].
    split; [by rewrite IHo|done].
Qed.

(** X21: Generation neither invents nor reorders routes.  In every generated
    router the routes that are no API routes are those of the router given
    to the generator, in their order, and the API routes stem from API
    routes of that router, in their order: their identifiers form a sublist
    of the identifiers of the latter. *)
Theorem generated_routers_keep_the_order_of_the_routes
    (W : World) (router_ : APIRouter) (versions_ : VersionBundle)
    (latest_schemas_module : ModuleType) (fresh : nat)
    (mapping : list (VersionDate * APIRouter)) (parent : APIRouter) :
  generate_versioned_routers W router_ versions_ latest_schemas_module fresh
  = Ok (mapping, parent) →
  ∀ version generated,
    (version, generated) ∈ mapping →
    other_routes (routes generated) = other_routes (routes router_)
    ∧ unique_id <$> api_routes (routes generated)
      `sublist_of` unique_id <$> api_routes (routes router_).
Proof.
  intros Hgen version generated Hin.
  pose proof (generate_versioned_routers_outcome W router_ versions_
                latest_schemas_module fresh) as H.
  rewrite Hgen in H. destruct H as (_ & _ & _ & _ & _ & Hsnap).
  rewrite Forall_forall in Hsnap. destruct (Hsnap _ Hin) as (snapshot & Hall & Hr).
  cbn [snd] in Hr. rewrite Hr. by apply snapshot_routes.
Qed.

(** * The theorems at work on the small application *)

(** The objects of the small application are what the constructors and
    the marker build. *)
Lemma tutorial_transformers_built :
  _EndpointTransformer__init__ tutorial_world users_router users_bundle latest_module
  = Ok users_transformer
  ∧ only_exists_in_older_versions users_router get_users
    = Ok (parent_router marked_transformer)
  ∧ _EndpointTransformer__init__ tutorial_world (parent_router marked_transformer)
      (versions marked_transformer) latest_module
    = Ok marked_transformer.
Proof. split_and!; by vm_compute. Qed.

Lemma users_transform :
  transform tutorial_world users_transformer (new_tstate 10)
  = Ok (users_outcome.1.1, users_outcome.1.2, users_outcome.2).
Proof. by vm_compute. Defined.

Lemma no_deleted_route_in_generated_routers_witness :
  transform tutorial_world users_transformer (new_tstate 10)
  = Ok (users_outcome.1.1, users_outcome.1.2, users_outcome.2)
  ∧ ∀ version generated r,
      (version, generated) ∈ users_outcome.1.1 →
      IsAPIRoute r ∈ routes generated →
      _DELETED_ROUTE_TAG ∉ tags r.
Proof.
  split; [exact users_transform|].
  exact (proj1 no_deleted_route_in_generated_routers tutorial_world users_transformer
           (new_tstate 10) users_outcome.2 users_outcome.1.1 users_outcome.1.2
           users_transform).
Defined.

Lemma didnt_exist_on_deleted_route_raises_witness :
  kind delete_users = EndpointDidntExistInstruction
  ∧ apply_instruction "UsersDidntExist" users_deleted_state delete_users
    = Raise (Generation (AlreadyDeleted
               (method_union_of
                  (_get_routes (st_routes users_deleted_state) "/users" {["GET"]} None true))
               "/users" "UsersDidntExist"
               ((λ r, f_name (endpoint r))
                  <$> _get_routes (st_routes users_deleted_state) "/users" {["GET"]}
                        None true))).
Proof.
  split; [reflexivity|].
  apply (proj1 (proj1 didnt_exist_on_deleted_route_raises "UsersDidntExist"
                  users_deleted_state delete_users eq_refl)).
  by vm_compute.
Defined.

Lemma endpoint_had_instruction_overwrites_or_fails_witness :
  Exists (redundant status_code_204 create_user_route) __dataclass_fields__
  ∧ ∃ fld ms p,
      fld ∈ __dataclass_fields__
      ∧ _apply_endpoint_had_instruction "StatusCodeWas204" status_code_204
          create_user_route
        = Raise (Generation (AttributeWasTheSame (attr_name fld) ms p "StatusCodeWas204")).
Proof.
  assert (Exists (redundant status_code_204 create_user_route) __dataclass_fields__) as H.
  { unfold __dataclass_fields__. do 2 apply Exists_cons_tl. apply Exists_cons_hd.
    exists (Some 204%Z). split; reflexivity. }
  split; [exact H|].
  exact (proj1 (proj1 endpoint_had_instruction_overwrites_or_fails "StatusCodeWas204"
                  status_code_204 create_user_route) H).
Defined.

(** The methods of an instruction are a list: on [POST /users] the
    instruction that names the methods the route has is not redundant and
    leaves the list in the route, and the next instruction that reaches
    the route fails on the union of the methods. *)
Lemma methods_list_breaks_the_next_instruction :
  apply_instruction "MethodsWerePost" (mk_applier_state [IsAPIRoute create_user_route] [])
    (mk_instruction "/users" {["POST"]} None (EndpointHadInstruction methods_post))
  = Ok (mk_applier_state
          [IsAPIRoute (set_methods (ListOfMethods ["POST"]) create_user_route)] [])
  ∧ apply_version_change (mk_applier_state [IsAPIRoute create_user_route] [])
      methods_were_post
    = Raise TypeError.
Proof. split; by vm_compute. Qed.



Lemma never_restored_routes_are_fatal_witness :
  marked_users_route ∈ routes_that_never_existed marked_transformer
  ∧ (∀ vc ins, (vc, ins) ∈ instructions_of (versions marked_transformer) →
               ¬ restorable_by ins marked_users_route)
  ∧ ∃ e, transform tutorial_world marked_transformer (new_tstate 10) = Raise e.
Proof.
  assert (marked_users_route ∈ routes_that_never_existed marked_transformer) as Hin
    by left.
  assert (∀ vc ins, (vc, ins) ∈ instructions_of (versions marked_transformer) →
                    ¬ restorable_by ins marked_users_route) as Hnone.
  { intros vc ins Hins. vm_compute in Hins. by apply elem_of_nil in Hins. }
  split; [exact Hin|]. split; [exact Hnone|].
  exact (proj2 (proj2 (never_restored_routes_are_fatal tutorial_world marked_transformer
                         (new_tstate 10)) marked_users_route Hin Hnone)).
Defined.


Lemma tutorial_module_users module below :
  tutorial_module module = Some below → below = "users".
Proof.
  unfold tutorial_module. repeat case_decide; by intros [= <-].
Defined.

(** The modules of the newest version of the application hold the
    classes of [latest]. *)
Lemma tutorial_newest_version_consistent :
  version_dir_consistent tutorial_world tutorial_transformer
    (latest_version_dir tutorial_transformer).
Proof.
  intros module0 module name c.
  cbn [tutorial_world get_another_version_of_module module_getattr].
  destruct (tutorial_module module0) as [below|] eqn:Hm; [|done].
  apply tutorial_module_users in Hm as ->.
  intros Hmodule. vm_compute in Hmodule. injection Hmodule as <-.
  intros Hc. vm_compute in Hc. injection Hc as <-. intros _. split.
  - intros module'. vm_compute. by intros [= <-].
  - intros _ source_file [= <-]. by intros (_ & [=] & _).
Defined.


Lemma same_annotation_rewritten_twice_is_the_same_object_witness :
  non_container (AType UserResource)
  ∧ _change_version_of_annotations tutorial_world tutorial_transformer
      (AType UserResource) v2000_dir (new_tstate 10)
    = Ok (UserResource_rewritten.1, UserResource_rewritten.2)
  ∧ later tutorial_world tutorial_transformer UserResource_rewritten.2
      get_users_rewritten_next.2
  ∧ cache_lookup (AType UserResource, v2000_dir) (cache UserResource_rewritten.2)
    = Some UserResource_rewritten.1
  ∧ _change_version_of_annotations tutorial_world tutorial_transformer
      (AType UserResource) v2000_dir get_users_rewritten_next.2
    = Ok (UserResource_rewritten.1, get_users_rewritten_next.2).
Proof.
  assert (_change_version_of_annotations tutorial_world tutorial_transformer
            (AType UserResource) v2000_dir (new_tstate 10)
          = Ok (UserResource_rewritten.1, UserResource_rewritten.2)) as Hfirst
    by (by vm_compute).
  assert (later tutorial_world tutorial_transformer UserResource_rewritten.2
            get_users_rewritten_next.2) as Hlater.
  { apply (later_rewrite tutorial_world tutorial_transformer _ UserResource_rewritten.2
             _ (ACallable get_users) v2000_dir get_users_rewritten_next.1);
      [apply later_now|by vm_compute]. }
  split; [exact I|]. split; [exact Hfirst|]. split; [exact Hlater|].
  exact (same_annotation_rewritten_twice_is_the_same_object tutorial_world
           tutorial_transformer (AType UserResource) v2000_dir (new_tstate 10)
           UserResource_rewritten.2 get_users_rewritten_next.2
           UserResource_rewritten.1 I Hfirst Hlater).
Defined.

(** C9, as stated, fails for both readings of "the template (latest)
    version".  With [latest_version_dir] as the target, a schema type
    defined next to the version directories (in the shared tree, outside
    the template directory) is accepted; with the template directory as
    the target, nothing is validated at all, not even a type that lives in
    the directory of another version. *)
Lemma source_location_validation_counterexample :
  ¬ validates_as_claimed tutorial_world tutorial_transformer
      (latest_version_dir tutorial_transformer)
  ∧ ¬ validates_as_claimed tutorial_world tutorial_transformer
        (template_version_dir tutorial_transformer).
Proof.
  split; intros H.
  - destruct (H CommonSchema "/app/schemas/common.py") as [e He]; try reflexivity.
    vm_compute in He. discriminate.
  - destruct (H UserResource_v2000 "/app/schemas/v2000_01_01/users.py") as [e He];
      try reflexivity.
    vm_compute in He. discriminate.
Qed.

Lemma source_location_validated_only_for_latest_version_dir_witness :
  (cls_is_schema UserResource_v2000 = true
   ∧ latest_version_dir tutorial_transformer = latest_version_dir tutorial_transformer
   ∧ cls_source_file UserResource_v2000 = Some "/app/schemas/v2000_01_01/users.py"
   ∧ outside_template_dir tutorial_transformer "/app/schemas/v2000_01_01/users.py"
   ∧ UserResource_v2000 = UserResource_v2000
   ∧ template_version_dir tutorial_transformer = template_version_dir tutorial_transformer)
  ∧ _change_version_of_type tutorial_world tutorial_transformer UserResource_v2000
      (latest_version_dir tutorial_transformer)
    = Raise (Generation (NotDefinedInTemplateDir UserResource_v2000
               (template_version_dir tutorial_transformer)
               "/app/schemas/v2000_01_01/users.py")).
Proof.
  assert (outside_template_dir tutorial_transformer "/app/schemas/v2000_01_01/users.py")
    as Hout.
  { split; [reflexivity|]. split; [reflexivity|].
    do 2 apply Exists_cons_tl. apply Exists_cons_hd. reflexivity. }
  assert (cls_is_schema UserResource_v2000 = true
          ∧ latest_version_dir tutorial_transformer = latest_version_dir tutorial_transformer
          ∧ cls_source_file UserResource_v2000 = Some "/app/schemas/v2000_01_01/users.py"
          ∧ outside_template_dir tutorial_transformer "/app/schemas/v2000_01_01/users.py"
          ∧ UserResource_v2000 = UserResource_v2000
          ∧ template_version_dir tutorial_transformer
            = template_version_dir tutorial_transformer) as Hcond
    by (split; [reflexivity|]; split; [reflexivity|]; split; [reflexivity|];
        split; [exact Hout|]; split; reflexivity).
  split; [exact Hcond|].
  exact (proj2 (proj1 (source_location_validated_only_for_latest_version_dir
                         tutorial_world tutorial_transformer UserResource_v2000
                         (latest_version_dir tutorial_transformer))
                  UserResource_v2000 (template_version_dir tutorial_transformer)
                  "/app/schemas/v2000_01_01/users.py") Hcond).
Defined.

Lemma transform_assigns_hidden_param_names_on_the_input_router_witness :
  transform tutorial_world users_transformer (new_tstate 10)
  = Ok (users_outcome.1.1, users_outcome.1.2, users_outcome.2)
  ∧ routes (parent_router users_outcome.1.2)
    = with_hidden_param_names_in <$> routes (parent_router users_transformer)
  ∧ (∀ r, IsAPIRoute r ∈ routes (parent_router users_transformer) →
          truthy (request_param_name (dependant r)) = false
          ∨ truthy (response_param_name (dependant r)) = false →
          parent_router users_outcome.1.2 ≠ parent_router users_transformer).
Proof.
  split; [exact users_transform|].
  exact (transform_assigns_hidden_param_names_on_the_input_router tutorial_world
           users_transformer (new_tstate 10) users_outcome.2 users_outcome.1.1
           users_outcome.1.2 users_transform).
Defined.

(** ** The further properties at work *)

Lemma users_generated :
  generate_versioned_routers tutorial_world users_router users_bundle latest_module 10
  = Ok (users_outcome.1.1, parent_router users_outcome.1.2).
Proof. by vm_compute. Defined.

Lemma routes_marked_for_older_versions_are_recorded_witness :
  only_exists_in_older_versions users_router get_users
  = Ok (parent_router marked_transformer)
  ∧ _EndpointTransformer__init__ tutorial_world (parent_router marked_transformer)
      (versions marked_transformer) latest_module
    = Ok marked_transformer
  ∧ (∀ r, r ∈ routes_that_never_existed marked_transformer
          ↔ IsAPIRoute r ∈ routes (parent_router marked_transformer)
            ∧ _DELETED_ROUTE_TAG ∈ tags r)
  ∧ ∃ r, r ∈ routes_that_never_existed marked_transformer ∧ endpoint r = get_users.
Proof.
  assert (only_exists_in_older_versions users_router get_users
          = Ok (parent_router marked_transformer)) as Hmark by (by vm_compute).
  assert (_EndpointTransformer__init__ tutorial_world (parent_router marked_transformer)
            (versions marked_transformer) latest_module
          = Ok marked_transformer) as Hinit by (by vm_compute).
  split; [exact Hmark|]. split; [exact Hinit|].
  exact (routes_marked_for_older_versions_are_recorded tutorial_world users_router
           (parent_router marked_transformer) get_users (versions marked_transformer)
           latest_module marked_transformer Hmark Hinit).
Defined.

Lemma existed_on_active_route_raises_witness :
  kind restore_users = EndpointExistedInstruction
  ∧ _get_routes (st_routes users_active_state) "/users" {["GET"]} None false ≠ []
  ∧ apply_instruction "UsersExisted" users_active_state restore_users
    = Raise (Generation (AlreadyExisted
               (method_union_of
                  (_get_routes (st_routes users_active_state) "/users" {["GET"]} None false))
               "/users" "UsersExisted"
               ((λ r, f_name (endpoint r))
                  <$> _get_routes (st_routes users_active_state) "/users" {["GET"]}
                        None false))).
Proof.
  assert (_get_routes (st_routes users_active_state) (endpoint_path restore_users)
            (endpoint_methods restore_users) (endpoint_func_name restore_users) false
          ≠ []) as Hactive by (by vm_compute).
  split; [reflexivity|]. split; [exact Hactive|].
  exact (proj1 (existed_on_active_route_raises "UsersExisted" users_active_state
                  restore_users eq_refl) Hactive).
Defined.

Lemma existed_with_two_candidates_raises_witness :
  kind restore_users = EndpointExistedInstruction
  ∧ _get_routes (st_routes two_deleted_state) "/users" {["GET"]} None false = []
  ∧ ¬ NoDup ((λ r, set_ (methods r))
               <$> _get_routes (st_routes two_deleted_state) "/users" {["GET"]} None true)
  ∧ ∃ before after route earlier,
      _get_routes (st_routes two_deleted_state) "/users" {["GET"]} None true
      = before ++ route :: after
      ∧ earlier ∈ before ∧ set_ (methods earlier) = set_ (methods route)
      ∧ apply_instruction "UsersExisted" two_deleted_state restore_users
        = Raise (Generation (SeveralApplicableRoutes {["GET"]} "/users" "UsersExisted"
                   [f_name (endpoint route); f_name (endpoint earlier)])).
Proof.
  assert (_get_routes (st_routes two_deleted_state) (endpoint_path restore_users)
            (endpoint_methods restore_users) (endpoint_func_name restore_users) false
          = []) as Hnone by (by vm_compute).
  assert (¬ NoDup ((λ r, set_ (methods r))
                     <$> _get_routes (st_routes two_deleted_state)
                           (endpoint_path restore_users) (endpoint_methods restore_users)
                           (endpoint_func_name restore_users) true)) as Hdup.
  { assert (_get_routes (st_routes two_deleted_state) (endpoint_path restore_users)
              (endpoint_methods restore_users) (endpoint_func_name restore_users) true
            = [marked_users_route; set_endpoint get_users_legacy marked_users_route])
      as -> by (by vm_compute).
    intros Hnd. apply NoDup_cons in Hnd as [Hnin _]. apply Hnin. left. }
  split; [reflexivity|]. split; [exact Hnone|]. split; [exact Hdup|].
  exact (proj1 (existed_with_two_candidates_raises "UsersExisted" two_deleted_state
                  restore_users eq_refl Hnone) Hdup).
Defined.

Lemma restoring_a_deleted_endpoint_gives_back_the_routes_witness :
  apply_instruction "UsersDidntExist" users_active_state delete_users
  = Ok users_deleted_state
  ∧ apply_instruction "UsersExisted" users_deleted_state restore_users
    = Ok users_active_state
  ∧ st_routes users_active_state = st_routes users_active_state.
Proof.
  assert (apply_instruction "UsersDidntExist" users_active_state delete_users
          = Ok users_deleted_state) as Hdel by (by vm_compute).
  assert (apply_instruction "UsersExisted" users_deleted_state restore_users
          = Ok users_active_state) as Hres by (by vm_compute).
  split; [exact Hdel|]. split; [exact Hres|].
  exact (restoring_a_deleted_endpoint_gives_back_the_routes "UsersDidntExist"
           "UsersExisted" users_active_state users_deleted_state users_active_state
           delete_users restore_users eq_refl eq_refl eq_refl eq_refl eq_refl Hdel Hres).
Defined.

Lemma version_2021_applied :
  _apply_endpoint_changes_to_router users_active_state version_2021
  = Ok users_deleted_state.
Proof. by vm_compute. Defined.

Lemma endpoint_changes_only_shrink_the_routes_to_restore_witness :
  _apply_endpoint_changes_to_router users_active_state version_2021
  = Ok users_deleted_state
  ∧ st_never_existed users_deleted_state `sublist_of` st_never_existed users_active_state
  ∧ ((∀ vc ins, (vc, ins) ∈ instructions_of [version_2021] →
                kind ins ≠ EndpointExistedInstruction) →
     st_never_existed users_deleted_state = st_never_existed users_active_state).
Proof.
  split; [exact version_2021_applied|].
  exact (endpoint_changes_only_shrink_the_routes_to_restore users_active_state
           users_deleted_state version_2021 version_2021_applied).
Defined.

Lemma endpoint_changes_keep_every_route_in_its_place_witness :
  _apply_endpoint_changes_to_router users_active_state version_2021
  = Ok users_deleted_state
  ∧ length (st_routes users_deleted_state) = length (st_routes users_active_state)
  ∧ ∀ i route,
      st_routes users_active_state !! i = Some route →
      match route with
      | IsAPIRoute r =>
          ∃ r', st_routes users_deleted_state !! i = Some (IsAPIRoute r')
                ∧ endpoint r' = endpoint r ∧ unique_id r' = unique_id r
      | OtherRoute o => st_routes users_deleted_state !! i = Some (OtherRoute o)
      end.
Proof.
  split; [exact version_2021_applied|].
  exact (endpoint_changes_keep_every_route_in_its_place users_active_state
           users_deleted_state version_2021 version_2021_applied).
Defined.

Lemma rewriter_errors_and_their_causes_witness :
  _change_version_of_annotations tutorial_world tutorial_transformer
    (AType UserResource_v2000) (latest_version_dir tutorial_transformer) (new_tstate 10)
  = Raise (Generation (NotDefinedInTemplateDir UserResource_v2000
             (template_version_dir tutorial_transformer)
             "/app/schemas/v2000_01_01/users.py"))
  ∧ cls_is_schema UserResource_v2000 = true
  ∧ outside_template_dir tutorial_transformer "/app/schemas/v2000_01_01/users.py".
Proof.
  assert (_change_version_of_annotations tutorial_world tutorial_transformer
            (AType UserResource_v2000) (latest_version_dir tutorial_transformer)
            (new_tstate 10)
          = Raise (Generation (NotDefinedInTemplateDir UserResource_v2000
                     (template_version_dir tutorial_transformer)
                     "/app/schemas/v2000_01_01/users.py"))) as Hrw by (by vm_compute).
  split; [exact Hrw|].
  destruct (proj1 (proj2 (rewriter_errors_and_their_causes tutorial_world
                            tutorial_transformer (AType UserResource_v2000)
                            (latest_version_dir tutorial_transformer) (new_tstate 10)
                            _ Hrw))
              UserResource_v2000 (template_version_dir tutorial_transformer)
              "/app/schemas/v2000_01_01/users.py" eq_refl)
    as (_ & _ & Hschema & _ & Houtside).
  split; [exact Hschema|exact Houtside].
Defined.

Lemma rewriting_keeps_the_shape_of_an_annotation_witness :
  cache_keeps_shapes (new_tstate 10)
  ∧ _change_version_of_annotations tutorial_world tutorial_transformer
      (AType UserResource) v2000_dir (new_tstate 10)
    = Ok (UserResource_rewritten.1, UserResource_rewritten.2)
  ∧ same_shape (AType UserResource) UserResource_rewritten.1
  ∧ cache_keeps_shapes UserResource_rewritten.2.
Proof.
  assert (cache_keeps_shapes (new_tstate 10)) as Hs by (by intros a D r).
  assert (_change_version_of_annotations tutorial_world tutorial_transformer
            (AType UserResource) v2000_dir (new_tstate 10)
          = Ok (UserResource_rewritten.1, UserResource_rewritten.2)) as Hrw
    by (by vm_compute).
  split; [exact Hs|]. split; [exact Hrw|].
  exact (rewriting_keeps_the_shape_of_an_annotation tutorial_world tutorial_transformer
           (AType UserResource) UserResource_rewritten.1 v2000_dir (new_tstate 10)
           UserResource_rewritten.2 Hs Hrw).
Defined.

Lemma migrating_a_route_keeps_what_identifies_it_witness :
  cache_keeps_shapes (new_tstate 10)
  ∧ migrate_route_to_version tutorial_world tutorial_transformer users_route v2000_dir
      false (new_tstate 10)
    = Ok (users_route_migrated.1, users_route_migrated.2)
  ∧ path users_route_migrated.1 = path users_route
  ∧ methods users_route_migrated.1 = methods users_route
  ∧ f_name (endpoint users_route_migrated.1) = f_name (endpoint users_route).
Proof.
  assert (cache_keeps_shapes (new_tstate 10)) as Hs by (by intros a D r).
  assert (migrate_route_to_version tutorial_world tutorial_transformer users_route
            v2000_dir false (new_tstate 10)
          = Ok (users_route_migrated.1, users_route_migrated.2)) as Hm by (by vm_compute).
  split; [exact Hs|]. split; [exact Hm|].
  destruct (migrating_a_route_keeps_what_identifies_it tutorial_world
              tutorial_transformer users_route users_route_migrated.1 v2000_dir false
              (new_tstate 10) users_route_migrated.2 Hs Hm)
    as (_ & Hp & _ & Hmeth & _ & _ & _ & _ & _ & Hname & _).
  split; [exact Hp|]. split; [exact Hmeth|exact Hname].
Defined.

Lemma generation_raises_no_bookkeeping_error_witness :
  generate_versioned_routers tutorial_world (parent_router marked_transformer)
    (versions marked_transformer) latest_module 10
  = Raise (Generation (NeverRestored [marked_users_route]))
  ∧ Generation (NeverRestored [marked_users_route]) ≠ IndexError.
Proof.
  assert (generate_versioned_routers tutorial_world (parent_router marked_transformer)
            (versions marked_transformer) latest_module 10
          = Raise (Generation (NeverRestored [marked_users_route]))) as Hgen
    by (by vm_compute).
  split; [exact Hgen|].
  exact (proj1 (generation_raises_no_bookkeeping_error tutorial_world
                  (parent_router marked_transformer) (versions marked_transformer)
                  latest_module 10 _ Hgen)).
Defined.

Lemma generation_requires_asynchronous_endpoints_witness :
  generate_versioned_routers tutorial_world users_router users_bundle latest_module 10
  = Ok (users_outcome.1.1, parent_router users_outcome.1.2)
  ∧ users_bundle ≠ []
  ∧ ∀ r, IsAPIRoute r ∈ routes users_router → is_coroutine (endpoint r) = true.
Proof.
  assert (users_bundle ≠ []) as Hne by done.
  split; [exact users_generated|]. split; [exact Hne|].
  exact (generation_requires_asynchronous_endpoints tutorial_world users_router
           users_bundle latest_module 10 _ users_generated Hne).
Defined.

Lemma generated_mapping_has_the_version_dates_of_the_bundle_witness :
  generate_versioned_routers tutorial_world users_router users_bundle latest_module 10
  = Ok (users_outcome.1.1, parent_router users_outcome.1.2)
  ∧ NoDup (users_outcome.1.1).*1
  ∧ (∀ d, d ∈ (users_outcome.1.1).*1
          ↔ ∃ version, version ∈ users_bundle ∧ value version = d)
  ∧ (NoDup (value <$> users_bundle) → (users_outcome.1.1).*1 = value <$> users_bundle).
Proof.
  split; [exact users_generated|].
  exact (generated_mapping_has_the_version_dates_of_the_bundle tutorial_world
           users_router users_bundle latest_module 10 _ _ users_generated).
Defined.

Lemma generated_routers_keep_the_order_of_the_routes_witness :
  generate_versioned_routers tutorial_world users_router users_bundle latest_module 10
  = Ok (users_outcome.1.1, parent_router users_outcome.1.2)
  ∧ ∀ version generated,
      (version, generated) ∈ users_outcome.1.1 →
      other_routes (routes generated) = other_routes (routes users_router)
      ∧ unique_id <$> api_routes (routes generated)
        `sublist_of` unique_id <$> api_routes (routes users_router).
Proof.
  split; [exact users_generated|].
  exact (generated_routers_keep_the_order_of_the_routes tutorial_world users_router
           users_bundle latest_module 10 _ _ users_generated).
Defined.
